(** * sequelify: the statement resolver and the connection manager of [index.js]

    A shallow embedding of [src/index.js]: the four text passes of [DBS.frag]
    (array binds, dialect guards, version guards, fragment guards), the
    prepared statement functions built by [SQLS.prepared], [DBS.exec], and the
    lifecycle batch of [Manager] ([operation], [Manager.init]).

    Text is a list of characters (code units below 256).  The passes of
    [frag] are calls of [String.prototype.replace] with a global regular
    expression and a callback, so the file starts with the backtracking
    matcher of ECMA-262 (matchers in continuation style) for the constructs
    that the four patterns use. *)

From Stdlib Require Import Ascii String DecimalString DecimalNat QArith Lia.
From stdpp Require Import gmap strings list.
Close Scope Q_scope.
Open Scope string_scope.
Open Scope list_scope.

Set Default Proof Using "Type".

(** ** Text *)

Abbreviation text := (list ascii).

Definition txt (s : string) : text := list_ascii_of_string s.
Definition str (t : text) : string := string_of_list_ascii t.

Definition code (a : ascii) : nat := nat_of_ascii a.

Definition between (lo hi : nat) (a : ascii) : bool :=
  (lo <=? code a)%nat && (code a <=? hi)%nat.

Definition is_lower (a : ascii) : bool := between 97 122 a.
Definition is_upper (a : ascii) : bool := between 65 90 a.
Definition is_digit (a : ascii) : bool := between 48 57 a.
Definition is_letter (a : ascii) : bool := is_lower a || is_upper a.

(** [toUpperCase] and [toLowerCase] on the letters a-z and A-Z; the other
    characters of the patterns and of the CRUD names have no case. *)
Definition upper (a : ascii) : ascii :=
  if is_lower a then ascii_of_nat (code a - 32) else a.
Definition lower (a : ascii) : ascii :=
  if is_upper a then ascii_of_nat (code a + 32) else a.

Definition toUpperCase (t : text) : text := map upper t.
Definition toLowerCase (t : text) : text := map lower t.

(** JavaScript's [\s] on code units below 256: TAB, LF, VT, FF, CR, SP, NBSP. *)
Definition is_space (a : ascii) : bool :=
  between 9 13 a || (code a =? 32)%nat || (code a =? 160)%nat.

(** [\w] is [A-Za-z0-9_]. *)
Definition is_word (a : ascii) : bool :=
  is_letter a || is_digit a || (code a =? 95)%nat.

Definition ascii_eqb (a b : ascii) : bool := (code a =? code b)%nat.

(** ** Regular expressions *)

(** Character sets: a literal character, a range inside brackets, the
    escapes [\s], [\S], [\w], [\d], and a bracket listing several of them. *)
Inductive cclass : Type :=
| CChar (a : ascii)
| CRange (lo hi : ascii)
| CSpace
| CNotSpace
| CWord
| CDigit
| CUnion (x y : cclass).

(** With the [i] flag a character matches a set when one of its case variants
    is a member (Canonicalize of ECMA-262 on the letters a-z). *)
Fixpoint cmatch (icase : bool) (cl : cclass) (a : ascii) : bool :=
  match cl with
  | CChar b => if icase then ascii_eqb (upper a) (upper b) else ascii_eqb a b
  | CRange lo hi =>
      let inr c := between (code lo) (code hi) c in
      if icase then inr a || inr (upper a) || inr (lower a) else inr a
  | CSpace => is_space a
  | CNotSpace => negb (is_space a)
  | CWord => is_word a
  | CDigit => is_digit a
  | CUnion x y => cmatch icase x a || cmatch icase y a
  end.

(** The constructs of the four patterns: a character set, the empty pattern,
    concatenation, [|], a quantifier (greedy or lazy, with its bounds), a
    capturing group with its number, and the negative lookahead [(?!...)]. *)
Inductive regex : Type :=
| RChar (cl : cclass)
| REmpty
| RSeq (r1 r2 : regex)
| RAlt (r1 r2 : regex)
| RRep (greedy : bool) (min : nat) (max : option nat) (r : regex)
| RGroup (n : nat) (r : regex)
| RNegLook (r : regex).

Declare Scope regex_scope.
Delimit Scope regex_scope with re.
Bind Scope regex_scope with regex.
Infix ">>" := RSeq (at level 41, right associativity) : regex_scope.

Definition chr (a : ascii) : regex := RChar (CChar a).

Fixpoint lit_chars (t : text) : regex :=
  match t with
  | [] => REmpty
  | [a] => chr a
  | a :: t' => RSeq (chr a) (lit_chars t')
  end.
Definition lit (s : string) : regex := lit_chars (txt s).

Definition star (r : regex) : regex := RRep true 0 None r.        (* r*  *)
Definition lazy_star (r : regex) : regex := RRep false 0 None r.  (* r*? *)
Definition plus (r : regex) : regex := RRep true 1 None r.        (* r+  *)
Definition opt (r : regex) : regex := RRep true 0 (Some 1) r.     (* r?  *)
Definition upto (n : nat) (r : regex) : regex := RRep true 0 (Some n) r. (* r{0,n} *)

(** Captures: the text of each group that took part in the match. *)
Definition caps : Type := list (nat * text).

Fixpoint getcap (n : nat) (c : caps) : option text :=
  match c with
  | [] => None
  | (k, v) :: c' => if (k =? n)%nat then Some v else getcap n c'
  end.

Definition setcap (n : nat) (v : text) (c : caps) : caps := (n, v) :: c.

(** The value a callback receives for a group; every group of the four
    patterns takes part in every match. *)
Definition cap (n : nat) (c : caps) : text := default [] (getcap n c).

(** The state of a match attempt is the rest of the text, the index reached
    ([endIndex]) and the captures. *)
Definition mres : Type := text * nat * caps.
Definition cont : Type := text -> nat -> caps -> option mres.
Definition matcher : Type := text -> nat -> caps -> cont -> option mres.

Definition orelse (a b : option mres) : option mres :=
  match a with Some x => Some x | None => b end.

Definition pred_max (mx : option nat) : option nat :=
  match mx with Some n => Some (Nat.pred n) | None => None end.

Section RepeatMatcher.
Variable mr : matcher.

(** RepeatMatcher of ECMA-262: [max = 0] ends the loop; an iteration that
    is not required ([min = 0]) and consumes nothing is rejected; a greedy
    quantifier tries one more iteration first, a lazy one tries the rest of
    the pattern first.  The first argument bounds the number of iterations:
    each one uses up a required iteration or at least one character, so
    [S (min + length s)] is never exhausted ([RepeatMatcher_fuel]). *)
Fixpoint RepeatMatcher (fuel : nat) (greedy : bool) (mn : nat) (mx : option nat)
    (s : text) (p : nat) (c : caps) (k : cont) {struct fuel} : option mres :=
  match fuel with
  | O => None
  | S fuel' =>
      match mx with
      | Some O => k s p c
      | _ =>
          let d : cont := fun s' p' c' =>
            if (mn =? 0)%nat && (p' =? p)%nat then None
            else RepeatMatcher fuel' greedy (Nat.pred mn) (pred_max mx) s' p' c' k in
          if (0 <? mn)%nat then mr s p c d
          else if greedy then orelse (mr s p c d) (k s p c)
          else orelse (k s p c) (mr s p c d)
      end
  end.
End RepeatMatcher.

(** The matcher of a pattern: [m icase r s p c k] matches [r] at the start of
    [s], which is the text from index [p] on, with captures [c], and hands the
    rest of the text to [k]; [None] is failure, after which the caller
    backtracks.  No quantifier of the four patterns contains a group, so the
    reset of the captures at each iteration has nothing to do. *)
Fixpoint m (icase : bool) (r : regex) {struct r} : matcher :=
  match r with
  | RChar cl => fun s p c k =>
      match s with
      | a :: s' => if cmatch icase cl a then k s' (S p) c else None
      | [] => None
      end
  | REmpty => fun s p c k => k s p c
  | RSeq r1 r2 => fun s p c k =>
      m icase r1 s p c (fun s1 p1 c1 => m icase r2 s1 p1 c1 k)
  | RAlt r1 r2 => fun s p c k => orelse (m icase r1 s p c k) (m icase r2 s p c k)
  | RRep greedy mn mx r1 => fun s p c k =>
      RepeatMatcher (m icase r1) (S (mn + length s)) greedy mn mx s p c k
  | RGroup n r1 => fun s p c k =>
      m icase r1 s p c (fun s1 p1 c1 => k s1 p1 (setcap n (take (p1 - p) s) c1))
  | RNegLook r1 => fun s p c k =>
      match m icase r1 s p c (fun s1 p1 c1 => Some (s1, p1, c1)) with
      | Some _ => None
      | None => k s p c
      end
  end.

(** One attempt at the start of [s]: the rest of the text, the length of the
    match and the captures. *)
Definition exec (icase : bool) (r : regex) (s : text) : option mres :=
  m icase r s 0 [] (fun s' p' c' => Some (s', p', c')).

(** ** [String.prototype.replace] with a global pattern and a callback *)

Section Replace.
Context {St : Type}.
Variable icase : bool.
Variable r : regex.
(** The callback: the matched text, the captures and the state it may
    change (the bind set for the array pass) give the replacement. *)
Variable f : text -> caps -> St -> text * St.

(** [replace_from s skip st] scans [s] from left to right; [skip] counts
    the characters still covered by the last match.  Where the pattern
    matches, the callback's text replaces the match and the scan goes on
    behind it (one character further after an empty match); elsewhere the
    character is copied.  JavaScript collects the matches before it calls
    the callback on each, in the same order; no pattern here looks at what
    a callback changes. *)
Fixpoint replace_from (s : text) (skip : nat) (st : St) {struct s} : text * St :=
  match skip with
  | S n =>
      match s with
      | [] => ([], st)
      | _ :: s' => replace_from s' n st
      end
  | O =>
      match exec icase r s with
      | Some (_, n, c) =>
          let '(rep, st1) := f (take n s) c st in
          match s with
          | [] => (rep, st1)
          | a :: s' =>
              if (n =? 0)%nat
              then let '(out, st2) := replace_from s' 0 st1 in (rep ++ a :: out, st2)
              else let '(out, st2) := replace_from s' (n - 1) st1 in (rep ++ out, st2)
          end
      | None =>
          match s with
          | [] => ([], st)
          | a :: s' => let '(out, st1) := replace_from s' 0 st in (a :: out, st1)
          end
      end
  end.

Definition replace (s : text) (st : St) : text * St := replace_from s 0 st.
End Replace.

(** A pass whose callback has no state. *)
Definition replace_pure (icase : bool) (r : regex) (f : text -> caps -> text) (s : text) : text :=
  fst (replace icase r (fun mt c (_ : unit) => (f mt c, tt)) s tt).

(** ** Values and bind sets *)

(** The values a bind can hold, as far as the code tells them apart: an
    array, a [Date] and the rest.  A [Date] carries the text [toISOString]
    gives for it; an invalid [Date], one that holds no time, carries none, and
    [toISOString] throws on it. *)
#[warnings="-register-all"]
Inductive jsval : Type :=
| JUndefined
| JNum (z : Z)
| JStr (s : string)
| JDate (iso : option string)
| JArr (l : list jsval).

Abbreviation binds := (gmap string jsval).

Definition nonempty (t : text) : bool :=
  match t with [] => false | _ => true end.

(** The decimal text of an array index. *)
Definition index_text (i : nat) : text :=
  txt (NilZero.string_of_uint (Nat.to_uint i)).

(** [(i || '')]: nothing for index 0, the decimal index otherwise. *)
Definition index_suffix (i : nat) : text :=
  if (i =? 0)%nat then [] else index_text i.

(** ** The four patterns of [DBS.frag] (index.js, lines 564-577) *)

Definition CR : ascii := ascii_of_nat 13.
Definition LF : ascii := ascii_of_nat 10.

(** [(?:\r?\n|\n)*] *)
Definition linebreaks : regex :=
  star (RAlt (RSeq (opt (chr CR)) (chr LF)) (chr LF)).

(** [-{0,2}] *)
Definition dashes : regex := upto 2 (chr "-").

(** [[\S\s]*?] *)
Definition lazy_any : regex := lazy_star (RChar (CUnion CNotSpace CSpace)).

(** The pattern /(:)([a-z]+[0-9]*?)/gi *)
Definition sqlArrayRx : regex :=
  RSeq (RGroup 1 (chr ":"))
       (RGroup 2 (RSeq (plus (RChar (CRange "a" "z")))
                       (lazy_star (RChar (CRange "0" "9"))))).

(** The pattern (with a blank after two of its stars): /((?:\r?\n|\n)* )-{0,2}\[\[\!(?!\[\[\!)\s*(\w+)\s*\]\](?:\r?\n|\n)*([\S\s]*?)-{0,2}\[\[\!\]\]((?:\r?\n|\n)* )/g *)
Definition sqlDiaRx : regex :=
  (RGroup 1 linebreaks >> dashes >> lit "[[!" >> RNegLook (lit "[[!") >>
   star (RChar CSpace) >> RGroup 2 (plus (RChar CWord)) >> star (RChar CSpace) >>
   lit "]]" >> linebreaks >> RGroup 3 lazy_any >> dashes >> lit "[[!]]" >>
   RGroup 4 linebreaks)%re.

(** [(=|<=?|>=?|<>)] *)
Definition comparator : regex :=
  RAlt (chr "=")
    (RAlt (RSeq (chr "<") (opt (chr "=")))
       (RAlt (RSeq (chr ">") (opt (chr "=")))
             (lit "<>"))).

(** The pattern (with a blank after two of its stars): /((?:\r?\n|\n)* )-{0,2}\[\[version(?!\[\[version)\s*(=|<=?|>=?|<>)\s*[+-]?(\d+\.?\d* )\s*\]\](?:\r?\n|\n)*([\S\s]*?)-{0,2}\[\[version\]\]((?:\r?\n|\n)* )/gi *)
Definition sqlVerRx : regex :=
  (RGroup 1 linebreaks >> dashes >> lit "[[version" >> RNegLook (lit "[[version") >>
   star (RChar CSpace) >> RGroup 2 comparator >> star (RChar CSpace) >>
   opt (RChar (CUnion (CChar "+") (CChar "-"))) >>
   RGroup 3 (plus (RChar CDigit) >> opt (chr ".") >> star (RChar CDigit)) >>
   star (RChar CSpace) >> lit "]]" >> linebreaks >> RGroup 4 lazy_any >> dashes >>
   lit "[[version]]" >> RGroup 5 linebreaks)%re.

(** The pattern (with a blank after two of its stars): /((?:\r?\n|\n)* )-{0,2}\[\[\?(?!\[\[\?)\s*(\w+)\s*\]\](?:\r?\n|\n)*([\S\s]*?)-{0,2}\[\[\?\]\]((?:\r?\n|\n)* )/g *)
Definition sqlFragRx : regex :=
  (RGroup 1 linebreaks >> dashes >> lit "[[?" >> RNegLook (lit "[[?") >>
   star (RChar CSpace) >> RGroup 2 (plus (RChar CWord)) >> star (RChar CSpace) >>
   lit "]]" >> linebreaks >> RGroup 3 lazy_any >> dashes >> lit "[[?]]" >>
   RGroup 4 linebreaks)%re.

(** ** Numbers of the version guard *)

(** A version and the literal of a guard are decimal numbers; the model keeps
    the exact rational a decimal text denotes. *)
Fixpoint span_digits (t : text) : text * text :=
  match t with
  | a :: t' => if is_digit a then let '(d, r) := span_digits t' in (a :: d, r) else ([], t)
  | [] => ([], [])
  end.

Definition digits_value (t : text) : Z :=
  fold_left (fun acc a => (10 * acc + Z.of_nat (code a - 48))%Z) t 0%Z.

(** [parseFloat] on digits with an optional fraction, the only texts the
    version pattern hands to it; [None] is [NaN].  The value is the decimal
    itself; JavaScript rounds it to the nearest double, which is the same
    number for a whole number up to 2^53. *)
Definition parseFloat (t : text) : option Q :=
  let '(ip, rest) := span_digits t in
  let fp := match rest with
            | a :: rest' => if ascii_eqb a "." then fst (span_digits rest') else []
            | [] => []
            end in
  if nonempty ip || nonempty fp
  then Some (Qmake (digits_value (ip ++ fp)) (Z.to_pos (10 ^ Z.of_nat (length fp))))
  else None.

(** The table [COMPARE] (lines 10-17); the comparator group of the version
    pattern only yields its six keys. *)
Definition COMPARE (key : text) : option (Q -> Q -> bool) :=
  if bool_decide (key = txt "=") then Some (fun x y => Qeq_bool x y)
  else if bool_decide (key = txt "<") then Some (fun x y => negb (Qle_bool y x))
  else if bool_decide (key = txt ">") then Some (fun x y => negb (Qle_bool x y))
  else if bool_decide (key = txt "<=") then Some (fun x y => Qle_bool x y)
  else if bool_decide (key = txt ">=") then Some (fun x y => Qle_bool y x)
  else if bool_decide (key = txt "<>") then Some (fun x y => negb (Qeq_bool x y))
  else None.

(** ** [DBS] and [DBS.frag] *)

(** What [frag] reads of a [DBS]: [dbs.at.dialect] (in lower case) and
    [dbs.at.version]. *)
Record FragEnv : Type := {
  env_dialect : text;
  env_version : Q
}.

Fixpoint sqlArrayRpl_loop (pkey key : text) (vals : list jsval) (i : nat)
    (keys : text) (rplmts : binds) : text * binds :=
  match vals with
  | [] => (keys, rplmts)
  | v :: vals' =>
      let keys' := keys ++ (if nonempty keys then txt ", " else []) ++
                   pkey ++ key ++ index_suffix i in
      sqlArrayRpl_loop pkey key vals' (S i) keys'
        (<[str (key ++ index_suffix i) := v]> rplmts)
  end.

(** The callback of the array pass (lines 564-570).  [vals] is read once,
    before the loop overwrites [rplmts[key]] with the first element. *)
Definition sqlArrayRpl (mtch : text) (c : caps) (rplmts : binds) : text * binds :=
  let pkey := cap 1 c in
  let key := cap 2 c in
  match (if nonempty key then rplmts !! str key else None) with
  | Some (JArr vals) =>
      let '(keys, rplmts') := sqlArrayRpl_loop pkey key vals 0 [] rplmts in
      (if nonempty keys then keys else pkey ++ key, rplmts')
  | _ => (pkey ++ key, rplmts)
  end.

(** [((lb1 || lb2) && ' ') || ''] *)
Definition collapse (lb1 lb2 : text) : text :=
  if nonempty lb1 || nonempty lb2 then txt " " else [].

Definition sqlDiaRpl (env : FragEnv) (mtch : text) (c : caps) : text :=
  let lb1 := cap 1 c in
  let key := cap 2 c in
  let fsql := cap 3 c in
  let lb2 := cap 4 c in
  if nonempty key && bool_decide (toLowerCase key = env_dialect env) && nonempty fsql
  then lb1 ++ fsql
  else collapse lb1 lb2.

Definition sqlVerRpl (env : FragEnv) (mtch : text) (c : caps) : text :=
  let lb1 := cap 1 c in
  let key := cap 2 c in
  let ver := cap 3 c in
  let fsql := cap 4 c in
  let lb2 := cap 5 c in
  let holds :=
    match parseFloat ver, COMPARE key with
    | Some v, Some cmp => cmp (env_version env) v
    | _, _ => false
    end in
  if nonempty key && nonempty ver && holds && nonempty fsql
  then lb1 ++ fsql
  else collapse lb1 lb2.

Definition key_in (key : text) (keys : option (list string)) : bool :=
  match keys with
  | Some ks => bool_decide (str key ∈ ks)
  | None => false
  end.

Definition sqlFragRpl (keys : option (list string)) (mtch : text) (c : caps) : text :=
  let lb1 := cap 1 c in
  let key := cap 2 c in
  let fsql := cap 3 c in
  let lb2 := cap 4 c in
  if nonempty key && key_in key keys && nonempty fsql
  then lb1 ++ fsql
  else collapse lb1 lb2.

(** [DBS.frag(sql, keys, rplmts)] (lines 561-580): the resolved text and the
    bind set as the array pass left it.  [keys] is the optional list of retained fragment
    keys; [rplmts] is the bind object of the call. *)
Definition frag (env : FragEnv) (sql : text) (keys : option (list string))
    (rplmts : binds) : text * binds :=
  if nonempty sql then
    let '(sql1, rplmts1) := replace true sqlArrayRx sqlArrayRpl sql rplmts in
    let sql2 := replace_pure false sqlDiaRx (sqlDiaRpl env) sql1 in
    let sql3 := replace_pure true sqlVerRx (sqlVerRpl env) sql2 in
    (replace_pure false sqlFragRx (sqlFragRpl keys) sql3, rplmts1)
  else (sql, rplmts).

(** ** Errors, promises and scopes *)

Inductive jserror : Type :=
| ReferenceError (msg : string)   (* an identifier that no scope binds *)
| TypeError (msg : string)        (* a property read on [undefined] *)
| RangeError (msg : string)       (* [toISOString] on an invalid [Date] *)
| Error (msg : string)            (* [new Error(msg)] of the module *)
| Thrown (what : string).         (* raised by a collaborator: driver, disk *)

(** How an [async] function ends. *)
Inductive outcome (A : Type) : Type :=
| Resolved (a : A)
| Rejected (e : jserror).
Arguments Resolved {A} a.
Arguments Rejected {A} e.

(** An identifier that neither the function it stands in, nor an enclosing
    function, nor the module binds is looked up in the global object.  The
    module runs in Node and in strict mode: of the names it leaves free,
    Node's global object holds none, and reading one raises
    [ReferenceError]. *)
Definition node_globals : list (string * jsval) := [].

Fixpoint assoc {A : Type} (k : string) (l : list (string * A)) : option A :=
  match l with
  | [] => None
  | (k', v) :: l' => if bool_decide (k' = k) then Some v else assoc k l'
  end.

Definition free_identifier (id : string) : outcome jsval :=
  match assoc id node_globals with
  | Some v => Resolved v
  | None => Rejected (ReferenceError (id +:+ " is not defined"))
  end.

(** A value used as a property name, and the items of [v.join(',')]. *)
Definition property_key (v : jsval) : string :=
  match v with
  | JStr k => k
  | JNum z => NilZero.string_of_int (Z.to_int z)
  | _ => "undefined"
  end.

Definition items (v : jsval) : list string :=
  match v with
  | JArr l => map property_key l
  | _ => []
  end.

Definition CRUD_TYPES : list string := ["CREATE"; "READ"; "UPDATE"; "DELETE"].

Definition join (sep : string) (l : list string) : string :=
  match l with
  | [] => ""
  | x :: l' => fold_left (fun acc y => acc +:+ sep +:+ y) l' x
  end.

Definition truthy_string (s : option string) : bool :=
  match s with Some (String _ _) => true | _ => false end.

(** ** The driver and [DBS.exec] *)

(** What a statement function returns: the driver's result, or an error
    handed back as a value. *)
Inductive retval : Type :=
| Value (v : jsval)
| ErrorValue (e : jserror).

(** The options object [DBS.exec] receives; a property that is not set reads
    as [undefined], which is [None] for [type] and [false] for the flag. *)
Record ExecOpts : Type := {
  eo_type : option string;
  eo_binds : binds;
  eo_returnErrors : bool
}.

(** What reaches [dbx.exec]: the resolved text, the options (with the bind
    set as [frag] left it and [tx.pending]) and the fragment keys. *)
Record Request : Type := {
  rq_sql : text;
  rq_type : option string;
  rq_binds : binds;
  rq_returnErrors : bool;
  rq_pending : nat;
  rq_frags : option (list string)
}.

(** The driver of a connection, an external collaborator: each operation
    resolves with a value or throws. *)
Record Dialect : Type := {
  dbx_init : nat -> outcome jsval;
  dbx_exec : Request -> outcome jsval;
  dbx_commit : nat -> outcome jsval;
  dbx_rollback : nat -> outcome jsval;
  dbx_close : nat -> outcome jsval
}.

(** What [SQLS] and [DBS] read of the configuration of a connection. *)
Record Conn : Type := {
  conn_name : string;
  conn_dialect : string;       (* [conn.sql.dialect] *)
  conn_version : option Q;
  conn_binds : option binds;
  conn_logging : bool          (* [conn.sql.logging] is set *)
}.

Record DBS : Type := {
  dbs_dbx : Dialect;
  dbs_env : FragEnv
}.

(** The constructor of [DBS] (lines 499-509): the dialect in lower case and
    [conn.version || 0]. *)
Definition new_DBS (dbx : Dialect) (conn : Conn) : DBS :=
  {| dbs_dbx := dbx;
     dbs_env := {| env_dialect := toLowerCase (txt (conn_dialect conn));
                   env_version := default 0%Q (conn_version conn) |} |}.

(** The state of a connection that statement calls change: the counter
    [dbs.at.pending], the cache, the files on disk, and the requests handed to
    the driver so far. *)
Record ConnState : Type := {
  cs_pending : nat;
  cs_cache : gmap string text;
  cs_disk : gmap string text;
  cs_submitted : list Request
}.

Definition is_READ (type : option string) : bool :=
  bool_decide (type = Some "READ").

(** [DBS.exec(fpth, sql, opts, frags)] (lines 529-551).  [generateDbsOpts]
    puts the counter into the options as [tx.pending]; the log lines have no
    effect on the result. *)
Definition DBS_exec (dbs : DBS) (fpth : string) (sql : text) (opts : ExecOpts)
    (frags : option (list string)) (st : ConnState) : outcome retval * ConnState :=
  let '(sqlf, rplmts) := frag (dbs_env dbs) sql frags (eo_binds opts) in
  let pending := (cs_pending st + (if is_READ (eo_type opts) then 0 else 1))%nat in
  let rq := {| rq_sql := sqlf; rq_type := eo_type opts; rq_binds := rplmts;
               rq_returnErrors := eo_returnErrors opts; rq_pending := pending;
               rq_frags := frags |} in
  let st' := {| cs_pending := pending; cs_cache := cs_cache st;
                cs_disk := cs_disk st;
                cs_submitted := cs_submitted st ++ [rq] |} in
  match dbx_exec (dbs_dbx dbs) rq with
  | Resolved rslt => (Resolved (Value rslt), st')
  | Rejected err =>
      if eo_returnErrors opts then (Resolved (ErrorValue err), st')
      else (Rejected err, st')
  end.

(** ** [SQLS]: the prepared statement functions *)

(** [Manager~ExecOptions], the options of a call. *)
Record CallOpts : Type := {
  o_type : option string;
  o_binds : option binds;
  o_numOfIterations : option nat;
  o_returnErrors : bool
}.

(** Where a statement function takes its text from: read once when it was
    prepared ([staticSql]), or looked up in the cache under [id] at each call
    and read from the file on a miss ([cachedSql]). *)
Inductive Source : Type :=
| StaticSql (sql : text)
| CachedSql (id : string).

(** A prepared statement function: the variables its closure holds.  The
    model covers statement files of plain text. *)
Record Handle : Type := {
  h_name : string;
  h_fpth : string;
  h_ext : string;
  h_crud : option string;
  h_source : Source
}.

Record SQLSEnv : Type := {
  sq_conn : Conn;
  sq_dbs : DBS;
  sq_cached : bool;               (* a cache was given to the manager *)
  sq_substitute : text -> text    (* the configured substitutions on a file's text *)
}.

Definition dq : string := String (ascii_of_nat 34) "".

Definition type_required_message (types : jsval) (tail : string) : string :=
  "statement execution must include " +:+ dq +:+ "opts.type" +:+ dq +:+
  " set to one of " +:+ join "," (items types) +:+ tail.

(** [readSqlFile()] (lines 413-418) on a plain text file. *)
Definition readSqlFile (sqls : SQLSEnv) (fpth : string) (disk : gmap string text) : outcome text :=
  match disk !! fpth with
  | None => Rejected (Thrown "readFile")
  | Some data => Resolved (if nonempty data then sq_substitute sqls data else data)
  end.

(** [genExecSqlFromFileFunction(fpth, type, binds, frags)] (lines 443-448):
    the options it builds are [{ type, binds }]. *)
Definition genExecSqlFromFileFunction (sqls : SQLSEnv) (fpth : string)
    (type : option string) (bnds : binds) (frags : option (list string))
    (sql : text) (st : ConnState) : outcome retval * ConnState :=
  let opts := {| eo_type := type; eo_binds := bnds; eo_returnErrors := false |} in
  DBS_exec (sq_dbs sqls) fpth sql opts frags st.

(** [sqls.at.stms.methods[name][ext]]: [staticSql] or [cachedSql] (lines
    389-407). *)
Definition stmt_method (sqls : SQLSEnv) (h : Handle)
    (execFn : text -> ConnState -> outcome retval * ConnState)
    (st : ConnState) : outcome retval * ConnState :=
  match h_source h with
  | StaticSql sql => execFn sql st
  | CachedSql id =>
      match cs_cache st !! id with
      | Some (a :: item) => execFn (a :: item) st
      | _ =>
          match readSqlFile sqls (h_fpth h) (cs_disk st) with
          | Rejected e => (Rejected e, st)
          | Resolved sql =>
              execFn sql {| cs_pending := cs_pending st;
                            cs_cache := <[id := sql]> (cs_cache st);
                            cs_disk := cs_disk st;
                            cs_submitted := cs_submitted st |}
          end
      end
  end.

(** [(v instanceof Date && v.toISOString()) || v] on a value whose
    [toISOString], if it has one, returns. *)
Definition date_to_iso (v : jsval) : jsval :=
  match v with
  | JDate (Some iso) => JStr iso
  | _ => v
  end.

(** [v instanceof Date] and [v.toISOString()] throws. *)
Definition invalid_date (v : jsval) : bool :=
  match v with
  | JDate None => true
  | _ => false
  end.

(** One of the binds of the call is an invalid [Date]. *)
Definition has_invalid_date (ob : option binds) : bool :=
  match ob with
  | Some ob => existsb (fun kv => invalid_date (snd kv)) (map_to_list ob)
  | None => false
  end.

(** The first loop of [execSqlPublic]: the connection's binds that the call
    does not override. *)
Definition static_binds (cb : option binds) (ob : option binds) : binds :=
  match cb with
  | Some cb =>
      map_fold (fun i v (acc : binds) =>
                  match ob with
                  | Some ob => if bool_decide (is_Some (ob !! i)) then acc else <[i := v]> acc
                  | None => <[i := v]> acc
                  end) ∅ cb
  | None => ∅
  end.

(** The second loop (lines 434-438), when no [toISOString] throws: the
    binds of the call, dates as ISO text. *)
Definition call_binds (ob : option binds) (acc : binds) : binds :=
  match ob with
  | Some ob => map_fold (fun i v (acc : binds) => <[i := date_to_iso v]> acc) acc ob
  | None => acc
  end.

(** [execSqlPublic(opts, frags)] (lines 424-440), the function
    [SQLS.prepared] returns.  The message of its first error reads
    [OPERATION_TYPES], which is a static getter of [Manager] and no variable of
    any scope around the function.  The loop over the binds of the call stops
    with the [RangeError] of [toISOString] at an invalid [Date]; until then
    it has written to the local bind set only. *)
Definition execSqlPublic (sqls : SQLSEnv) (h : Handle) (opts : option CallOpts)
    (frags : option (list string)) (st : ConnState) : outcome retval * ConnState :=
  if negb (truthy_string (h_crud h)) &&
     match opts with
     | None => true
     | Some o => negb (truthy_string (o_type o))
     end
  then
    match free_identifier "OPERATION_TYPES" with
    | Rejected e => (Rejected e, st)
    | Resolved types =>
        (Rejected (Error (type_required_message types
           " since the SQL file path was not prefixed with the type")), st)
    end
  else if has_invalid_date (match opts with Some o => o_binds o | None => None end)
  then (Rejected (RangeError "Invalid time value"), st)
  else
    let bnds := static_binds (conn_binds (sq_conn sqls))
                  (match opts with Some o => o_binds o | None => None end) in
    let bnds := call_binds (match opts with Some o => o_binds o | None => None end) bnds in
    match opts with
    | None => (Rejected (TypeError "Cannot read properties of undefined (reading 'type')"), st)
    | Some o =>
        let type := if truthy_string (o_type o) then o_type o else h_crud h in
        stmt_method sqls h (genExecSqlFromFileFunction sqls (h_fpth h) type bnds frags) st
    end.

(** ** [SQLS.init]: the walk over a connection's directory *)

(** The directory of a connection as [readdir] and [stat] show it; a file
    carries its text, or nothing when it cannot be read. *)
#[warnings="-register-all"]
Inductive entry : Type :=
| File (name : string) (data : option text)
| Dir (name : string) (entries : list entry).

(** The objects under [manager.db.<connection>]: plain objects, and
    statement functions, which are objects too and can hold properties. *)
#[warnings="-register-all"]
Inductive ns_node : Type :=
| Container (props : list (string * ns_node))
| Leaf (h : Handle) (props : list (string * ns_node)).

Definition props_of (n : ns_node) : list (string * ns_node) :=
  match n with Container ps => ps | Leaf _ ps => ps end.

Definition with_props (n : ns_node) (ps : list (string * ns_node)) : ns_node :=
  match n with Container _ => Container ps | Leaf h _ => Leaf h ps end.

Fixpoint assoc_set {A : Type} (k : string) (v : A) (l : list (string * A)) : list (string * A) :=
  match l with
  | [] => [(k, v)]
  | (k', v') :: l' =>
      if bool_decide (k' = k) then (k, v) :: l' else (k', v') :: assoc_set k v l'
  end.

Definition get_prop (n : ns_node) (k : string) : option ns_node := assoc k (props_of n).
Definition set_prop (n : ns_node) (k : string) (v : ns_node) : ns_node :=
  with_props n (assoc_set k v (props_of n)).

Definition is_alnum (a : ascii) : bool := is_letter a || is_digit a.

(** [replace(/[^0-9a-zA-Z]/g, '_')] and [replace(/[^0-9a-zA-Z\.]/g, '_')] *)
Definition sanitize_dir (t : text) : text :=
  map (fun a => if is_alnum a then a else "_"%char) t.
Definition sanitize_file (t : text) : text :=
  map (fun a => if is_alnum a || ascii_eqb a "." then a else "_"%char) t.

(** [split('.')] *)
Fixpoint split_dot (t : text) : list text :=
  match t with
  | [] => [[]]
  | a :: t' =>
      if ascii_eqb a "." then [] :: split_dot t'
      else match split_dot t' with
           | x :: r => (a :: x) :: r
           | [] => [[a]]
           end
  end.

(** [ext = ns.length > 1 ? ns.pop() : ''] *)
Definition pop_ext (ns : list text) : list text * text :=
  match ns with
  | _ :: _ :: _ => (removelast ns, List.last ns [])
  | _ => (ns, [])
  end.

Fixpoint before_dot (t : text) : text :=
  match t with
  | [] => []
  | a :: t' => if ascii_eqb a "." then [] else a :: before_dot t'
  end.

(** [Path.parse(fpth).name.match(/[^\.]*/)[0].toUpperCase()], kept when it is
    one of [CRUD_TYPES]: the text before the first dot of the file's name. *)
Definition crud_of (file : string) : option string :=
  let crud := str (toUpperCase (before_dot (txt file))) in
  if bool_decide (crud ∈ CRUD_TYPES) then Some crud else None.

(** The walk threads the counter [numOfPreparedStmts] and may fail. *)
Definition Walk (A : Type) : Type := nat -> outcome A * nat.

Definition ret {A : Type} (a : A) : Walk A := fun n => (Resolved a, n).
Definition throw {A : Type} (e : jserror) : Walk A := fun n => (Rejected e, n).
Definition bind {A B : Type} (x : Walk A) (f : A -> Walk B) : Walk B :=
  fun n => match x n with
           | (Resolved a, n') => f a n'
           | (Rejected e, n') => (Rejected e, n')
           end.
Definition lift {A : Type} (x : outcome A) : Walk A := fun n => (x, n).
Definition count_stmt : Walk unit := fun n => (Resolved tt, S n).

Notation "'let*' x ':=' a 'in' b" := (bind a (fun x => b))
  (at level 10, x name, a at level 100, b at level 200).

(** [SQLS.prepared(name, fpth, ext)] (lines 377-408) for the file [file] of
    path [fpth].
    With logging on, the second log line of a file without a CRUD prefix
    reads [OPERATION_TYPES]. *)
Definition SQLS_prepared (sqls : SQLSEnv) (name fpth ext file : string)
    (data : option text) : Walk Handle :=
  let crud := crud_of file in
  let* _ := (if conn_logging (sq_conn sqls) && negb (truthy_string crud)
             then lift (free_identifier "OPERATION_TYPES") else ret JUndefined) in
  let* src := (if sq_cached sqls
               then ret (CachedSql ("sqler:db:" +:+ name +:+
                                    (if truthy_string (Some ext) then ":" +:+ ext else "")))
               else match data with
                    | None => throw (Thrown "readFile")
                    | Some d => ret (StaticSql (if nonempty d then sq_substitute sqls d else d))
                    end) in
  let* _ := count_stmt in
  ret {| h_name := name; h_fpth := fpth; h_ext := ext; h_crud := crud; h_source := src |}.

(** The loop over the name segments of a file: [so[ns[ni]] = so[ns[ni]] ||
    (ni < nl - 1 ? {} : await prepared(...))], then [so = so[ns[ni]]].  A
    property that is already set is kept, and then no statement is prepared. *)
Fixpoint place (ns : list string) (so : ns_node) (leaf : Walk Handle) : Walk ns_node :=
  match ns with
  | [] => ret so
  | [k] =>
      match get_prop so k with
      | Some _ => ret so
      | None => let* h := leaf in ret (set_prop so k (Leaf h []))
      end
  | k :: ns' =>
      let child := default (Container []) (get_prop so k) in
      let* child' := place ns' child leaf in
      ret (set_prop so k child')
  end.

Definition prefix_name (pnm : string) : string :=
  if truthy_string (Some pnm) then pnm +:+ "_" else "".

(** One entry of the loop of [prepare(cont, pnm, pdir)] (lines 337-365).  A sub-directory
    gets a fresh object at [cont[nm]] and a walk of its own, which the source
    starts as a promise and joins at the end; every walk fills its own object
    and adds to the same counter, and the model runs it where it starts. *)
Fixpoint prepare_entry (sqls : SQLSEnv) (e : entry) (cont : ns_node)
    (pnm pdir : string) {struct e} : Walk ns_node :=
  match e with
  | Dir name entries =>
      let nm := str (sanitize_dir (txt name)) in
      let pth := pdir +:+ "/" +:+ name in
      let pnm' := prefix_name pnm +:+ nm in
      let* sub := (fix loop (es : list entry) (c : ns_node) : Walk ns_node :=
                     match es with
                     | [] => ret c
                     | e' :: es' =>
                         let* c' := prepare_entry sqls e' c pnm' pth in loop es' c'
                     end) entries (Container []) in
      ret (set_prop cont nm sub)
  | File name data =>
      let pth := pdir +:+ "/" +:+ name in
      let '(ns, ext) := pop_ext (split_dot (sanitize_file (txt name))) in
      let nm := conn_dialect (sq_conn sqls) +:+ "_" +:+ conn_name (sq_conn sqls) +:+ "_" +:+
                prefix_name pnm +:+ join "_" (map str ns) in
      place (map str ns) cont (SQLS_prepared sqls nm pth (str ext) name data)
  end.

Fixpoint prepare (sqls : SQLSEnv) (es : list entry) (cont : ns_node)
    (pnm pdir : string) : Walk ns_node :=
  match es with
  | [] => ret cont
  | e :: es' => let* c := prepare_entry sqls e cont pnm pdir in prepare sqls es' c pnm pdir
  end.

(** A [SQLS] instance: what its constructor stores, the directory it will
    walk ([None] when it cannot be listed), and what [init] and the statement
    calls change. *)
Record SQLS : Type := {
  sqls_env : SQLSEnv;
  sqls_basePath : string;
  sqls_files : option (list entry);
  sqls_numOfPreparedStmts : option nat;
  sqls_db : ns_node;
  sqls_state : ConnState
}.

Definition connectionName (s : SQLS) : string := conn_name (sq_conn (sqls_env s)).

Definition SQLS_update (s : SQLS) (n : nat) (db : ns_node) : SQLS :=
  {| sqls_env := sqls_env s; sqls_basePath := sqls_basePath s;
     sqls_files := sqls_files s; sqls_numOfPreparedStmts := Some n;
     sqls_db := db; sqls_state := sqls_state s |}.

(** [SQLS.init()] (lines 334-368): the walk, then
    [dbs.init({ numOfPreparedStmts })], whose value is what the driver's [init]
    returns. *)
Definition SQLS_init (s : SQLS) : outcome jsval * SQLS :=
  match sqls_files s with
  | None => (Rejected (Thrown "readdir"), SQLS_update s 0 (sqls_db s))
  | Some files =>
      match prepare (sqls_env s) files (sqls_db s) "" (sqls_basePath s) 0 with
      | (Rejected e, n) => (Rejected e, SQLS_update s n (sqls_db s))
      | (Resolved db, n) =>
          (dbx_init (dbs_dbx (sq_dbs (sqls_env s))) n, SQLS_update s n db)
      end
  end.

(** [commit], [rollback] and [close] hand [{ tx: { pending } }] to the driver. *)
Definition SQLS_commit (s : SQLS) : outcome jsval * SQLS :=
  (dbx_commit (dbs_dbx (sq_dbs (sqls_env s))) (cs_pending (sqls_state s)), s).
Definition SQLS_rollback (s : SQLS) : outcome jsval * SQLS :=
  (dbx_rollback (dbs_dbx (sq_dbs (sqls_env s))) (cs_pending (sqls_state s)), s).
Definition SQLS_close (s : SQLS) : outcome jsval * SQLS :=
  (dbx_close (dbs_dbx (sq_dbs (sqls_env s))) (cs_pending (sqls_state s)), s).

(** ** [Manager] and [operation] *)

Inductive funcName : Type := f_init | f_commit | f_rollback | f_close.

Definition SQLS_call (fn : funcName) (s : SQLS) : outcome jsval * SQLS :=
  match fn with
  | f_init => SQLS_init s
  | f_commit => SQLS_commit s
  | f_rollback => SQLS_rollback s
  | f_close => SQLS_close s
  end.

(** [mgr.at.sqls] and [mgr.at.sqlsCount], which is not set before [init]. *)
Record Manager : Type := {
  mgr_sqls : list SQLS;
  mgr_sqlsCount : option nat
}.

(** The options of a lifecycle call: [opts.connections] maps a connection
    name to an object, which has [executeInSeries] or not, and
    [opts.executeInSeries] is the default of the batch. *)
Record OpOpts : Type := {
  oo_connections : option (gmap string (option bool));
  oo_executeInSeries : bool
}.

Inductive lane : Type := Series | Parallel.

(** A queued task: its lane, the name its result is stored under, and the
    index in [mgr.at.sqls] of the instance its function calls. *)
Record Task : Type := {
  t_lane : lane;
  t_name : string;
  t_sqli : nat
}.

(** [queue(sqli)] inside [operation] (lines 279-289).  [hasOverride] reads
    [opts.connections[name]], and [name] is no parameter or variable of
    [queue], of [operation] or of the module; the [&&] chain reaches it as soon
    as [opts.connections] is set. *)
Definition queue (opts : OpOpts) (i : nat) (sqli : SQLS) (ax : list Task) : outcome (list Task) :=
  let enqueue (series : bool) :=
    Resolved (ax ++ [{| t_lane := if series then Series else Parallel;
                        t_name := connectionName sqli; t_sqli := i |}]) in
  match oo_connections opts with
  | None => enqueue (oo_executeInSeries opts)
  | Some conns =>
      match free_identifier "name" with
      | Rejected e => Rejected e
      | Resolved name =>
          match conns !! property_key name with
          | Some (Some series) => enqueue series
          | _ => enqueue (oo_executeInSeries opts)
          end
      end
  end.

Definition nonempty_list (l : list string) : bool :=
  match l with [] => false | _ => true end.

(** The loop of [operation] over [mgr.at.sqls]; [connNames], when it is not
    empty, selects the connections. *)
Fixpoint queue_all (opts : OpOpts) (connNames : list string) (i : nat)
    (sqls : list SQLS) (ax : list Task) : outcome (list Task) :=
  match sqls with
  | [] => Resolved ax
  | sqli :: rest =>
      if nonempty_list connNames && negb (bool_decide (connectionName sqli ∈ connNames))
      then queue_all opts connNames (S i) rest ax
      else match queue opts i sqli ax with
           | Rejected e => Rejected e
           | Resolved ax' => queue_all opts connNames (S i) rest ax'
           end
  end.

(** Modelled from the spec: the scheduler [Asynchro] is an external package
    that is not part of the sources.  Its [run] performs the queued tasks and
    gives a map from each task's name to its result; a failing task fails the
    batch.  The tasks of a batch belong to different connections and share no
    state, so the model performs them in the order they were queued, which is
    one of the schedules the two lanes allow. *)
Fixpoint ax_run (fn : funcName) (q : list Task) (sqls : list SQLS)
    (rslt : gmap string jsval) : outcome (gmap string jsval) * list SQLS :=
  match q with
  | [] => (Resolved rslt, sqls)
  | t :: q' =>
      match sqls !! t_sqli t with
      | None => ax_run fn q' sqls rslt
      | Some sqli =>
          match SQLS_call fn sqli with
          | (Rejected e, sqli') => (Rejected e, <[t_sqli t := sqli']> sqls)
          | (Resolved v, sqli') =>
              ax_run fn q' (<[t_sqli t := sqli']> sqls) (<[t_name t := v]> rslt)
          end
      end
  end.

Definition no_opts : OpOpts :=
  {| oo_connections := None; oo_executeInSeries := false |}.

Definition with_sqls (mgr : Manager) (sqls : list SQLS) : Manager :=
  {| mgr_sqls := sqls; mgr_sqlsCount := mgr_sqlsCount mgr |}.

(** [operation(mgr, funcName, opts, connNames)] (lines 275-297) *)
Definition operation (mgr : Manager) (fn : funcName) (opts : option OpOpts)
    (connNames : list string) : outcome (gmap string jsval) * Manager :=
  let opts := default no_opts opts in
  match queue_all opts connNames 0 (mgr_sqls mgr) [] with
  | Rejected e => (Rejected e, mgr)
  | Resolved ax =>
      let '(r, sqls) := ax_run fn ax (mgr_sqls mgr) ∅ in
      (r, with_sqls mgr sqls)
  end.

Definition truthy_count (n : option nat) : bool :=
  match n with Some (S _) => true | _ => false end.

(** [Manager.init()] (lines 211-218): it refuses a second call once a count
    is stored, runs the batch, stores the number of properties of the batch's
    result and returns that number. *)
Definition Manager_init (mgr : Manager) : outcome nat * Manager :=
  if truthy_count (mgr_sqlsCount mgr)
  then (Rejected (Error (str (index_text (default 0%nat (mgr_sqlsCount mgr))) +:+
                         " database(s) already initialized")), mgr)
  else
    match operation mgr f_init None [] with
    | (Rejected e, mgr') => (Rejected e, mgr')
    | (Resolved rslt, mgr') =>
        let n := size rslt in
        (Resolved n, {| mgr_sqls := mgr_sqls mgr'; mgr_sqlsCount := Some n |})
    end.

Definition Manager_commit (mgr : Manager) (opts : option OpOpts) (connNames : list string) :=
  operation mgr f_commit opts connNames.
Definition Manager_rollback (mgr : Manager) (opts : option OpOpts) (connNames : list string) :=
  operation mgr f_rollback opts connNames.
Definition Manager_close (mgr : Manager) := operation mgr f_close None [].

(** The leaf counts that the connections hold after [init]. *)
Definition leaf_counts (mgr : Manager) : list nat :=
  map (fun s => default 0%nat (sqls_numOfPreparedStmts s)) (mgr_sqls mgr).

(** ** The constructor of [Manager] (lines 162-204) *)

(** The properties that every plain object inherits from [Object.prototype].
    A read [o[k]] finds them when [o] has no property [k] of its own, and each
    of them is an object or a function, so the read is truthy. *)
Definition Object_prototype : list string :=
  ["constructor"; "__defineGetter__"; "__defineSetter__"; "hasOwnProperty";
   "__lookupGetter__"; "__lookupSetter__"; "isPrototypeOf"; "propertyIsEnumerable";
   "toString"; "valueOf"; "__proto__"; "toLocaleString"].

(** An entry of [conf.univ.db]: the host and the credentials of a
    connection. *)
Record UnivDef : Type := {
  def_host : option string;
  def_username : option string;
  def_password : option string
}.

(** [conn.sql.log] as configured: [false], not set, or a list of tags. *)
Inductive SqlLog : Type :=
| LogOff
| LogUnset
| LogTags (tags : list string).

(** An entry of [conf.db.connections], as far as the constructors of
    [Manager], [SQLS] and [DBS] read it.  [cc_substitute] is what the
    substitutions of [conn.preparedSql] do to the text of a file, and
    [cc_logging] is [conn.sql.logging] as configured. *)
Record ConnConf : Type := {
  cc_id : option string;
  cc_name : option string;
  cc_dir : option string;
  cc_version : option Q;
  cc_service : option string;
  cc_sid : option string;
  cc_binds : option binds;
  cc_substitute : text -> text;
  cc_host : option string;          (* [conn.sql.host] *)
  cc_dialect : string;              (* [conn.sql.dialect] *)
  cc_log : SqlLog;                  (* [conn.sql.log] *)
  cc_logging : bool
}.

(** What the constructor of a driver is given. *)
Record DialectArgs : Type := {
  da_username : option string;
  da_password : option string;
  da_host : option string;
  da_dialect : string;
  da_service : option string;
  da_sid : option string;
  da_privatePath : string;
  da_logging : bool
}.

(** A property of [conf.db.dialects]: the class of a driver, whose
    constructor may throw, or the path of the module that exports it. *)
Inductive DialectDef : Type :=
| DClass (cls : DialectArgs -> outcome Dialect)
| DModule (path : string).

(** The configuration.  [conf.db] and [conf.univ.db] are objects;
    [conf_dialects] holds the own properties of [conf.db.dialects], when it is
    set. *)
Record Conf : Type := {
  conf_mainPath : option string;
  conf_privatePath : option string;
  conf_univ_db : gmap string UnivDef;
  conf_dialects : option (gmap string DialectDef);
  conf_connections : list ConnConf
}.

(** What the constructor takes from Node: the working directory, the
    directory of the main module, [require] on the module of a driver,
    [Path.join], and the disk (the tree under a directory and the text of the
    files). *)
Record Node : Type := {
  node_cwd : string;
  node_main : option string;
  node_require : string -> outcome (DialectArgs -> outcome Dialect);
  node_join : string -> string -> string;
  node_readdir : string -> option (list entry);
  node_disk : gmap string text
}.

(** [a || b] on strings that may be undefined. *)
Definition or_else (a b : option string) : option string :=
  if truthy_string a then a else b.

(** A value in a template literal. *)
Definition shown (a : option string) : string := default "undefined" a.

(** [conf.univ.db[conn.id]]: an own property, or an inherited one, which has
    no host and no credentials. *)
Definition univ_def (univ : gmap string UnivDef) (id : string) : option UnivDef :=
  match univ !! id with
  | Some def => Some def
  | None =>
      if bool_decide (id ∈ Object_prototype)
      then Some {| def_host := None; def_username := None; def_password := None |}
      else None
  end.

(** [/^[a-z@]/i.test(path)] *)
Definition module_name (path : string) : bool :=
  match txt path with
  | a :: _ => is_letter a || ascii_eqb a "@"
  | [] => false
  end.

(** The value of [conn.sql.logging] after the constructor: a logger when
    logging is asked for and [conn.sql.log] is not [false].  The third
    argument of the constructor is [true] or left out; a logging function of
    the caller is not modelled. *)
Definition logging_of (logging : bool) (conn : ConnConf) : bool :=
  match cc_log conn with
  | LogOff => cc_logging conn
  | _ => logging
  end.

(** The state of the loop over the connections: [conf.db.dialects], in which
    the path of a module is replaced by what it exports, and the names set
    under [manager.db]. *)
Record Building : Type := {
  b_dialects : gmap string DialectDef;
  b_names : list string
}.

(** [manager.db[name]] is truthy: set by the loop, or inherited. *)
Definition name_taken (b : Building) (name : string) : bool :=
  bool_decide (name ∈ b_names b) || bool_decide (name ∈ Object_prototype).

(** The constructor of [SQLS] (lines 322-335) behind [new DBS(dbx, conf,
    conn)]. *)
Definition new_SQLS (node : Node) (mainPath : string) (cache : option (gmap string text))
    (dbx : Dialect) (logging : bool) (id : string) (c : ConnConf) : outcome SQLS :=
  match cc_name c with
  | Some (String a nm) =>
      let name := String a nm in
      let conn := {| conn_name := name; conn_dialect := cc_dialect c;
                     conn_version := cc_version c; conn_binds := cc_binds c;
                     conn_logging := logging_of logging c |} in
      let basePath := node_join node mainPath (shown (or_else (cc_dir c) (Some name))) in
      Resolved {| sqls_env := {| sq_conn := conn; sq_dbs := new_DBS dbx conn;
                                 sq_cached := bool_decide (is_Some cache);
                                 sq_substitute := cc_substitute c |};
                  sqls_basePath := basePath;
                  sqls_files := node_readdir node basePath;
                  sqls_numOfPreparedStmts := None;
                  sqls_db := Container [];
                  sqls_state := {| cs_pending := 0; cs_cache := default ∅ cache;
                                   cs_disk := node_disk node; cs_submitted := [] |} |}
  | _ => Rejected (Error ("Connection " +:+ id +:+ " must have a name"))
  end.

(** One round of the loop of the constructor (lines 174-203), for the
    connection at index [i]. *)
Definition construct (node : Node) (conf : Conf) (cache : option (gmap string text))
    (logging : bool) (mainPath privatePath : string) (i : nat) (c : ConnConf)
    (b : Building) : outcome (SQLS * Building) :=
  match cc_id c with
  | Some (String a id') =>
      let id := String a id' in
      match univ_def (conf_univ_db conf) id with
      | None =>
          Rejected (Error ("Connection at index " +:+ str (index_text i) +:+
                           " has invalid " +:+ dq +:+ "id" +:+ dq +:+ ": " +:+ id))
      | Some def =>
          let host := or_else (cc_host c) (def_host def) in
          let dlct := str (toLowerCase (txt (cc_dialect c))) in
          match b_dialects b !! dlct with
          | None =>
              Rejected (Error ("Database configuration.db.dialects does not contain an " +:+
                               "implementation definition/module for " +:+ dlct +:+
                               " at connection index " +:+ str (index_text i) +:+
                               "/ID " +:+ id +:+ " for host " +:+ shown host))
          | Some d =>
              let loaded :=
                match d with
                | DClass cls => Resolved cls
                | DModule path =>
                    if module_name path then node_require node path
                    else node_require node (node_join node (node_cwd node) path)
                end in
              match loaded with
              | Rejected e => Rejected e
              | Resolved cls =>
                  let args := {| da_username := def_username def;
                                 da_password := def_password def;
                                 da_host := host; da_dialect := cc_dialect c;
                                 da_service := cc_service c; da_sid := cc_sid c;
                                 da_privatePath := privatePath;
                                 da_logging := logging_of logging c |} in
                  match cls args with
                  | Rejected e => Rejected e
                  | Resolved dbx =>
                      let name := shown (cc_name c) in
                      if name_taken b name
                      then Rejected (Error ("Database connection ID " +:+ id +:+
                                            " cannot have a duplicate name for " +:+ name))
                      else
                        match new_SQLS node mainPath cache dbx logging id c with
                        | Rejected e => Rejected e
                        | Resolved sqls =>
                            Resolved (sqls, {| b_dialects := <[dlct := DClass cls]> (b_dialects b);
                                               b_names := name :: b_names b |})
                        end
                  end
              end
          end
      end
  | _ =>
      Rejected (Error ("Connection at index " +:+ str (index_text i) +:+
                       " must have and " +:+ dq +:+ "id" +:+ dq))
  end.

Fixpoint construct_all (node : Node) (conf : Conf) (cache : option (gmap string text))
    (logging : bool) (mainPath privatePath : string) (i : nat) (cs : list ConnConf)
    (b : Building) : outcome (list SQLS) :=
  match cs with
  | [] => Resolved []
  | c :: cs' =>
      match construct node conf cache logging mainPath privatePath i c b with
      | Rejected e => Rejected e
      | Resolved (sqls, b') =>
          match construct_all node conf cache logging mainPath privatePath (S i) cs' b' with
          | Rejected e => Rejected e
          | Resolved rest => Resolved (sqls :: rest)
          end
      end
  end.

(** [new Manager(conf, cache, logging)] *)
Definition Manager_new (node : Node) (conf : option Conf) (cache : option (gmap string text))
    (logging : bool) : outcome Manager :=
  match conf with
  | None => Rejected (Error "Database configuration is required")
  | Some conf =>
      match conf_dialects conf with
      | None => Rejected (Error "Database configuration.dialects are required")
      | Some dialects =>
          let mainPath := shown (or_else (or_else (conf_mainPath conf) (node_main node))
                                         (Some (node_cwd node))) in
          let privatePath := shown (or_else (conf_privatePath conf) (Some (node_cwd node))) in
          match construct_all node conf cache logging mainPath privatePath 0
                  (conf_connections conf) {| b_dialects := dialects; b_names := [] |} with
          | Rejected e => Rejected e
          | Resolved sqls => Resolved {| mgr_sqls := sqls; mgr_sqlsCount := None |}
          end
      end
  end.

(** ** The vocabulary of the statements *)

(** Two continuations agree behind [(s, p)] when they give the same answer on
    every state a matcher started at [(s, p)] can reach. *)
Definition agree (s : text) (p : nat) (k k' : cont) : Prop :=
  forall s' p' c', p' + length s' = p + length s -> p <= p' -> k s' p' c' = k' s' p' c'.

Definition ext_matcher (mr : matcher) : Prop :=
  forall s p c k k', agree s p k k' -> mr s p c k = mr s p c k'.

(** The texts a pattern can consume, lookaheads and the upper bounds of
    quantifiers left aside: enough to tell where a pattern cannot match. *)
Inductive lang (icase : bool) : regex -> text -> Prop :=
| lang_char cl a : cmatch icase cl a = true -> lang icase (RChar cl) [a]
| lang_empty : lang icase REmpty []
| lang_seq r1 r2 x y :
    lang icase r1 x -> lang icase r2 y -> lang icase (RSeq r1 r2) (x ++ y)
| lang_alt_l r1 r2 x : lang icase r1 x -> lang icase (RAlt r1 r2) x
| lang_alt_r r1 r2 x : lang icase r2 x -> lang icase (RAlt r1 r2) x
| lang_rep_nil g mn mx r :
    mn = 0%nat \/ mx = Some 0%nat -> lang icase (RRep g mn mx r) []
| lang_rep_cons g mn mx r x y :
    lang icase r x -> lang icase (RRep g (Nat.pred mn) (pred_max mx) r) y ->
    lang icase (RRep g mn mx r) (x ++ y)
| lang_group n r x : lang icase r x -> lang icase (RGroup n r) x
| lang_neg r : lang icase (RNegLook r) [].

Definition sound_matcher (mr : matcher) (L : text -> Prop) : Prop :=
  forall s p c k res,
    mr s p c k = Some res ->
    exists x s' c', s = x ++ s' /\ L x /\ k s' (p + length x) c' = Some res.

Fixpoint take_while (f : ascii -> bool) (s : text) : text :=
  match s with
  | a :: s' => if f a then a :: take_while f s' else []
  | [] => []
  end.
Fixpoint drop_while (f : ascii -> bool) (s : text) : text :=
  match s with
  | a :: s' => if f a then drop_while f s' else s
  | [] => []
  end.

(** The text holds the two characters that open every guard marker. *)
Fixpoint has_marker (s : text) : bool :=
  match s with
  | a :: s' =>
      match s' with
      | b :: _ => (ascii_eqb a "[" && ascii_eqb b "[") || has_marker s'
      | [] => false
      end
  | [] => false
  end.

(** The bind token at the head of a text: a colon and the letters behind
    it.  The lazy digits of the pattern never take a digit. *)
Definition token_at (s : text) : option (text * text) :=
  match s with
  | a :: s1 =>
      if ascii_eqb a ":" && nonempty (take_while is_letter s1)
      then Some (take_while is_letter s1, drop_while is_letter s1)
      else None
  | [] => None
  end.

(** The keys of the bind tokens that the array pass finds in a text. *)
Definition collect_key (mtch : text) (c : caps) (acc : list string) : text * list string :=
  (mtch, acc ++ [str (cap 2 c)]).
Definition token_keys (sql : text) : list string :=
  snd (replace true sqlArrayRx collect_key sql []).

Definition is_array_bind (rplmts : binds) (k : string) : bool :=
  match rplmts !! k with
  | Some (JArr _) => true
  | _ => false
  end.

(** No bind token of the text names a bind that holds an array. *)
Definition array_free (sql : text) (rplmts : binds) : bool :=
  forallb (fun k => negb (is_array_bind rplmts k)) (token_keys sql).

Definition not_open (a : ascii) : bool := negb (ascii_eqb a "[").
Definition not_colon (a : ascii) : bool := negb (ascii_eqb a ":").

(** Plain text: no colon, so no bind token, and no bracket, so no marker. *)
Definition plain (s : text) : bool := forallb (fun a => not_colon a && not_open a) s.



Definition is_dash (a : ascii) : bool := ascii_eqb a "-".
Definition is_linebreak (a : ascii) : bool := ascii_eqb a CR || ascii_eqb a LF.

(** The text does not start with a line break. *)
Definition no_leading_break (s : text) : bool :=
  match s with
  | a :: _ => negb (is_linebreak a)
  | [] => true
  end.

(** The text does not end with a dash. *)
Definition no_trailing_dash (s : text) : bool :=
  match List.last s " "%char with
  | a => negb (is_dash a)
  end.

(** The text holds [[[] followed by the character [d]: the start of every
    marker of one kind of guard. *)
Fixpoint has_open (d : ascii) (s : text) : bool :=
  match s with
  | a :: s' =>
      (ascii_eqb a "[" &&
       match s' with
       | b :: e :: _ => ascii_eqb b "[" && ascii_eqb e d
       | _ => false
       end) || has_open d s'
  | [] => false
  end.



Definition env_of (dialect : string) (version : Q) : FragEnv :=
  {| env_dialect := txt dialect; env_version := version |}.


Module Example.
(** A driver whose [init] answers with the number of statements it was
    given, whose [exec] throws, and whose other operations succeed. *)
Definition failing_driver : Dialect :=
  {| dbx_init := fun n => Resolved (JNum (Z.of_nat n));
     dbx_exec := fun _ => Rejected (Thrown "ORA-00942");
     dbx_commit := fun _ => Resolved JUndefined;
     dbx_rollback := fun _ => Resolved JUndefined;
     dbx_close := fun _ => Resolved JUndefined |}.

(** A driver whose [exec] answers with no rows. *)
Definition quiet_driver : Dialect :=
  {| dbx_init := fun n => Resolved (JNum (Z.of_nat n));
     dbx_exec := fun _ => Resolved (JArr []);
     dbx_commit := fun _ => Resolved JUndefined;
     dbx_rollback := fun _ => Resolved JUndefined;
     dbx_close := fun _ => Resolved JUndefined |}.

Definition oracle2 : FragEnv := env_of "oracle" 2.

Definition conn_of (name : string) (cb : option binds) : Conn :=
  {| conn_name := name; conn_dialect := "oracle"; conn_version := Some 2%Q;
     conn_binds := cb; conn_logging := false |}.

Definition sqls_env_of (name : string) (dbx : Dialect) (cb : option binds) : SQLSEnv :=
  {| sq_conn := conn_of name cb;
     sq_dbs := new_DBS dbx (conn_of name cb);
     sq_cached := false;
     sq_substitute := fun t => t |}.

Definition fresh : ConnState :=
  {| cs_pending := 0; cs_cache := ∅; cs_disk := ∅; cs_submitted := [] |}.

(** The function prepared from [read.users.sql] and the one prepared from
    [users.sql], whose name has no CRUD prefix. *)
Definition read_users : Handle :=
  {| h_name := "oracle_connA_read_users"; h_fpth := "/app/connA/read.users.sql";
     h_ext := "sql"; h_crud := crud_of "read.users.sql";
     h_source := StaticSql (txt "SELECT * FROM users WHERE since > :since") |}.
Definition users : Handle :=
  {| h_name := "oracle_connA_users"; h_fpth := "/app/connA/users.sql";
     h_ext := "sql"; h_crud := crud_of "users.sql";
     h_source := StaticSql (txt "SELECT * FROM users") |}.

Definition call (type : option string) (bs : option binds) (returnErrors : bool) : CallOpts :=
  {| o_type := type; o_binds := bs; o_numOfIterations := None;
     o_returnErrors := returnErrors |}.

Definition statement (name : string) : entry := File name (Some (txt "SELECT 1 FROM dual")).

Definition connection (name : string) (files : list entry) : SQLS :=
  {| sqls_env := sqls_env_of name quiet_driver None;
     sqls_basePath := "/app/" +:+ name;
     sqls_files := Some files;
     sqls_numOfPreparedStmts := None;
     sqls_db := Container [];
     sqls_state := fresh |}.

(** Two connections, one statement file and three. *)
Definition manager : Manager :=
  {| mgr_sqls := [connection "connA" [statement "read.users.sql"];
                  connection "connB" [statement "read.a.sql"; statement "update.a.sql";
                                      statement "delete.a.sql"]];
     mgr_sqlsCount := None |}.

Definition override_connA : OpOpts :=
  {| oo_connections := Some {["connA" := Some true]}; oo_executeInSeries := false |}.
Definition all_in_series : OpOpts :=
  {| oo_connections := None; oo_executeInSeries := true |}.

Definition since : jsval := JDate (Some "2020-01-01T00:00:00.000Z").

(** Bind sets: an array of three numbers, an array whose first value is
    an array, and two scalars. *)
Definition ids_binds : binds := {["ids" := JArr [JNum 10; JNum 20; JNum 30]]}.
Definition nested_binds : binds := {["ids" := JArr [JArr [JNum 1; JNum 2]; JNum 3]]}.
Definition scalar_binds : binds := {["id" := JNum 7; "since" := JStr "2020-01-01"]}.

Definition select_in : text :=
  txt "SELECT * FROM t WHERE id IN (:ids) [[! oracle]]AND ROWNUM < 9[[!]]".
Definition select_plain : text :=
  txt "SELECT name FROM users WHERE id = :id AND since > :since".
End Example.


(** The tasks [operation] queues when no options are given: one per
    connection, all on the concurrent lane. *)
Fixpoint default_tasks (i : nat) (sqls : list SQLS) : list Task :=
  match sqls with
  | [] => []
  | s :: rest =>
      {| t_lane := Parallel; t_name := connectionName s; t_sqli := i |} ::
      default_tasks (S i) rest
  end.

(** The name under which the array pass stores the value of index [i] of a
    collection bound to [key]: [key], [key1], [key2], ... *)
Definition bind_name (key : text) (i : nat) : text := key ++ index_suffix i.

(** Texts put together with a separator between them. *)
Fixpoint sep_by (sep : text) (l : list text) : text :=
  match l with
  | [] => []
  | [x] => x
  | x :: l' => x ++ sep ++ sep_by sep l'
  end.

(** The tokens that stand for a collection of [n] values bound to [key]:
    [:key, :key1, ...]; the token itself when the collection is empty. *)
Definition bind_tokens (key : text) (n : nat) : text :=
  match n with
  | O => ":"%char :: key
  | _ => sep_by (txt ", ") (map (fun i => ":"%char :: bind_name key i) (seq 0 n))
  end.

(** The text does not start with a letter. *)
Definition no_leading_letter (s : text) : bool :=
  match s with
  | a :: _ => negb (is_letter a)
  | [] => true
  end.

(** [r] takes [x] in front of [y] at its first try: whatever comes behind
    the pattern, if that succeeds on [y], the whole match is that one. *)
Definition commits (icase : bool) (r : regex) (x y : text) (c c' : caps) : Prop :=
  forall p k res, k y (p + length x) c' = Some res -> m icase r (x ++ y) p c k = Some res.

(** The text does not start with a character of [f]. *)
Definition stops (f : ascii -> bool) (y : text) : bool :=
  match y with
  | a :: _ => negb (f a)
  | [] => true
  end.

Definition breaks (n : nat) : text := repeat LF n.
Definition spaces (n : nat) : text := repeat " "%char n.
Definition dashes_of (n : nat) : text := repeat "-"%char n.

Definition open_marker (d : ascii) : text := ["["; "["; d]%char.
Definition close_marker (d : ascii) : text := ["["; "["; d; "]"; "]"]%char.

(** The pattern of the dialect guards ([d] is [!]) and of the fragment
    guards ([d] is [?]). *)
Definition guardRx (d : ascii) : regex :=
  (RGroup 1 linebreaks >> dashes >> lit_chars (open_marker d) >>
   RNegLook (lit_chars (open_marker d)) >>
   star (RChar CSpace) >> RGroup 2 (plus (RChar CWord)) >> star (RChar CSpace) >>
   lit "]]" >> linebreaks >> RGroup 3 lazy_any >> dashes >> lit_chars (close_marker d) >>
   RGroup 4 linebreaks)%re.

(** What the three guard patterns have behind the opening marker. *)
Definition guard_tail (g3 g4 : nat) (cl : text) : regex :=
  (linebreaks >> RGroup g3 lazy_any >> dashes >> lit_chars cl >> RGroup g4 linebreaks)%re.

(** How a guard is laid out: the line breaks and the dashes in front of the
    opening marker, the blanks around the key, the line breaks behind the
    opening marker, the dashes in front of the closing marker and the line
    breaks behind it. *)
Record Layout : Type := {
  l_breaks : nat;
  l_dashes : nat;
  l_blanks : nat;
  l_blanks_after : nat;
  l_breaks_inside : nat;
  l_dashes_close : nat;
  l_breaks_after : nat
}.

(** The pattern admits up to two dashes in front of a marker. *)
Definition dashes_fit (l : Layout) : bool :=
  (l_dashes l <=? 2)%nat && (l_dashes_close l <=? 2)%nat.

(** A guard with its marker [d], its key and its body, laid out as [l]
    says. *)
Definition guard_span (d : ascii) (key body : text) (l : Layout) : text :=
  breaks (l_breaks l) ++ dashes_of (l_dashes l) ++ open_marker d ++
  spaces (l_blanks l) ++ key ++ spaces (l_blanks_after l) ++ txt "]]" ++
  breaks (l_breaks_inside l) ++ body ++ dashes_of (l_dashes_close l) ++
  close_marker d ++ breaks (l_breaks_after l).

(** The markers on the line of the text, a blank before the key. *)
Definition inline : Layout :=
  {| l_breaks := 0; l_dashes := 0; l_blanks := 1; l_blanks_after := 0;
     l_breaks_inside := 0; l_dashes_close := 0; l_breaks_after := 0 |}.


(** The text does not end with a dash or a line break (an empty text does
    not either). *)
Definition ends_text (s : text) : bool :=
  negb (is_dash (List.last s " "%char)) && negb (is_linebreak (List.last s " "%char)).

(** The six comparators of a version guard. *)
Definition comparators : list text :=
  [txt "="; txt "<"; txt ">"; txt "<="; txt ">="; txt "<>"].

Definition is_comparator (op : text) : bool := bool_decide (op ∈ comparators).

(** The sign in front of the literal of a version guard: none, [+] or [-]. *)
Definition is_sign (sign : text) : bool :=
  bool_decide (sign ∈ [[]; txt "+"; txt "-"]).

(** A version guard: the comparator, the sign and the digits of the
    literal, the body, and the line breaks, dashes and blanks around them:
    [n1] line breaks and [d1] dashes in front of the opening marker, [s1],
    [s2] and [s3] blanks inside it, [no] line breaks behind it, [d2] dashes in
    front of the closing marker and [n2] line breaks behind it. *)
Definition version_span (op sign digits body : text) (n1 d1 s1 s2 s3 no d2 n2 : nat) : text :=
  breaks n1 ++ dashes_of d1 ++ txt "[[version" ++ spaces s1 ++ op ++ spaces s2 ++ sign ++
  digits ++ spaces s3 ++ txt "]]" ++ breaks no ++ body ++ dashes_of d2 ++
  txt "[[version]]" ++ breaks n2.

(** What the version pattern has behind the comparator. *)
Definition sqlVerRest : regex :=
  (star (RChar CSpace) >>
   opt (RChar (CUnion (CChar "+") (CChar "-"))) >>
   RGroup 3 (plus (RChar CDigit) >> opt (chr ".") >> star (RChar CDigit)) >>
   star (RChar CSpace) >> lit "]]" >> linebreaks >> RGroup 4 lazy_any >> dashes >>
   lit "[[version]]" >> RGroup 5 linebreaks)%re.

(** The requests of a list that are not reads. *)
Definition writes (l : list Request) : nat :=
  length (List.filter (fun rq => negb (is_READ (rq_type rq))) l).

(** The counter [dbs.at.pending] is the number of requests handed to the
    driver so far that were not reads. *)
Definition pending_counts_writes (st : ConnState) : Prop :=
  cs_pending st = writes (cs_submitted st).



(** The file of the function is read as JSON ([ext === 'json']); the other
    files are read as text. *)
Definition is_json (h : Handle) : bool := bool_decide (h_ext h = "json").


(** [opts.type || crud] *)
Definition effective_type (h : Handle) (o : CallOpts) : option string :=
  if truthy_string (o_type o) then o_type o else h_crud h.

(** The number of statement functions in a part of the namespace. *)
Fixpoint leaves (n : ns_node) : nat :=
  let fix go (ps : list (string * ns_node)) : nat :=
    match ps with
    | [] => 0
    | (_, c) :: ps' => leaves c + go ps'
    end in
  match n with
  | Container ps => go ps
  | Leaf _ ps => S (go ps)
  end.

Fixpoint leaves_props (ps : list (string * ns_node)) : nat :=
  match ps with
  | [] => 0
  | (_, c) :: ps' => leaves c + leaves_props ps'
  end.

(** The object reached from [so] by the property names [ns], one after the
    other: [so.a.b.c]. *)
Fixpoint get_path (ns : list string) (so : ns_node) : option ns_node :=
  match ns with
  | [] => Some so
  | k :: ns' =>
      match get_prop so k with
      | Some c => get_path ns' c
      | None => None
      end
  end.

(** A directory without sub-directories. *)
Definition is_file (e : entry) : bool :=
  match e with File _ _ => true | Dir _ _ => false end.
Definition flat (es : list entry) : bool := forallb is_file es.

(** The property names that every object or function has without being
    given them: those of [Object.prototype] and of [Function.prototype], and
    [length] and [name] of a function.  A read [so[k]] finds them, so the walk
    takes a name segment of this list for a property that is already set. *)
Definition inherited_names : list string :=
  ["constructor"; "__defineGetter__"; "__defineSetter__"; "hasOwnProperty";
   "__lookupGetter__"; "__lookupSetter__"; "isPrototypeOf"; "propertyIsEnumerable";
   "toString"; "valueOf"; "__proto__"; "toLocaleString";
   "length"; "name"; "arguments"; "caller"; "apply"; "bind"; "call"].

(** The name segments of a file: those of its sanitized name, without the
    extension. *)
Definition segments (name : string) : list string :=
  map str (fst (pop_ext (split_dot (sanitize_file (txt name))))).

Definition own_name (k : string) : bool := negb (bool_decide (k ∈ inherited_names)).

(** No name segment of a file of the directory is an inherited property
    name; on such directories the properties the walk reads are the ones it
    has set. *)
Definition own_names (es : list entry) : bool :=
  forallb (fun e => match e with
                    | File name _ => forallb own_name (segments name)
                    | Dir _ _ => true
                    end) es.

Definition leaves_at (so : ns_node) (k : string) : nat :=
  match get_prop so k with
  | Some c => leaves c
  | None => 0
  end.

(** A step of the walk that counts one statement when it succeeds and none
    when it fails. *)
Definition counts_one (leaf : Walk Handle) : Prop :=
  forall n, match leaf n with
            | (Resolved _, n') => n' = S n
            | (Rejected _, n') => n' = n
            end.

(** The property names [ns] lead somewhere in [so]: the walk would find the
    last of them set. *)
Fixpoint has_path (ns : list string) (so : ns_node) : bool :=
  match ns with
  | [] => true
  | k :: ns' =>
      match get_prop so k with
      | Some c => has_path ns' c
      | None => false
      end
  end.

(** The extension of a file and the name of its statement function. *)
Definition extension (name : string) : string :=
  str (snd (pop_ext (split_dot (sanitize_file (txt name))))).

Definition handle_name (sqls : SQLSEnv) (pnm name : string) : string :=
  conn_dialect (sq_conn sqls) +:+ "_" +:+ conn_name (sq_conn sqls) +:+ "_" +:+
  prefix_name pnm +:+ join "_" (segments name).

(** The objects that lead to a statement function along the names [ns]. *)
Fixpoint nest_under (ns : list string) (h : Handle) : ns_node :=
  match ns with
  | [] => Leaf h []
  | k :: ns' => Container [(k, nest_under ns' h)]
  end.

(** A file name put together from name segments and an extension. *)
Definition dotted (segs : list text) : text := sep_by (txt ".") segs.

Module Sample.
Import Example.


Definition logged_conn : Conn :=
  {| conn_name := "connA"; conn_dialect := "oracle"; conn_version := Some 2%Q;
     conn_binds := None; conn_logging := true |}.

Definition logged_env : SQLSEnv :=
  {| sq_conn := logged_conn;
     sq_dbs := new_DBS quiet_driver logged_conn;
     sq_cached := false;
     sq_substitute := fun t => t |}.

Definition logged_connection (files : list entry) : SQLS :=
  {| sqls_env := logged_env;
     sqls_basePath := "/app/connA";
     sqls_files := Some files;
     sqls_numOfPreparedStmts := None;
     sqls_db := Container [];
     sqls_state := fresh |}.


End Sample.

(** The name a connection of the configuration is known by. *)
Definition conf_name (c : ConnConf) : string := shown (cc_name c).

(** What the constructor checks of a connection: it has an id that
    [conf.univ.db] knows, a name, and a dialect whose name in lower case is an
    own property of [conf.db.dialects]. *)
Definition valid_conn (conf : Conf) (dialects : gmap string DialectDef) (c : ConnConf) : bool :=
  truthy_string (cc_id c) && truthy_string (cc_name c) &&
  bool_decide (is_Some (univ_def (conf_univ_db conf) (shown (cc_id c)))) &&
  bool_decide (is_Some (dialects !! str (toLowerCase (txt (cc_dialect c))))).

(** A connection takes part in a lifecycle call: no names were listed, or
    its name is one of them. *)
Definition selected (connNames : list string) (s : SQLS) : bool :=
  negb (nonempty_list connNames) || bool_decide (connectionName s ∈ connNames).

Definition lane_of (series : bool) : lane := if series then Series else Parallel.

(** The tasks of the connections that take part, from index [i] on. *)
Fixpoint tasks_for (series : bool) (connNames : list string) (i : nat) (sqls : list SQLS)
    : list Task :=
  match sqls with
  | [] => []
  | s :: rest =>
      (if selected connNames s
       then [{| t_lane := lane_of series; t_name := connectionName s; t_sqli := i |}]
       else []) ++ tasks_for series connNames (S i) rest
  end.

Definition plain_opts (series : bool) : OpOpts :=
  {| oo_connections := None; oo_executeInSeries := series |}.

Module Setup.
Import Example.

(** A disk with the directories of two connections, and a Node that
    knows no module. *)
Definition node : Node :=
  {| node_cwd := "/app";
     node_main := Some "/app";
     node_require := fun _ => Rejected (Thrown "Cannot find module");
     node_join := fun a b => a +:+ "/" +:+ b;
     node_readdir := fun p =>
       if bool_decide (p = "/app/connA") then Some [statement "read.users.sql"]
       else if bool_decide (p = "/app/connB")
            then Some [statement "read.a.sql"; statement "update.a.sql"]
            else None;
     node_disk := ∅ |}.

Definition connection_conf (id name dialect : string) : ConnConf :=
  {| cc_id := Some id; cc_name := Some name; cc_dir := None; cc_version := None;
     cc_service := None; cc_sid := None; cc_binds := None;
     cc_substitute := fun t => t; cc_host := None; cc_dialect := dialect;
     cc_log := LogUnset; cc_logging := false |}.

Definition credentials : UnivDef :=
  {| def_host := Some "db.example.com"; def_username := Some "scott";
     def_password := Some "tiger" |}.

(** Two connections of one dialect, written in two ways. *)
Definition conf : Conf :=
  {| conf_mainPath := None; conf_privatePath := None;
     conf_univ_db := {["idA" := credentials; "idB" := credentials]};
     conf_dialects := Some {["oracle" := DClass (fun _ => Resolved quiet_driver)]};
     conf_connections := [connection_conf "idA" "connA" "Oracle";
                          connection_conf "idB" "connB" "ORACLE"] |}.

Definition empty_manager : Manager := {| mgr_sqls := []; mgr_sqlsCount := None |}.

Definition built : Manager :=
  match Manager_new node (Some conf) None false with
  | Resolved mgr => mgr
  | Rejected _ => empty_manager
  end.
End Setup.











(** A whole number that a double holds exactly: every whole number up to
    2^53 is one.  [parseFloat] of its decimal text is the number itself; a
    longer literal is rounded to the nearest double. *)
Definition safe_integer (n : nat) : bool := (Z.of_nat n <=? 2 ^ 53)%Z.



(** * Theorems *)

Import Example.

(** * The matcher *)

Lemma agree_refl s p k : agree s p k k.
Proof. intros ? ? ? ? ?. reflexivity. Qed.

Lemma agree_later s p s1 p1 k k' :
  agree s p k k' -> p1 + length s1 = p + length s -> p <= p1 -> agree s1 p1 k k'.
Proof. intros H E L s' p' c' E' L'. apply H; lia. Qed.

Lemma RepeatMatcher_ext mr (Hmr : ext_matcher mr) fuel :
  forall g mn mx s p c k k',
    agree s p k k' ->
    RepeatMatcher mr fuel g mn mx s p c k = RepeatMatcher mr fuel g mn mx s p c k'.
Proof.
  induction fuel as [|fuel IH]; intros g mn mx s p c k k' H; simpl; [reflexivity|].
  assert (Hk : k s p c = k' s p c) by (apply H; lia).
  set (d := fun (s' : text) (p' : nat) (c' : caps) =>
              if (mn =? 0)%nat && (p' =? p)%nat then None
              else RepeatMatcher mr fuel g (Nat.pred mn) (pred_max mx) s' p' c' k).
  set (d' := fun (s' : text) (p' : nat) (c' : caps) =>
              if (mn =? 0)%nat && (p' =? p)%nat then None
              else RepeatMatcher mr fuel g (Nat.pred mn) (pred_max mx) s' p' c' k').
  assert (Hd : mr s p c d = mr s p c d').
  { apply Hmr. intros s' p' c' E L. unfold d, d'.
    destruct ((mn =? 0)%nat && (p' =? p)%nat); [reflexivity|].
    apply IH. eapply agree_later; eauto. }
  rewrite Hk, Hd. reflexivity.
Qed.

Lemma m_ext icase r : ext_matcher (m icase r).
Proof.
  induction r as [cl| |r1 IH1 r2 IH2|r1 IH1 r2 IH2|g mn mx r IH|n r IH|r IH];
    intros s p c k k' H; cbn [m].
  - destruct s as [|a s']; [reflexivity|].
    destruct (cmatch icase cl a); [|reflexivity]. apply H; simpl; lia.
  - apply H; lia.
  - apply IH1. intros s1 p1 c1 E L. apply IH2. eapply agree_later; eauto.
  - rewrite (IH1 s p c k k' H), (IH2 s p c k k' H). reflexivity.
  - apply RepeatMatcher_ext; assumption.
  - apply IH. intros s1 p1 c1 E L. apply H; assumption.
  - destruct (m icase r s p c _); [reflexivity|]. apply H; lia.
Qed.

(** The bound on the iterations is never the reason a quantifier stops. *)
Lemma RepeatMatcher_fuel mr (Hmr : ext_matcher mr) f1 :
  forall f2 g mn mx s p c k,
    mn + length s < f1 -> mn + length s < f2 ->
    RepeatMatcher mr f1 g mn mx s p c k = RepeatMatcher mr f2 g mn mx s p c k.
Proof.
  induction f1 as [|f1 IH]; intros f2 g mn mx s p c k H1 H2; [lia|].
  destruct f2 as [|f2]; [lia|]. simpl.
  set (d1 := fun (s' : text) (p' : nat) (c' : caps) =>
              if (mn =? 0)%nat && (p' =? p)%nat then None
              else RepeatMatcher mr f1 g (Nat.pred mn) (pred_max mx) s' p' c' k).
  set (d2 := fun (s' : text) (p' : nat) (c' : caps) =>
              if (mn =? 0)%nat && (p' =? p)%nat then None
              else RepeatMatcher mr f2 g (Nat.pred mn) (pred_max mx) s' p' c' k).
  assert (Hd : mr s p c d1 = mr s p c d2).
  { apply Hmr. intros s' p' c' E L. unfold d1, d2.
    destruct (mn =? 0)%nat eqn:Emn; simpl.
    - apply Nat.eqb_eq in Emn. subst mn.
      destruct (p' =? p)%nat eqn:Ep; [reflexivity|].
      apply Nat.eqb_neq in Ep. apply IH; simpl; lia.
    - apply Nat.eqb_neq in Emn. apply IH; lia. }
  rewrite Hd. reflexivity.
Qed.

(** The equation of a quantifier, in the words of RepeatMatcher. *)
Lemma m_rep icase g mn mx r s p c k :
  m icase (RRep g mn mx r) s p c k =
  match mx with
  | Some O => k s p c
  | _ =>
      let d : cont := fun s' p' c' =>
        if (mn =? 0)%nat && (p' =? p)%nat then None
        else m icase (RRep g (Nat.pred mn) (pred_max mx) r) s' p' c' k in
      if (0 <? mn)%nat then m icase r s p c d
      else if g then orelse (m icase r s p c d) (k s p c)
      else orelse (k s p c) (m icase r s p c d)
  end.
Proof.
  simpl.
  set (d1 := fun (s' : text) (p' : nat) (c' : caps) =>
              if (mn =? 0)%nat && (p' =? p)%nat then None
              else RepeatMatcher (m icase r) (mn + length s) g (Nat.pred mn) (pred_max mx) s' p' c' k).
  set (d2 := fun (s' : text) (p' : nat) (c' : caps) =>
              if (mn =? 0)%nat && (p' =? p)%nat then None
              else RepeatMatcher (m icase r) (S (Nat.pred mn + length s')) g (Nat.pred mn) (pred_max mx) s' p' c' k).
  assert (Hd : m icase r s p c d1 = m icase r s p c d2).
  { apply m_ext. intros s' p' c' E L. unfold d1, d2.
    destruct (mn =? 0)%nat eqn:Emn; cbn [andb].
    - apply Nat.eqb_eq in Emn. subst mn.
      destruct (p' =? p)%nat eqn:Ep; [reflexivity|].
      apply Nat.eqb_neq in Ep. apply RepeatMatcher_fuel; [apply m_ext|cbn [Nat.pred]; lia..].
    - apply Nat.eqb_neq in Emn. apply RepeatMatcher_fuel; [apply m_ext|lia..]. }
  rewrite Hd. reflexivity.
Qed.

(** ** What a successful match has consumed *)

Lemma orelse_Some a b res :
  orelse a b = Some res -> a = Some res \/ b = Some res.
Proof. destruct a; simpl; intros H; [left|right]; assumption. Qed.

Lemma RepeatMatcher_sound icase r (Hr : sound_matcher (m icase r) (lang icase r)) fuel :
  forall g mn mx s p c k res,
    RepeatMatcher (m icase r) fuel g mn mx s p c k = Some res ->
    exists x s' c', s = x ++ s' /\ lang icase (RRep g mn mx r) x /\
                    k s' (p + length x) c' = Some res.
Proof.
  induction fuel as [|fuel IH]; intros g mn mx s p c k res H; [discriminate|].
  simpl in H.
  assert (Hk : mn = 0%nat \/ mx = Some 0%nat -> k s p c = Some res ->
               exists x s' c', s = x ++ s' /\ lang icase (RRep g mn mx r) x /\
                               k s' (p + length x) c' = Some res).
  { intros Hz E. exists [], s, c. split; [reflexivity|]. split; [constructor; exact Hz|].
    simpl. rewrite Nat.add_0_r. exact E. }
  assert (Hd : forall d,
             d = (fun (s' : text) (p' : nat) (c' : caps) =>
                    if (mn =? 0)%nat && (p' =? p)%nat then None
                    else RepeatMatcher (m icase r) fuel g (Nat.pred mn) (pred_max mx) s' p' c' k) ->
             m icase r s p c d = Some res ->
             exists x s' c', s = x ++ s' /\ lang icase (RRep g mn mx r) x /\
                             k s' (p + length x) c' = Some res).
  { intros d -> E. apply Hr in E. destruct E as (x & s1 & c1 & -> & Lx & E).
    destruct ((mn =? 0)%nat && (p + length x =? p)%nat); [discriminate|].
    apply IH in E. destruct E as (y & s2 & c2 & -> & Ly & E).
    exists (x ++ y), s2, c2. split; [apply app_assoc|]. split.
    - apply lang_rep_cons; assumption.
    - rewrite length_app, Nat.add_assoc. exact E. }
  destruct mx as [[|n]|].
  - apply Hk; [right; reflexivity|exact H].
  - destruct (0 <? mn)%nat eqn:Emn; [eapply Hd; [reflexivity|exact H]|].
    apply Nat.ltb_ge in Emn.
    destruct g; apply orelse_Some in H; destruct H as [H|H];
      first [apply Hk; [left; lia|exact H] | eapply Hd; [reflexivity|exact H]].
  - destruct (0 <? mn)%nat eqn:Emn; [eapply Hd; [reflexivity|exact H]|].
    apply Nat.ltb_ge in Emn.
    destruct g; apply orelse_Some in H; destruct H as [H|H];
      first [apply Hk; [left; lia|exact H] | eapply Hd; [reflexivity|exact H]].
Qed.

(** A successful match consumed a text of the pattern and went on with the
    continuation behind it. *)
Lemma m_sound icase r : sound_matcher (m icase r) (lang icase r).
Proof.
  induction r as [cl| |r1 IH1 r2 IH2|r1 IH1 r2 IH2|g mn mx r IH|n r IH|r IH];
    intros s p c k res H; cbn [m] in H.
  - destruct s as [|a s']; [discriminate|].
    destruct (cmatch icase cl a) eqn:E; [|discriminate].
    exists [a], s', c. split; [reflexivity|]. split; [constructor; exact E|].
    simpl. rewrite Nat.add_1_r. exact H.
  - exists [], s, c. split; [reflexivity|]. split; [constructor|].
    simpl. rewrite Nat.add_0_r. exact H.
  - apply IH1 in H. destruct H as (x & s1 & c1 & -> & Lx & H).
    apply IH2 in H. destruct H as (y & s2 & c2 & -> & Ly & H).
    exists (x ++ y), s2, c2. split; [apply app_assoc|]. split; [constructor; assumption|].
    rewrite length_app, Nat.add_assoc. exact H.
  - apply orelse_Some in H. destruct H as [H|H].
    + apply IH1 in H. destruct H as (x & s1 & c1 & -> & Lx & H).
      exists x, s1, c1. split; [reflexivity|]. split; [apply lang_alt_l; exact Lx|exact H].
    + apply IH2 in H. destruct H as (x & s1 & c1 & -> & Lx & H).
      exists x, s1, c1. split; [reflexivity|]. split; [apply lang_alt_r; exact Lx|exact H].
  - eapply RepeatMatcher_sound; eassumption.
  - apply IH in H. destruct H as (x & s1 & c1 & -> & Lx & H).
    eexists x, s1, _. split; [reflexivity|]. split; [constructor; exact Lx|exact H].
  - destruct (m icase r s p c _); [discriminate|].
    exists [], s, c. split; [reflexivity|]. split; [constructor|].
    simpl. rewrite Nat.add_0_r. exact H.
Qed.

Lemma exec_sound icase r s rest n c :
  exec icase r s = Some (rest, n, c) ->
  exists x, s = x ++ rest /\ lang icase r x /\ n = length x.
Proof.
  intros H. apply m_sound in H. destruct H as (x & s' & c' & -> & Lx & H).
  injection H as -> <- ->. exists x. auto.
Qed.

(** * Scanning *)

Section ReplaceTheory.
Context {St : Type}.
Variable icase : bool.
Variable r : regex.
Variable f : text -> caps -> St -> text * St.

Lemma exec_length s rest n c :
  exec icase r s = Some (rest, n, c) -> n <= length s /\ rest = drop n s.
Proof.
  intros H. apply exec_sound in H. destruct H as (x & -> & _ & ->).
  rewrite length_app. split; [lia|]. rewrite drop_app_length. reflexivity.
Qed.

(** Where every match is replaced by itself and leaves the state alone,
    the scan gives the text back. *)
Lemma replace_from_fixed st s :
  (forall x y rest n c,
      s = x ++ y -> exec icase r y = Some (rest, n, c) ->
      f (take n y) c st = (take n y, st)) ->
  forall skip, replace_from icase r f s skip st = (drop skip s, st).
Proof.
  induction s as [|a s IH]; intros H skip.
  - destruct skip; simpl; [|reflexivity].
    destruct (exec icase r []) as [[[rest n] c]|] eqn:E; [|reflexivity].
    rewrite (H [] [] rest n c eq_refl E). destruct n; reflexivity.
  - assert (IH' : forall skip, replace_from icase r f s skip st = (drop skip s, st)).
    { apply IH. intros x y rest n c -> E. apply (H (a :: x) y rest n c); [reflexivity|exact E]. }
    destruct skip; simpl; [|apply IH'].
    destruct (exec icase r (a :: s)) as [[[rest n] c]|] eqn:E.
    + rewrite (H [] (a :: s) rest n c eq_refl E).
      destruct n as [|n]; simpl.
      * rewrite IH'. reflexivity.
      * rewrite Nat.sub_0_r, IH'. simpl. rewrite take_drop. reflexivity.
    + rewrite IH'. reflexivity.
Qed.

Lemma replace_from_none st s :
  (forall x y, s = x ++ y -> exec icase r y = None) ->
  replace icase r f s st = (s, st).
Proof.
  intros H. unfold replace. rewrite replace_from_fixed; [reflexivity|].
  intros x y rest n c E1 E2. rewrite (H x y E1) in E2. discriminate.
Qed.

(** A stretch of text in which the pattern matches nowhere is copied. *)
Lemma replace_from_app_none x y st :
  (forall x1 a x2, x = x1 ++ a :: x2 -> exec icase r (a :: x2 ++ y) = None) ->
  replace_from icase r f (x ++ y) 0 st =
  (x ++ fst (replace_from icase r f y 0 st), snd (replace_from icase r f y 0 st)).
Proof.
  induction x as [|a x IH]; intros H.
  - simpl. destruct (replace_from icase r f y 0 st); reflexivity.
  - simpl. rewrite (H [] a x eq_refl).
    rewrite IH; [reflexivity|].
    intros x1 b x2 ->. apply (H (a :: x1) b x2). reflexivity.
Qed.

Lemma replace_from_skip_app x y st :
  replace_from icase r f (x ++ y) (length x) st = replace_from icase r f y 0 st.
Proof. induction x as [|a x IH]; simpl; [destruct y; reflexivity|exact IH]. Qed.

(** A match at the head of the text: its replacement, then the scan of
    the rest. *)
Lemma replace_from_match a x rest c st :
  exec icase r (a :: x ++ rest) = Some (rest, S (length x), c) ->
  replace_from icase r f (a :: x ++ rest) 0 st =
  (fst (f (a :: x) c st) ++ fst (replace_from icase r f rest 0 (snd (f (a :: x) c st))),
   snd (replace_from icase r f rest 0 (snd (f (a :: x) c st)))).
Proof.
  intros E. cbn [replace_from]. rewrite E.
  cbn [take]. rewrite take_app_length.
  destruct (f (a :: x) c st) as [rep st1]. simpl.
  rewrite Nat.sub_0_r, replace_from_skip_app.
  destruct (replace_from icase r f rest 0 st1). reflexivity.
Qed.
End ReplaceTheory.

Lemma replace_pure_none icase r f s :
  (forall x y, s = x ++ y -> exec icase r y = None) ->
  replace_pure icase r f s = s.
Proof. intros H. unfold replace_pure. rewrite replace_from_none; [reflexivity|exact H]. Qed.

(** * Characters *)

Ltac all_chars a := destruct a as [[] [] [] [] [] [] [] []]; try reflexivity; try discriminate.

Lemma ascii_eqb_eq a b : ascii_eqb a b = true <-> a = b.
Proof.
  unfold ascii_eqb, code. rewrite Nat.eqb_eq. split; [|intros ->; reflexivity].
  intros H. rewrite <- (ascii_nat_embedding a), <- (ascii_nat_embedding b), H. reflexivity.
Qed.

Lemma ascii_eqb_refl a : ascii_eqb a a = true.
Proof. apply ascii_eqb_eq. reflexivity. Qed.

Lemma ascii_eqb_neq a b : ascii_eqb a b = false <-> a <> b.
Proof.
  split.
  - intros H E. apply ascii_eqb_eq in E. congruence.
  - intros H. destruct (ascii_eqb a b) eqn:E; [|reflexivity]. apply ascii_eqb_eq in E. contradiction.
Qed.

Lemma cmatch_colon a : cmatch true (CChar ":") a = ascii_eqb a ":".
Proof. all_chars a. Qed.

Lemma cmatch_letters a : cmatch true (CRange "a" "z") a = is_letter a.
Proof. all_chars a. Qed.

Lemma cmatch_open icase a : cmatch icase (CChar "[") a = ascii_eqb a "[".
Proof. destruct icase; all_chars a. Qed.

(** * Quantified character sets *)

Lemma succ_eqb p : (S p =? p)%nat = false.
Proof. apply Nat.eqb_neq. lia. Qed.

(** [cl*] and [cl*?] on a character set, one character at a time. *)
Lemma m_star_class icase g cl s p c k :
  m icase (RRep g 0 None (RChar cl)) s p c k =
  match s with
  | a :: s' =>
      if cmatch icase cl a
      then if g then orelse (m icase (RRep g 0 None (RChar cl)) s' (S p) c k) (k s p c)
           else orelse (k s p c) (m icase (RRep g 0 None (RChar cl)) s' (S p) c k)
      else k s p c
  | [] => k s p c
  end.
Proof.
  rewrite m_rep. change (0 =? 0)%nat with true.
  cbn [Nat.ltb Nat.leb andb m Nat.pred pred_max].
  destruct s as [|a s'].
  - destruct g; [reflexivity|]. destruct (k [] p c); reflexivity.
  - destruct (cmatch icase cl a).
    + rewrite succ_eqb. reflexivity.
    + destruct g; [reflexivity|]. destruct (k (a :: s') p c); reflexivity.
Qed.

(** [cl+] is one character of the set, then [cl*]. *)
Lemma m_plus_class icase cl s p c k :
  m icase (plus (RChar cl)) s p c k =
  match s with
  | a :: s' => if cmatch icase cl a then m icase (star (RChar cl)) s' (S p) c k else None
  | [] => None
  end.
Proof.
  unfold plus. rewrite m_rep. change (1 =? 0)%nat with false.
  cbn [Nat.ltb Nat.leb andb m Nat.pred pred_max].
  destruct s as [|a s']; [reflexivity|]. reflexivity.
Qed.

(** A greedy [cl*] before a continuation that cannot fail takes the longest
    run of the set. *)
Lemma m_star_class_total icase cl k :
  (forall s p c, k s p c <> None) ->
  forall s p c,
    m icase (star (RChar cl)) s p c k =
    k (drop_while (cmatch icase cl) s) (p + length (take_while (cmatch icase cl) s)) c.
Proof.
  intros Hk. induction s as [|a s IH]; intros p c; unfold star in *; rewrite m_star_class.
  - cbn [drop_while take_while length]. rewrite Nat.add_0_r. reflexivity.
  - cbn [drop_while take_while]. destruct (cmatch icase cl a).
    + rewrite IH. cbn [length]. rewrite Nat.add_succ_r. cbn [Nat.add].
      destruct (k _ _ c) eqn:E; [reflexivity|]. apply Hk in E. contradiction.
    + cbn [length]. rewrite Nat.add_0_r. reflexivity.
Qed.

Lemma take_drop_while f (s : text) : take_while f s ++ drop_while f s = s.
Proof. induction s as [|a s IH]; simpl; [reflexivity|]. destruct (f a); simpl; [rewrite IH|]; reflexivity. Qed.

Lemma take_while_ext f g (s : text) : (forall a, f a = g a) -> take_while f s = take_while g s.
Proof. intros H. induction s as [|a s IH]; cbn [take_while]; [reflexivity|]. rewrite H, IH. reflexivity. Qed.

Lemma drop_while_ext f g (s : text) : (forall a, f a = g a) -> drop_while f s = drop_while g s.
Proof. intros H. induction s as [|a s IH]; cbn [drop_while]; [reflexivity|]. rewrite H, IH. reflexivity. Qed.

(** * The array pattern *)

Lemma exec_sqlArrayRx s :
  exec true sqlArrayRx s =
  match token_at s with
  | Some (key, rest) => Some (rest, S (length key), [(2, key); (1, [":"%char])])
  | None => None
  end.
Proof.
  unfold exec, sqlArrayRx, token_at. cbn [m].
  destruct s as [|a s1]; [reflexivity|].
  unfold chr. cbn [m]. rewrite cmatch_colon.
  destruct (ascii_eqb a ":") eqn:Ea; [|reflexivity].
  apply ascii_eqb_eq in Ea. subst a. cbn [andb].
  rewrite m_plus_class.
  destruct s1 as [|b s2]; [reflexivity|].
  rewrite cmatch_letters. cbn [take_while drop_while].
  destruct (is_letter b) eqn:Eb; [|reflexivity].
  cbn [nonempty].
  rewrite m_star_class_total.
  - unfold lazy_star. rewrite m_star_class.
    rewrite (drop_while_ext _ is_letter s2 cmatch_letters).
    rewrite (take_while_ext _ is_letter s2 cmatch_letters).
    assert (Et : take (2 + length (take_while is_letter s2) - 1) (b :: s2) = b :: take_while is_letter s2).
    { replace (2 + length (take_while is_letter s2) - 1) with (S (length (take_while is_letter s2))) by lia.
      cbn [take]. f_equal.
      rewrite <- (take_drop_while is_letter s2) at 2. apply take_app_length. }
    destruct (drop_while is_letter s2) as [|d s3] eqn:Ed; cbn [orelse length];
      cbn [Nat.sub] in *; rewrite ?Et; try reflexivity.
    all: destruct (cmatch true (CRange "0" "9") d); cbn [orelse]; rewrite ?Et; reflexivity.
  - intros s p c. unfold lazy_star. rewrite m_star_class.
    destruct s as [|d s3]; [discriminate|].
    destruct (cmatch true (CRange "0" "9") d); discriminate.
Qed.

(** * The array pass *)

Lemma token_at_shape s key rest :
  token_at s = Some (key, rest) -> s = ":"%char :: key ++ rest /\ nonempty key = true.
Proof.
  unfold token_at. destruct s as [|a s1]; [discriminate|].
  destruct (ascii_eqb a ":") eqn:Ea; [|discriminate].
  destruct (nonempty (take_while is_letter s1)) eqn:En; [|discriminate].
  cbn [andb]. intros H. injection H as <- <-.
  apply ascii_eqb_eq in Ea. subst a. rewrite take_drop_while. auto.
Qed.

Lemma sqlArrayRpl_scalar key mtch rplmts :
  is_array_bind rplmts (str key) = false ->
  sqlArrayRpl mtch [(2, key); (1, [":"%char])] rplmts = (":"%char :: key, rplmts).
Proof.
  unfold sqlArrayRpl, is_array_bind.
  change (cap 1 [(2, key); (1, [":"%char])]) with [":"%char].
  change (cap 2 [(2, key); (1, [":"%char])]) with key.
  intros H. destruct (nonempty key); [|reflexivity].
  destruct (rplmts !! str key) as [[]|]; try reflexivity. discriminate.
Qed.

Lemma collect_keys_acc s : forall skip acc,
  snd (replace_from true sqlArrayRx collect_key s skip acc) =
  acc ++ snd (replace_from true sqlArrayRx collect_key s skip []).
Proof.
  induction s as [|a s IH]; intros skip acc.
  - destruct skip; cbn [replace_from]; [|simpl; rewrite app_nil_r; reflexivity].
    destruct (exec true sqlArrayRx []) as [[[rest n] c]|]; simpl; [|rewrite app_nil_r]; reflexivity.
  - destruct skip; cbn [replace_from]; [|apply IH].
    destruct (exec true sqlArrayRx (a :: s)) as [[[rest n] c]|].
    + unfold collect_key. cbn iota beta.
      destruct (n =? 0)%nat.
      * rewrite (surjective_pairing (replace_from _ _ _ s 0 (acc ++ _))).
        rewrite (surjective_pairing (replace_from _ _ _ s 0 ([] ++ _))).
        cbn [snd]. rewrite IH. rewrite (IH 0 ([] ++ _)). rewrite app_assoc. reflexivity.
      * rewrite (surjective_pairing (replace_from _ _ _ s (n - 1) (acc ++ _))).
        rewrite (surjective_pairing (replace_from _ _ _ s (n - 1) ([] ++ _))).
        cbn [snd]. rewrite IH. rewrite (IH (n - 1) ([] ++ _)). rewrite app_assoc. reflexivity.
    + rewrite (surjective_pairing (replace_from _ _ _ s 0 acc)).
      rewrite (surjective_pairing (replace_from _ _ _ s 0 [])).
      cbn [snd]. apply IH.
Qed.

(** The array pass leaves a text alone when none of its tokens names an
    array. *)
Lemma array_pass_from rplmts s : forall skip,
  forallb (fun k => negb (is_array_bind rplmts k))
          (snd (replace_from true sqlArrayRx collect_key s skip [])) = true ->
  replace_from true sqlArrayRx sqlArrayRpl s skip rplmts = (drop skip s, rplmts).
Proof.
  induction s as [|a s IH]; intros skip H.
  - destruct skip; cbn [replace_from]; [|reflexivity].
    rewrite exec_sqlArrayRx. reflexivity.
  - destruct skip; cbn [replace_from] in *; [|apply IH, H].
    rewrite exec_sqlArrayRx in *.
    destruct (token_at (a :: s)) as [[key rest]|] eqn:Et.
    + destruct (token_at_shape _ _ _ Et) as [Es Hne].
      injection Es as -> ->.
      unfold collect_key at 1 in H. cbn iota beta in H.
      cbn [Nat.eqb Nat.sub] in *. rewrite Nat.sub_0_r in *.
      rewrite (surjective_pairing (replace_from _ _ _ _ _ ([] ++ _))) in H.
      cbn [snd] in H. rewrite collect_keys_acc in H.
      rewrite forallb_app in H. apply andb_true_iff in H. destruct H as [H1 H2].
      change (cap 2 [(2, key); (1, [":"%char])]) with key in H1.
      cbn [app forallb] in H1.
      rewrite andb_true_r in H1. apply negb_true_iff in H1.
      rewrite sqlArrayRpl_scalar by exact H1.
      rewrite IH by exact H2.
      rewrite drop_app_length. reflexivity.
    + rewrite (surjective_pairing (replace_from _ _ _ s 0 [])) in H. cbn [snd] in H.
      rewrite IH by exact H. reflexivity.
Qed.

Lemma array_pass_fixed sql rplmts :
  array_free sql rplmts = true ->
  replace true sqlArrayRx sqlArrayRpl sql rplmts = (sql, rplmts).
Proof. intros H. unfold replace. rewrite array_pass_from; [reflexivity|exact H]. Qed.

(** * Guards need their marker *)

Lemma has_marker_here s : has_marker ("["%char :: "["%char :: s) = true.
Proof. reflexivity. Qed.

Lemma has_marker_cons a s : has_marker s = true -> has_marker (a :: s) = true.
Proof.
  intros H. cbn [has_marker]. destruct s as [|b s']; [discriminate|].
  rewrite H. apply orb_true_r.
Qed.

Lemma has_marker_app x y : has_marker y = true -> has_marker (x ++ y) = true.
Proof. intros H. induction x as [|a x IH]; [exact H|]. apply has_marker_cons, IH. Qed.

Lemma has_marker_suffix x y : has_marker (x ++ y) = false -> has_marker y = false.
Proof.
  intros H. destruct (has_marker y) eqn:E; [|reflexivity].
  rewrite (has_marker_app x y E) in H. discriminate.
Qed.

Lemma lang_open icase a : forall x, lang icase (chr a) x -> a = "["%char -> x = ["["%char].
Proof.
  intros x H ->. inversion H; subst. rewrite cmatch_open in *.
  match goal with H : ascii_eqb _ _ = true |- _ => apply ascii_eqb_eq in H; subst end.
  reflexivity.
Qed.

(** A text consumed by a pattern that goes [prefix [[ rest] holds the two
    opening brackets. *)
Lemma lang_guard_marker icase r1 r2 r3 r4 x :
  lang icase (RSeq r1 (RSeq r2 (RSeq (RSeq (chr "[") (RSeq (chr "[") r3)) r4))) x ->
  forall rest, has_marker (x ++ rest) = true.
Proof.
  intros H rest.
  inversion H as [| |? ? x1 y1 _ H1| | | | | |]; subst; clear H.
  inversion H1 as [| |? ? x2 y2 _ H2| | | | | |]; subst; clear H1.
  inversion H2 as [| |? ? x3 y3 H3 _| | | | | |]; subst; clear H2.
  inversion H3 as [| |? ? x4 y4 H4 H5| | | | | |]; subst; clear H3.
  inversion H5 as [| |? ? x5 y5 H6 _| | | | | |]; subst; clear H5.
  apply lang_open in H4; [|reflexivity]. apply lang_open in H6; [|reflexivity]. subst.
  rewrite <- !app_assoc. apply has_marker_app, has_marker_app. reflexivity.
Qed.

Lemma exec_sqlDiaRx_marker s : has_marker s = false -> exec false sqlDiaRx s = None.
Proof.
  intros H. destruct (exec false sqlDiaRx s) as [[[rest n] c]|] eqn:E; [|reflexivity].
  apply exec_sound in E. destruct E as (x & -> & L & _).
  rewrite (lang_guard_marker _ _ _ _ _ _ L) in H. discriminate.
Qed.

Lemma exec_sqlVerRx_marker s : has_marker s = false -> exec true sqlVerRx s = None.
Proof.
  intros H. destruct (exec true sqlVerRx s) as [[[rest n] c]|] eqn:E; [|reflexivity].
  apply exec_sound in E. destruct E as (x & -> & L & _).
  rewrite (lang_guard_marker _ _ _ _ _ _ L) in H. discriminate.
Qed.

Lemma exec_sqlFragRx_marker s : has_marker s = false -> exec false sqlFragRx s = None.
Proof.
  intros H. destruct (exec false sqlFragRx s) as [[[rest n] c]|] eqn:E; [|reflexivity].
  apply exec_sound in E. destruct E as (x & -> & L & _).
  rewrite (lang_guard_marker _ _ _ _ _ _ L) in H. discriminate.
Qed.

(** The three guard passes leave a text without marker alone. *)
Lemma guard_passes_fixed env keys s :
  has_marker s = false ->
  replace_pure false sqlFragRx (sqlFragRpl keys)
    (replace_pure true sqlVerRx (sqlVerRpl env)
       (replace_pure false sqlDiaRx (sqlDiaRpl env) s)) = s.
Proof.
  intros H.
  rewrite (replace_pure_none false sqlDiaRx).
  2:{ intros x y ->. apply exec_sqlDiaRx_marker. eapply has_marker_suffix, H. }
  rewrite (replace_pure_none true sqlVerRx).
  2:{ intros x y ->. apply exec_sqlVerRx_marker. eapply has_marker_suffix, H. }
  rewrite (replace_pure_none false sqlFragRx).
  2:{ intros x y ->. apply exec_sqlFragRx_marker. eapply has_marker_suffix, H. }
  reflexivity.
Qed.

(** [frag] gives back a text that has no guard marker and no token of an
    array bind, with the bind set it was given. *)
Lemma frag_fixed env sql keys rplmts :
  has_marker sql = false ->
  array_free sql rplmts = true ->
  frag env sql keys rplmts = (sql, rplmts).
Proof.
  intros Hm Ha. unfold frag. destruct (nonempty sql); [|reflexivity].
  rewrite (array_pass_fixed sql rplmts Ha).
  rewrite guard_passes_fixed by exact Hm. reflexivity.
Qed.

(** * Plain text *)

Lemma plain_app x y : plain (x ++ y) = plain x && plain y.
Proof. apply forallb_app. Qed.

Lemma plain_no_marker s : forallb not_open s = true -> has_marker s = false.
Proof.
  induction s as [|a s IH]; [reflexivity|].
  cbn [forallb has_marker]. intros H. apply andb_true_iff in H. destruct H as [Ha Hs].
  destruct s as [|b s']; [reflexivity|].
  rewrite (IH Hs). unfold not_open in Ha. apply negb_true_iff in Ha. rewrite Ha. reflexivity.
Qed.

Lemma plain_not_open s : plain s = true -> forallb not_open s = true.
Proof.
  unfold plain. rewrite !forallb_forall. intros H a Ha.
  apply H in Ha. apply andb_true_iff in Ha. tauto.
Qed.

Lemma plain_not_colon s : plain s = true -> forallb not_colon s = true.
Proof.
  unfold plain. rewrite !forallb_forall. intros H a Ha.
  apply H in Ha. apply andb_true_iff in Ha. tauto.
Qed.

Lemma token_at_not_colon a s : not_colon a = true -> token_at (a :: s) = None.
Proof.
  unfold not_colon, token_at. intros H. apply negb_true_iff in H. rewrite H. reflexivity.
Qed.

(** Without a colon there is no token, and the array pass copies the text. *)
Lemma array_pass_no_colon s rplmts :
  forallb not_colon s = true ->
  replace true sqlArrayRx sqlArrayRpl s rplmts = (s, rplmts).
Proof.
  intros H. apply replace_from_none. intros x y ->.
  rewrite exec_sqlArrayRx. rewrite forallb_app in H. apply andb_true_iff in H.
  destruct H as [_ H]. destruct y as [|a y]; [reflexivity|].
  cbn [forallb] in H. apply andb_true_iff in H. destruct H as [Ha _].
  rewrite (token_at_not_colon a y Ha). reflexivity.
Qed.

Lemma array_pass_prefix x y rplmts :
  forallb not_colon x = true ->
  replace_from true sqlArrayRx sqlArrayRpl (x ++ y) 0 rplmts =
  (x ++ fst (replace_from true sqlArrayRx sqlArrayRpl y 0 rplmts),
   snd (replace_from true sqlArrayRx sqlArrayRpl y 0 rplmts)).
Proof.
  intros H. apply replace_from_app_none. intros x1 a x2 ->.
  rewrite exec_sqlArrayRx. rewrite forallb_app in H. apply andb_true_iff in H.
  destruct H as [_ H]. cbn [forallb] in H. apply andb_true_iff in H. destruct H as [Ha _].
  rewrite (token_at_not_colon a _ Ha). reflexivity.
Qed.

(** * The token [:ids] with three values *)


(** * Pieces of the guard patterns *)

Lemma cmatch_CR icase a : cmatch icase (CChar CR) a = ascii_eqb a CR.
Proof. destruct icase; all_chars a. Qed.

Lemma cmatch_LF icase a : cmatch icase (CChar LF) a = ascii_eqb a LF.
Proof. destruct icase; all_chars a. Qed.

Lemma cmatch_dash icase a : cmatch icase (CChar "-") a = ascii_eqb a "-".
Proof. destruct icase; all_chars a. Qed.

Lemma cmatch_any icase a : cmatch icase (CUnion CNotSpace CSpace) a = true.
Proof. cbn [cmatch]. destruct (is_space a); reflexivity. Qed.

(** [cl?] on a character set *)
Lemma m_opt_class icase cl s p c k :
  m icase (opt (RChar cl)) s p c k =
  match s with
  | a :: s' => if cmatch icase cl a then orelse (k s' (S p) c) (k s p c) else k s p c
  | [] => k s p c
  end.
Proof.
  unfold opt. rewrite m_rep. change (0 =? 0)%nat with true.
  cbn [Nat.ltb Nat.leb andb m Nat.pred pred_max].
  destruct s as [|a s']; [reflexivity|].
  destruct (cmatch icase cl a); [|reflexivity].
  rewrite succ_eqb. reflexivity.
Qed.

(** [cl{0,2}] on a character set *)
Lemma m_upto2_class icase cl s p c k :
  m icase (upto 2 (RChar cl)) s p c k =
  match s with
  | a :: s' =>
      if cmatch icase cl a
      then orelse (m icase (opt (RChar cl)) s' (S p) c k) (k s p c)
      else k s p c
  | [] => k s p c
  end.
Proof.
  unfold upto. rewrite m_rep. change (0 =? 0)%nat with true.
  cbn [Nat.ltb Nat.leb andb m Nat.pred pred_max].
  destruct s as [|a s']; [reflexivity|].
  destruct (cmatch icase cl a); [|reflexivity].
  rewrite succ_eqb. reflexivity.
Qed.

(** [(?:\r?\n|\n)*] takes nothing where the text does not start with a line
    break. *)
Lemma m_linebreaks_skip icase s p c k :
  no_leading_break s = true -> m icase linebreaks s p c k = k s p c.
Proof.
  intros H. unfold linebreaks, star. rewrite m_rep. change (0 =? 0)%nat with true.
  cbn [Nat.ltb Nat.leb andb m Nat.pred pred_max]. unfold chr. rewrite m_opt_class.
  destruct s as [|a s']; [reflexivity|].
  cbn [no_leading_break] in H. unfold is_linebreak in H.
  apply negb_true_iff, orb_false_iff in H. destruct H as [H1 H2].
  cbn [m]. rewrite cmatch_CR, cmatch_LF, H1, H2. reflexivity.
Qed.

(** [[\S\s]*?] stops at the first place where the rest of the pattern
    matches. *)
Lemma m_lazy_any icase x : forall y p c k res,
  (forall x1 a x2, x = x1 ++ a :: x2 -> k (a :: x2 ++ y) (p + length x1) c = None) ->
  k y (p + length x) c = Some res ->
  m icase lazy_any (x ++ y) p c k = Some res.
Proof.
  induction x as [|a x IH]; intros y p c k res H E; unfold lazy_any, lazy_star in *;
    rewrite m_star_class.
  - cbn [app length] in *. rewrite Nat.add_0_r in E.
    destruct y as [|b y]; [exact E|]. rewrite cmatch_any, E. reflexivity.
  - cbn [app length] in *. rewrite cmatch_any.
    pose proof (H [] a x eq_refl) as H0. cbn [length] in H0. rewrite Nat.add_0_r in H0.
    rewrite H0. cbn [orelse]. apply IH.
    + intros x1 b x2 ->. specialize (H (a :: x1) b x2 eq_refl).
      cbn [length] in H. rewrite Nat.add_succ_r in H. exact H.
    + rewrite Nat.add_succ_r in E. exact E.
Qed.

(** * Dashes before a bracket *)

Lemma lang_dashes icase x : lang icase dashes x -> forallb is_dash x = true.
Proof.
  unfold dashes, upto. generalize 0%nat (Some 2%nat).
  intros mn mx H. remember (RRep true mn mx (chr "-")) as r eqn:Er.
  revert mn mx Er.
  induction H; intros mn0 mx0 Er; try discriminate.
  - reflexivity.
  - injection Er as -> -> -> ->.
    rewrite forallb_app. rewrite (IHlang2 _ _ eq_refl), andb_true_r.
    inversion H; subst. rewrite cmatch_dash in *. cbn [forallb is_dash].
    unfold is_dash. match goal with H : ascii_eqb _ _ = true |- _ => rewrite H end. reflexivity.
Qed.

Lemma first_open_unique (x y u v : text) :
  forallb not_open x = true -> forallb not_open y = true ->
  x ++ "["%char :: u = y ++ "["%char :: v -> x = y /\ u = v.
Proof.
  revert y. induction x as [|a x IH]; intros y Hx Hy E.
  - destruct y as [|b y]; [injection E as ->; auto|].
    injection E as Eb _. subst b. discriminate Hy.
  - destruct y as [|b y].
    + injection E as Ea _. subst a. discriminate Hx.
    + injection E as <- E. cbn [forallb] in Hx, Hy.
      apply andb_true_iff in Hx, Hy. destruct Hx as [_ Hx], Hy as [_ Hy].
      destruct (IH y Hx Hy E) as [-> ->]. auto.
Qed.

Lemma dashes_not_open x : forallb is_dash x = true -> forallb not_open x = true.
Proof.
  rewrite !forallb_forall. intros H a Ha. apply H in Ha.
  unfold is_dash in Ha. apply ascii_eqb_eq in Ha. subst a. reflexivity.
Qed.

Lemma last_dash x : x <> [] -> forallb is_dash x = true -> is_dash (List.last x " "%char) = true.
Proof.
  induction x as [|a x IH]; [contradiction|].
  intros _ H. cbn [forallb] in H. apply andb_true_iff in H. destruct H as [Ha Hx].
  destruct x as [|b x]; [exact Ha|]. apply IH; [discriminate|exact Hx].
Qed.

(** * Markers of one kind *)

Lemma has_open_cons d a s : has_open d s = true -> has_open d (a :: s) = true.
Proof. intros H. cbn [has_open]. rewrite H. apply orb_true_r. Qed.

Lemma has_open_app d x y : has_open d y = true -> has_open d (x ++ y) = true.
Proof. intros H. induction x as [|a x IH]; [exact H|]. apply has_open_cons, IH. Qed.

Lemma has_open_suffix d x y : has_open d (x ++ y) = false -> has_open d y = false.
Proof.
  intros H. destruct (has_open d y) eqn:E; [|reflexivity].
  rewrite (has_open_app d x y E) in H. discriminate.
Qed.

Lemma has_open_skip d x y : forallb not_open x = true -> has_open d (x ++ y) = has_open d y.
Proof.
  induction x as [|a x IH]; intros H; [reflexivity|].
  cbn [forallb] in H. apply andb_true_iff in H. destruct H as [Ha Hx].
  cbn [app has_open]. unfold not_open in Ha. apply negb_true_iff in Ha.
  rewrite Ha. cbn [andb orb]. apply IH, Hx.
Qed.

Lemma lang_chr_nocase icase d x :
  (forall a, cmatch icase (CChar d) a = ascii_eqb a d) ->
  lang icase (chr d) x -> x = [d].
Proof.
  intros Hd H. inversion H; subst. rewrite Hd in *.
  match goal with H : ascii_eqb _ _ = true |- _ => apply ascii_eqb_eq in H; subst end.
  reflexivity.
Qed.

Lemma lang_guard_open icase d r1 r2 r4 x :
  (forall a, cmatch icase (CChar d) a = ascii_eqb a d) ->
  lang icase (RSeq r1 (RSeq r2 (RSeq (RSeq (chr "[") (RSeq (chr "[") (chr d))) r4))) x ->
  forall rest, has_open d (x ++ rest) = true.
Proof.
  intros Hd H rest.
  inversion H as [| |? ? x1 y1 _ H1| | | | | |]; subst; clear H.
  inversion H1 as [| |? ? x2 y2 _ H2| | | | | |]; subst; clear H1.
  inversion H2 as [| |? ? x3 y3 H3 _| | | | | |]; subst; clear H2.
  inversion H3 as [| |? ? x4 y4 H4 H5| | | | | |]; subst; clear H3.
  inversion H5 as [| |? ? x5 y5 H6 H7| | | | | |]; subst; clear H5.
  apply lang_open in H4; [|reflexivity]. apply lang_open in H6; [|reflexivity].
  apply (lang_chr_nocase _ _ _ Hd) in H7. subst.
  rewrite <- !app_assoc. apply has_open_app, has_open_app.
  cbn [app has_open]. rewrite !ascii_eqb_refl. reflexivity.
Qed.

Lemma cmatch_bang a : cmatch false (CChar "!") a = ascii_eqb a "!".
Proof. reflexivity. Qed.

Lemma cmatch_quest a : cmatch false (CChar "?") a = ascii_eqb a "?".
Proof. reflexivity. Qed.

Lemma exec_sqlDiaRx_open s : has_open "!" s = false -> exec false sqlDiaRx s = None.
Proof.
  intros H. destruct (exec false sqlDiaRx s) as [[[rest n] c]|] eqn:E; [|reflexivity].
  apply exec_sound in E. destruct E as (x & -> & L & _).
  rewrite (lang_guard_open false "!" _ _ _ _ cmatch_bang L) in H. discriminate.
Qed.

Lemma exec_sqlFragRx_open s : has_open "?" s = false -> exec false sqlFragRx s = None.
Proof.
  intros H. destruct (exec false sqlFragRx s) as [[[rest n] c]|] eqn:E; [|reflexivity].
  apply exec_sound in E. destruct E as (x & -> & L & _).
  rewrite (lang_guard_open false "?" _ _ _ _ cmatch_quest L) in H. discriminate.
Qed.

Lemma dialect_pass_fixed env s :
  has_open "!" s = false -> replace_pure false sqlDiaRx (sqlDiaRpl env) s = s.
Proof.
  intros H. apply replace_pure_none. intros x y ->.
  apply exec_sqlDiaRx_open. eapply has_open_suffix, H.
Qed.

Lemma fragment_pass_fixed keys s :
  has_open "?" s = false -> replace_pure false sqlFragRx (sqlFragRpl keys) s = s.
Proof.
  intros H. apply replace_pure_none. intros x y ->.
  apply exec_sqlFragRx_open. eapply has_open_suffix, H.
Qed.

(** * The head and the tail of the version pattern *)


Lemma last_app_cons (x1 x2 : text) a d : List.last (x1 ++ a :: x2) d = List.last (a :: x2) d.
Proof.
  induction x1 as [|b x1 IH]; [reflexivity|].
  cbn [app]. change (List.last (b :: x1 ++ a :: x2) d) with
    (match x1 ++ a :: x2 with [] => b | _ :: _ => List.last (x1 ++ a :: x2) d end).
  destruct (x1 ++ a :: x2) eqn:E; [destruct x1; discriminate|]. exact IH.
Qed.

(** * Text without brackets *)

Lemma has_open_plain d s : forallb not_open s = true -> has_open d s = false.
Proof. intros H. rewrite <- (app_nil_r s). rewrite has_open_skip by exact H. reflexivity. Qed.

(** * What the version pattern consumes *)

Lemma lang_class icase cl x : forall g mn mx,
  lang icase (RRep g mn mx (RChar cl)) x -> forallb (cmatch icase cl) x = true.
Proof.
  intros g mn mx H. remember (RRep g mn mx (RChar cl)) as r eqn:Er.
  revert mn mx Er. induction H; intros mn0 mx0 Er; try discriminate.
  - reflexivity.
  - injection Er as -> -> -> ->. rewrite forallb_app, (IHlang2 _ _ eq_refl), andb_true_r.
    inversion H; subst. cbn [forallb]. rewrite andb_true_r. assumption.
Qed.


Lemma lang_lit_chars icase t : forall x,
  lang icase (lit_chars t) x -> Forall2 (fun a b => cmatch icase (CChar b) a = true) x t.
Proof.
  induction t as [|b t IH]; intros x H.
  - inversion H; subst. constructor.
  - destruct t as [|b' t'].
    + inversion H; subst. constructor; [assumption|constructor].
    + change (lit_chars (b :: b' :: t')) with (RSeq (chr b) (lit_chars (b' :: t'))) in H.
      inversion H as [| |? ? x1 y1 H1 H2| | | | | |]; subst.
      inversion H1; subst. constructor; [assumption|]. apply IH, H2.
Qed.

Lemma lang_linebreaks icase x : lang icase linebreaks x -> forallb is_linebreak x = true.
Proof.
  unfold linebreaks, star. generalize 0%nat (@None nat). intros mn mx H.
  remember (RRep true mn mx _) as r eqn:Er.
  revert mn mx Er. induction H; intros mn0 mx0 Er; try discriminate.
  - reflexivity.
  - injection Er as -> -> -> ->. rewrite forallb_app, (IHlang2 _ _ eq_refl), andb_true_r.
    clear IHlang1 IHlang2 H0.
    assert (HLF : forall z, lang icase (chr LF) z -> forallb is_linebreak z = true).
    { intros z Hz. inversion Hz; subst. rewrite cmatch_LF in *. cbn [forallb is_linebreak].
      unfold is_linebreak.
      match goal with H : ascii_eqb _ _ = true |- _ => rewrite H end.
      rewrite orb_true_r. reflexivity. }
    inversion H as [| | |? ? ? H1|? ? ? H1| | | |]; subst.
    + inversion H1 as [| |? ? x1 y1 H2 H3| | | | | |]; subst.
      rewrite forallb_app, (HLF _ H3), andb_true_r.
      apply lang_class in H2. clear -H2.
      induction x1 as [|a x1 IH]; [reflexivity|]. cbn [forallb] in *.
      apply andb_true_iff in H2. destruct H2 as [Ha Hx]. rewrite (IH Hx), andb_true_r.
      rewrite cmatch_CR in Ha. unfold is_linebreak. rewrite Ha. reflexivity.
    + apply HLF, H1.
Qed.





(** * Parts of a text *)


(** * Statement functions *)


(** Without [returnErrors] in the options, [DBS.exec] never hands an error
    back as a value. *)
Lemma DBS_exec_raises dbs fpth sql opts frags st e :
  eo_returnErrors opts = false ->
  fst (DBS_exec dbs fpth sql opts frags st) <> Resolved (ErrorValue e).
Proof.
  intros H. unfold DBS_exec. destruct (frag _ _ _ _) as [sqlf rplmts].
  destruct (dbx_exec _ _); [|rewrite H]; discriminate.
Qed.

(** The options a statement function builds for [DBS.exec] never hold
    [returnErrors]: whatever the caller asks for, a failure is raised. *)
Lemma execSqlPublic_never_returns_error sqls h opts frags st e :
  fst (execSqlPublic sqls h opts frags st) <> Resolved (ErrorValue e).
Proof.
  unfold execSqlPublic.
  destruct (negb (truthy_string (h_crud h)) && _).
  { unfold free_identifier. cbn [assoc node_globals]. discriminate. }
  destruct (has_invalid_date _); [discriminate|].
  destruct opts as [o|]; [|discriminate].
  unfold stmt_method.
  destruct (h_source h) as [sql|id].
  - apply DBS_exec_raises. reflexivity.
  - destruct (cs_cache st !! id) as [[|a item]|].
    + destruct (readSqlFile _ _ _); [apply DBS_exec_raises; reflexivity|discriminate].
    + apply DBS_exec_raises. reflexivity.
    + destruct (readSqlFile _ _ _); [apply DBS_exec_raises; reflexivity|discriminate].
Qed.

(** * The bind set of a call *)



(** * The lifecycle batch *)

Lemma queue_all_default sqls : forall i ax,
  queue_all no_opts [] i sqls ax = Resolved (ax ++ default_tasks i sqls).
Proof.
  induction sqls as [|s rest IH]; intros i ax; cbn [queue_all default_tasks].
  - rewrite app_nil_r. reflexivity.
  - cbn [nonempty_list andb]. unfold queue. cbn [oo_connections no_opts oo_executeInSeries].
    rewrite IH, <- app_assoc. reflexivity.
Qed.

Lemma default_tasks_names sqls : forall i,
  map t_name (default_tasks i sqls) = map connectionName sqls.
Proof.
  induction sqls as [|s rest IH]; intros i; cbn [default_tasks map]; [reflexivity|].
  rewrite IH. reflexivity.
Qed.

Lemma default_tasks_valid sqls : forall i n,
  i + length sqls <= n -> Forall (fun t => t_sqli t < n) (default_tasks i sqls).
Proof.
  induction sqls as [|s rest IH]; intros i n H; cbn [default_tasks]; constructor.
  - cbn [t_sqli length] in *. lia.
  - apply IH. cbn [length] in H. lia.
Qed.

(** A batch that succeeds has stored one result under the name of each
    task. *)
Lemma ax_run_dom fn q : forall sqls rslt r sqls',
  Forall (fun t => t_sqli t < length sqls) q ->
  ax_run fn q sqls rslt = (Resolved r, sqls') ->
  dom r = dom rslt ∪ list_to_set (map t_name q) /\ length sqls' = length sqls.
Proof.
  induction q as [|t q IH]; intros sqls rslt r sqls' Hv H; cbn [ax_run] in H.
  - injection H as <- <-. split; [|reflexivity]. cbn [map list_to_set].
    rewrite (right_id_L ∅ (∪)). reflexivity.
  - inversion Hv as [|? ? Ht Hq]; subst.
    destruct (sqls !! t_sqli t) as [sqli|] eqn:El.
    2:{ apply lookup_ge_None in El. lia. }
    destruct (SQLS_call fn sqli) as [[v|e] sqli']; [|discriminate].
    apply IH in H.
    + destruct H as [Hd Hl]. rewrite length_insert in Hl. split; [|exact Hl].
      rewrite Hd, dom_insert_L. cbn [map list_to_set].
      rewrite (comm_L (∪) {[t_name t]} (dom rslt)), <- (assoc_L (∪)). reflexivity.
    + rewrite length_insert. exact Hq.
Qed.

(** With [opts.connections] set, queueing the first connection of a batch
    raises, whatever the operation and the override are. *)
Lemma operation_connections_raise mgr fn conns series sqli rest :
  mgr_sqls mgr = sqli :: rest ->
  operation mgr fn
    (Some {| oo_connections := Some conns; oo_executeInSeries := series |}) [] =
  (Rejected (ReferenceError "name is not defined"), mgr).
Proof. intros H. unfold operation. rewrite H. reflexivity. Qed.

Lemma Manager_init_stores mgr n mgr' :
  Manager_init mgr = (Resolved n, mgr') -> mgr_sqlsCount mgr' = Some n.
Proof.
  unfold Manager_init. destruct (truthy_count _); [discriminate|].
  destruct (operation mgr f_init None []) as [[rslt|e] m1]; [|discriminate].
  intros H. injection H as <- <-. reflexivity.
Qed.

Lemma Manager_init_size mgr n mgr' :
  NoDup (map connectionName (mgr_sqls mgr)) ->
  Manager_init mgr = (Resolved n, mgr') -> n = length (mgr_sqls mgr).
Proof.
  intros Hnd. unfold Manager_init. destruct (truthy_count _); [discriminate|].
  unfold operation. cbn [default]. rewrite queue_all_default. cbn [app].
  destruct (ax_run f_init _ _ _) as [[r|e] sqls'] eqn:E; [|discriminate].
  intros H. injection H as <- _.
  apply ax_run_dom in E; [|apply default_tasks_valid; cbn [Nat.add]; lia].
  destruct E as [Hd _]. rewrite default_tasks_names in Hd.
  rewrite <- size_dom, Hd, dom_empty_L, (left_id_L ∅ (∪)).
  rewrite size_list_to_set by exact Hnd. apply length_map.
Qed.

Lemma Manager_init_twice mgr n :
  mgr_sqlsCount mgr = Some (S n) ->
  Manager_init mgr =
  (Rejected (Error (str (index_text (S n)) +:+ " database(s) already initialized")), mgr).
Proof. intros H. unfold Manager_init. rewrite H. reflexivity. Qed.

(** * Decimal indices *)

Lemma string_of_uint_inj d : forall d',
  NilEmpty.string_of_uint d = NilEmpty.string_of_uint d' -> d = d'.
Proof.
  induction d; intros d'; destruct d'; cbn [NilEmpty.string_of_uint]; intros H;
    try discriminate; try reflexivity; injection H as H; f_equal; auto.
Qed.

Lemma to_uint_nonnil n : Nat.to_uint n <> Decimal.Nil.
Proof.
  intros E. pose proof (Unsigned.to_of (Nat.to_uint n)) as T.
  rewrite Unsigned.of_to, E in T. discriminate T.
Qed.

Lemma string_of_to_uint n :
  NilZero.string_of_uint (Nat.to_uint n) = NilEmpty.string_of_uint (Nat.to_uint n).
Proof.
  pose proof (to_uint_nonnil n) as H. destruct (Nat.to_uint n); [contradiction|..]; reflexivity.
Qed.

Lemma txt_inj s s' : txt s = txt s' -> s = s'.
Proof.
  unfold txt. intros H.
  rewrite <- (string_of_list_ascii_of_string s), <- (string_of_list_ascii_of_string s'), H.
  reflexivity.
Qed.

Lemma str_inj t t' : str t = str t' -> t = t'.
Proof.
  unfold str. intros H.
  rewrite <- (list_ascii_of_string_of_list_ascii t), <- (list_ascii_of_string_of_list_ascii t'), H.
  reflexivity.
Qed.

Lemma txt_str t : txt (str t) = t.
Proof. apply list_ascii_of_string_of_list_ascii. Qed.

Lemma index_text_inj i j : index_text i = index_text j -> i = j.
Proof.
  unfold index_text. rewrite !string_of_to_uint. intros H.
  apply txt_inj, string_of_uint_inj in H.
  apply Unsigned.to_uint_inj, H.
Qed.

Lemma index_text_nonempty i : index_text i <> [].
Proof.
  unfold index_text. rewrite string_of_to_uint. intros H.
  pose proof (to_uint_nonnil i) as Hn.
  destruct (Nat.to_uint i); [contradiction|..]; discriminate H.
Qed.

Lemma index_suffix_inj i j : index_suffix i = index_suffix j -> i = j.
Proof.
  unfold index_suffix. destruct i as [|i], j as [|j]; cbn [Nat.eqb]; intros H.
  - reflexivity.
  - symmetry in H. apply index_text_nonempty in H. contradiction.
  - apply index_text_nonempty in H. contradiction.
  - apply index_text_inj, H.
Qed.

Lemma bind_name_inj key i j : str (bind_name key i) = str (bind_name key j) -> i = j.
Proof.
  unfold bind_name. intros H. apply str_inj, app_inv_head in H.
  apply index_suffix_inj, H.
Qed.

Lemma string_of_uint_digits d : forallb is_digit (txt (NilEmpty.string_of_uint d)) = true.
Proof. induction d; cbn [NilEmpty.string_of_uint txt list_ascii_of_string forallb]; auto. Qed.

Lemma index_suffix_digits i : forallb is_digit (index_suffix i) = true.
Proof.
  unfold index_suffix, index_text. destruct (i =? 0)%nat; [reflexivity|].
  rewrite string_of_to_uint. apply string_of_uint_digits.
Qed.

(** * The array pass on a collection of any size *)

Lemma sqlArrayRpl_loop_text key vals : forall i keys rplmts,
  fst (sqlArrayRpl_loop [":"%char] key vals i keys rplmts) =
  match vals with
  | [] => keys
  | _ => (if nonempty keys then keys ++ txt ", " else []) ++
         sep_by (txt ", ") (map (fun j => ":"%char :: bind_name key j) (seq i (length vals)))
  end.
Proof.
  induction vals as [|v vals IH]; intros i keys rplmts; [reflexivity|].
  cbn [sqlArrayRpl_loop]. rewrite IH. clear IH.
  assert (Hne : nonempty (keys ++ (if nonempty keys then txt ", " else []) ++
                          [":"%char] ++ key ++ index_suffix i) = true).
  { destruct keys; reflexivity. }
  rewrite Hne. cbn [length seq map]. unfold bind_name at 2.
  destruct vals as [|v' vals].
  - cbn [seq map sep_by length]. destruct keys; [reflexivity|].
    cbn [nonempty]. rewrite <- !app_assoc. reflexivity.
  - cbn [length seq map sep_by].
    destruct keys; cbn [nonempty app]; rewrite <- ?app_assoc; cbn [app];
      rewrite <- ?app_assoc; reflexivity.
Qed.

Lemma sqlArrayRpl_loop_other pkey key vals : forall i keys rplmts k,
  (forall j, j < length vals -> k <> str (bind_name key (i + j))) ->
  snd (sqlArrayRpl_loop pkey key vals i keys rplmts) !! k = rplmts !! k.
Proof.
  induction vals as [|v vals IH]; intros i keys rplmts k H; [reflexivity|].
  cbn [sqlArrayRpl_loop]. rewrite IH.
  - rewrite lookup_insert_ne; [reflexivity|].
    specialize (H 0). rewrite Nat.add_0_r in H. intros E. apply H; [cbn [length]; lia|].
    symmetry. exact E.
  - intros j Hj. replace (S i + j) with (i + S j) by lia. apply H. cbn [length]. lia.
Qed.

Lemma sqlArrayRpl_loop_lookup pkey key vals : forall i keys rplmts j v,
  vals !! j = Some v ->
  snd (sqlArrayRpl_loop pkey key vals i keys rplmts) !! str (bind_name key (i + j)) = Some v.
Proof.
  induction vals as [|v0 vals IH]; intros i keys rplmts j v H; [discriminate|].
  cbn [sqlArrayRpl_loop]. destruct j as [|j].
  - injection H as ->. rewrite Nat.add_0_r. rewrite sqlArrayRpl_loop_other.
    + apply lookup_insert_eq.
    + intros j _ E. apply bind_name_inj in E. lia.
  - replace (i + S j) with (S i + j) by lia. apply IH. exact H.
Qed.

Lemma sqlArrayRpl_array key vals mtch rplmts :
  nonempty key = true ->
  rplmts !! str key = Some (JArr vals) ->
  sqlArrayRpl mtch [(2, key); (1, [":"%char])] rplmts =
  (bind_tokens key (length vals), snd (sqlArrayRpl_loop [":"%char] key vals 0 [] rplmts)).
Proof.
  intros Hne Hb. unfold sqlArrayRpl.
  change (cap 1 [(2, key); (1, [":"%char])]) with [":"%char].
  change (cap 2 [(2, key); (1, [":"%char])]) with key.
  rewrite Hne, Hb.
  rewrite (surjective_pairing (sqlArrayRpl_loop _ _ _ _ _ _)).
  rewrite sqlArrayRpl_loop_text.
  destruct vals as [|v vals]; [reflexivity|].
  cbn [nonempty app length bind_tokens].
  set (t := sep_by _ _).
  assert (Ht : nonempty t = true).
  { subst t. cbn [seq map]. destruct (map _ _); reflexivity. }
  rewrite Ht. reflexivity.
Qed.

(** * The token of a bind *)

Lemma take_while_app f (x y : text) :
  forallb f x = true -> match y with a :: _ => f a = false | [] => True end ->
  take_while f (x ++ y) = x.
Proof.
  intros Hx Hy. induction x as [|a x IH]; cbn [app take_while].
  - destruct y as [|b y]; [reflexivity|]. cbn [take_while]. rewrite Hy. reflexivity.
  - cbn [forallb] in Hx. apply andb_true_iff in Hx. destruct Hx as [-> Hx].
    rewrite (IH Hx). reflexivity.
Qed.

Lemma drop_while_app f (x y : text) :
  forallb f x = true -> match y with a :: _ => f a = false | [] => True end ->
  drop_while f (x ++ y) = y.
Proof.
  intros Hx Hy. induction x as [|a x IH]; cbn [app drop_while].
  - destruct y as [|b y]; [reflexivity|]. cbn [drop_while]. rewrite Hy. reflexivity.
  - cbn [forallb] in Hx. apply andb_true_iff in Hx. destruct Hx as [-> Hx].
    exact (IH Hx).
Qed.

Lemma no_leading_letter_head post :
  no_leading_letter post = true ->
  match post with a :: _ => is_letter a = false | [] => True end.
Proof. destruct post as [|a post]; [trivial|]. cbn. apply negb_true_iff. Qed.

Lemma token_at_key key post :
  nonempty key = true -> forallb is_letter key = true -> no_leading_letter post = true ->
  token_at (":"%char :: key ++ post) = Some (key, post).
Proof.
  intros Hne Hk Hp. unfold token_at. cbn [ascii_eqb code nat_of_ascii].
  change (ascii_eqb ":" ":") with true. cbn [andb].
  rewrite (take_while_app is_letter key post Hk (no_leading_letter_head post Hp)).
  rewrite (drop_while_app is_letter key post Hk (no_leading_letter_head post Hp)).
  rewrite Hne. reflexivity.
Qed.

Lemma letter_not_open a : is_letter a = true -> not_open a = true.
Proof. all_chars a. Qed.

Lemma digit_not_open a : is_digit a = true -> not_open a = true.
Proof. all_chars a. Qed.

Lemma forallb_weaken (f g : ascii -> bool) (s : text) :
  (forall a, f a = true -> g a = true) -> forallb f s = true -> forallb g s = true.
Proof. rewrite !forallb_forall. auto. Qed.

Lemma bind_name_not_open key i :
  forallb is_letter key = true -> forallb not_open (bind_name key i) = true.
Proof.
  intros H. unfold bind_name. rewrite forallb_app.
  rewrite (forallb_weaken _ _ _ letter_not_open H).
  rewrite (forallb_weaken _ _ _ digit_not_open (index_suffix_digits i)). reflexivity.
Qed.

Lemma sep_by_not_open (l : list text) :
  Forall (fun x => forallb not_open x = true) l -> forallb not_open (sep_by (txt ", ") l) = true.
Proof.
  induction 1 as [|x l Hx Hl IH]; [reflexivity|].
  cbn [sep_by]. destruct l as [|y l]; [exact Hx|].
  rewrite !forallb_app, Hx, IH. reflexivity.
Qed.

Lemma bind_tokens_not_open key n :
  forallb is_letter key = true -> forallb not_open (bind_tokens key n) = true.
Proof.
  intros H. unfold bind_tokens. destruct n as [|n].
  - cbn [forallb]. rewrite (forallb_weaken _ _ _ letter_not_open H). reflexivity.
  - apply sep_by_not_open. apply Forall_map, Forall_forall. intros i _.
    cbn [forallb]. rewrite (bind_name_not_open key i H). reflexivity.
Qed.

(** [frag] on a text with one token that names a collection. *)
Lemma frag_array env keys rplmts pre key post vals :
  nonempty key = true -> forallb is_letter key = true ->
  rplmts !! str key = Some (JArr vals) ->
  plain pre = true -> plain post = true -> no_leading_letter post = true ->
  frag env (pre ++ ":"%char :: key ++ post) keys rplmts =
  (pre ++ bind_tokens key (length vals) ++ post,
   snd (sqlArrayRpl_loop [":"%char] key vals 0 [] rplmts)).
Proof.
  intros Hne Hk Hb Hpre Hpost Hend. unfold frag.
  assert (Hn : nonempty (pre ++ ":"%char :: key ++ post) = true) by (destruct pre; reflexivity).
  rewrite Hn. unfold replace.
  rewrite (array_pass_prefix pre _ rplmts (plain_not_colon _ Hpre)).
  assert (Ex : exec true sqlArrayRx (":"%char :: key ++ post) =
               Some (post, S (length key), [(2, key); (1, [":"%char])])).
  { rewrite exec_sqlArrayRx, (token_at_key key post Hne Hk Hend). reflexivity. }
  rewrite (replace_from_match true sqlArrayRx sqlArrayRpl _ _ _ _ rplmts Ex).
  rewrite (sqlArrayRpl_array key vals _ rplmts Hne Hb). cbn [fst snd].
  pose proof (array_pass_no_colon post (snd (sqlArrayRpl_loop [":"%char] key vals 0 [] rplmts))
                (plain_not_colon _ Hpost)) as Hp.
  unfold replace in Hp. rewrite Hp. cbn [fst snd].
  rewrite guard_passes_fixed; [reflexivity|].
  apply plain_no_marker. rewrite !forallb_app.
  rewrite (plain_not_open _ Hpre), (plain_not_open _ Hpost), (bind_tokens_not_open key _ Hk).
  reflexivity.
Qed.

(** * The keys of the tokens *)

Lemma take_while_forallb f (s : text) : forallb f (take_while f s) = true.
Proof.
  induction s as [|a s IH]; [reflexivity|]. cbn [take_while].
  destruct (f a) eqn:E; [|reflexivity]. cbn [forallb]. rewrite E, IH. reflexivity.
Qed.

Lemma token_at_letters s key rest :
  token_at s = Some (key, rest) -> forallb is_letter key = true.
Proof.
  unfold token_at. destruct s as [|a s1]; [discriminate|].
  destruct (ascii_eqb a ":" && nonempty (take_while is_letter s1)); [|discriminate].
  intros H. injection H as <- _. apply take_while_forallb.
Qed.

(** The key of a token is made of letters only. *)
Lemma token_keys_from s : forall skip,
  Forall (fun k => forallb is_letter (txt k) = true)
         (snd (replace_from true sqlArrayRx collect_key s skip [])).
Proof.
  induction s as [|a s IH]; intros skip.
  - destruct skip; cbn [replace_from]; [|constructor].
    rewrite exec_sqlArrayRx. constructor.
  - destruct skip; cbn [replace_from]; [|apply IH].
    rewrite exec_sqlArrayRx.
    destruct (token_at (a :: s)) as [[key rest]|] eqn:Et.
    + unfold collect_key at 1. cbn iota beta.
      change (cap 2 [(2, key); (1, [":"%char])]) with key.
      assert (Hk : forallb is_letter (txt (str key)) = true).
      { rewrite txt_str. eapply token_at_letters, Et. }
      destruct (S (length key) =? 0)%nat.
      * rewrite (surjective_pairing (replace_from _ _ _ s 0 _)). cbn [snd].
        rewrite collect_keys_acc. apply Forall_app. split; [|apply IH].
        cbn [app]. constructor; [exact Hk|constructor].
      * rewrite (surjective_pairing (replace_from _ _ _ s _ _)). cbn [snd].
        rewrite collect_keys_acc. apply Forall_app. split; [|apply IH].
        cbn [app]. constructor; [exact Hk|constructor].
    + rewrite (surjective_pairing (replace_from _ _ _ s 0 [])). cbn [snd]. apply IH.
Qed.

Lemma array_free_letters sql rplmts :
  (forall k vals, rplmts !! k = Some (JArr vals) -> forallb is_letter (txt k) = false) ->
  array_free sql rplmts = true.
Proof.
  intros H. unfold array_free, token_keys, replace. apply forallb_forall.
  intros k Hk. apply negb_true_iff. unfold is_array_bind.
  destruct (rplmts !! k) as [[| | | |vals]|] eqn:E; try reflexivity.
  pose proof (token_keys_from sql 0) as Hf. rewrite Forall_forall in Hf.
  specialize (H k vals E). rewrite Hf in H; [discriminate|].
  apply list_elem_of_In. exact Hk.
Qed.

(** * Pieces of a pattern that match at the first try *)

Ltac at_pos H :=
  first [ exact H
        | rewrite <- H; f_equal; rewrite ?length_app; cbn [length]; lia ].

Lemma take_span p (x y : text) : take (p + length x - p) (x ++ y) = x.
Proof. replace (p + length x - p) with (length x) by lia. apply take_app_length. Qed.

Lemma commits_seq icase r1 r2 x1 x2 y c c1 c2 :
  commits icase r1 x1 (x2 ++ y) c c1 -> commits icase r2 x2 y c1 c2 ->
  commits icase (RSeq r1 r2) (x1 ++ x2) y c c2.
Proof.
  intros H1 H2 p k res Hk. cbn [m]. rewrite <- app_assoc. apply H1. apply H2.
  rewrite length_app, Nat.add_assoc in Hk. exact Hk.
Qed.

Lemma commits_seq_nil icase r1 r2 x2 y c c1 c2 :
  commits icase r1 [] (x2 ++ y) c c1 -> commits icase r2 x2 y c1 c2 ->
  commits icase (RSeq r1 r2) x2 y c c2.
Proof. apply (commits_seq icase r1 r2 [] x2). Qed.

Lemma commits_group icase n r x y c c' :
  commits icase r x y c c' -> commits icase (RGroup n r) x y c (setcap n x c').
Proof.
  intros H p k res Hk. cbn [m]. apply H. rewrite take_span. exact Hk.
Qed.

Lemma cmatch_same icase a : cmatch icase (CChar a) a = true.
Proof. destruct icase; cbn [cmatch]; apply ascii_eqb_refl. Qed.

Lemma commits_lit icase cl y c : cl <> [] -> commits icase (lit_chars cl) cl y c c.
Proof.
  intros Hne p k res Hk. revert p Hk.
  induction cl as [|a cl IH]; [contradiction|]. intros p Hk.
  destruct cl as [|b cl].
  - cbn [lit_chars app]. unfold chr. cbn [m]. rewrite cmatch_same.
    at_pos Hk.
  - change (lit_chars (a :: b :: cl)) with (RSeq (chr a) (lit_chars (b :: cl))).
    unfold chr. cbn [m app]. rewrite cmatch_same. apply IH; [discriminate|].
    at_pos Hk.
Qed.

Lemma commits_star_class icase cl x y c :
  forallb (cmatch icase cl) x = true -> stops (cmatch icase cl) y = true ->
  commits icase (star (RChar cl)) x y c c.
Proof.
  intros Hx Hy p k res Hk. revert p Hk.
  induction x as [|a x IH]; intros p Hk; unfold star; rewrite m_star_class.
  - cbn [app length] in *. rewrite Nat.add_0_r in Hk.
    destruct y as [|b y]; [exact Hk|]. cbn [stops] in Hy. apply negb_true_iff in Hy.
    rewrite Hy. exact Hk.
  - cbn [forallb] in Hx. apply andb_true_iff in Hx. destruct Hx as [Ha Hx].
    cbn [app]. rewrite Ha. fold (star (RChar cl)). rewrite (IH Hx); [reflexivity|].
    at_pos Hk.
Qed.

Lemma commits_plus_class icase cl x y c :
  x <> [] -> forallb (cmatch icase cl) x = true -> stops (cmatch icase cl) y = true ->
  commits icase (plus (RChar cl)) x y c c.
Proof.
  intros Hne Hx Hy p k res Hk. destruct x as [|a x]; [contradiction|].
  rewrite m_plus_class. cbn [forallb] in Hx. apply andb_true_iff in Hx.
  destruct Hx as [Ha Hx]. cbn [app]. rewrite Ha.
  apply (commits_star_class icase cl x y c Hx Hy).
  at_pos Hk.
Qed.

Lemma commits_opt_skip icase cl y c :
  stops (cmatch icase cl) y = true -> commits icase (opt (RChar cl)) [] y c c.
Proof.
  intros Hy p k res Hk. rewrite m_opt_class. cbn [app length] in *.
  rewrite Nat.add_0_r in Hk. destruct y as [|b y]; [exact Hk|].
  cbn [stops] in Hy. apply negb_true_iff in Hy. rewrite Hy. exact Hk.
Qed.

Lemma commits_opt_take icase cl a y c :
  cmatch icase cl a = true -> commits icase (opt (RChar cl)) [a] y c c.
Proof.
  intros Ha p k res Hk. rewrite m_opt_class. cbn [app length] in *.
  rewrite Ha. replace (S p) with (p + 1) by lia. rewrite Hk. reflexivity.
Qed.

Lemma commits_dashes_skip icase y c :
  stops is_dash y = true -> commits icase dashes [] y c c.
Proof.
  intros Hy p k res Hk. unfold dashes, chr. rewrite m_upto2_class.
  cbn [app length] in *. rewrite Nat.add_0_r in Hk.
  destruct y as [|b y]; [exact Hk|].
  cbn [stops] in Hy. apply negb_true_iff in Hy. unfold is_dash in Hy.
  rewrite cmatch_dash, Hy. exact Hk.
Qed.

Lemma forallb_dashes_of n : forallb is_dash (dashes_of n) = true.
Proof. induction n as [|n IH]; [reflexivity|]. exact IH. Qed.

(** [-{0,2}] takes the dashes in front of a marker. *)
Lemma commits_dashes_take icase n y c :
  n <= 2 -> stops is_dash y = true -> commits icase dashes (dashes_of n) y c c.
Proof.
  intros Hn Hy. destruct n as [|[|[|n]]]; [apply commits_dashes_skip, Hy| | |lia].
  - intros p k res Hk. unfold dashes, chr. rewrite m_upto2_class.
    cbn [dashes_of repeat length] in Hk.
    cbn [dashes_of repeat app]. rewrite cmatch_dash. change (ascii_eqb "-" "-") with true.
    cbn iota.
    assert (E : m icase (opt (RChar (CChar "-"))) y (S p) c k = Some res).
    { apply (commits_opt_skip icase (CChar "-") y c); [|at_pos Hk].
      destruct y as [|b y]; [reflexivity|]. cbn [stops] in *. rewrite cmatch_dash. exact Hy. }
    rewrite E. reflexivity.
  - intros p k res Hk. unfold dashes, chr. rewrite m_upto2_class.
    cbn [dashes_of repeat length] in Hk.
    cbn [dashes_of repeat app]. rewrite cmatch_dash. change (ascii_eqb "-" "-") with true.
    cbn iota.
    assert (E : m icase (opt (RChar (CChar "-"))) ("-"%char :: y) (S p) c k = Some res).
    { apply (commits_opt_take icase (CChar "-") "-" y c); [apply cmatch_same|at_pos Hk]. }
    rewrite E. reflexivity.
Qed.

Lemma commits_linebreaks icase n y c :
  no_leading_break y = true -> commits icase linebreaks (breaks n) y c c.
Proof.
  intros Hy p k res Hk. revert p Hk. induction n as [|n IH]; intros p Hk.
  - cbn [breaks repeat app length] in *. rewrite Nat.add_0_r in Hk.
    rewrite m_linebreaks_skip by exact Hy. exact Hk.
  - cbn [breaks repeat app]. unfold linebreaks, star. rewrite m_rep.
    change (0 =? 0)%nat with true. cbn [Nat.ltb Nat.leb andb m Nat.pred pred_max].
    unfold chr at 1. rewrite m_opt_class. rewrite cmatch_CR.
    change (ascii_eqb LF CR) with false. cbn iota. unfold chr at 1. cbn [m].
    rewrite cmatch_LF. change (ascii_eqb LF LF) with true. cbn iota.
    rewrite succ_eqb. fold (breaks n).
    change (RepeatMatcher _ (S (0 + length (breaks n ++ y))) true 0 None
              (breaks n ++ y) (S p) c k)
      with (m icase linebreaks (breaks n ++ y) (S p) c k).
    rewrite (IH (S p)); [reflexivity|].
    cbn [breaks repeat] in Hk. unfold breaks. at_pos Hk.
Qed.

Lemma commits_neglook icase r y c :
  (forall p c0, m icase r y p c0 (fun s1 p1 c1 => Some (s1, p1, c1)) = None) ->
  commits icase (RNegLook r) [] y c c.
Proof.
  intros H p k res Hk. cbn [m app]. rewrite H.
  cbn [length] in Hk. rewrite Nat.add_0_r in Hk. exact Hk.
Qed.

(** A literal that starts with a bracket needs one. *)
Lemma lit_open_none icase cl s p c K :
  (forall z, s <> "["%char :: z) -> m icase (lit_chars ("["%char :: cl)) s p c K = None.
Proof.
  intros H. destruct s as [|a s]; [destruct cl; reflexivity|].
  assert (Ha : cmatch icase (CChar "[") a = false).
  { rewrite cmatch_open. apply ascii_eqb_neq. intros ->. apply (H s). reflexivity. }
  destruct cl as [|b cl].
  - cbn [lit_chars]. unfold chr. cbn [m]. rewrite Ha. reflexivity.
  - change (lit_chars ("["%char :: b :: cl)) with (RSeq (chr "[") (lit_chars (b :: cl))).
    unfold chr. cbn [m]. rewrite Ha. reflexivity.
Qed.

Lemma stops_not_open y : stops (fun a => ascii_eqb a "[") y = true -> forall z, y <> "["%char :: z.
Proof. intros H z ->. discriminate H. Qed.

(** * The end of a guard *)

Lemma no_leading_break_app x y :
  no_leading_break x = true -> no_leading_break y = true -> no_leading_break (x ++ y) = true.
Proof. destruct x; auto. Qed.

(** Behind text that has no bracket and does not end with a dash, the end
    of a guard does not match before its dashes and its bracket. *)
Lemma dashes_fail_before icase (K : cont) y dd z p c :
  (forall s' p' c', (forall z', s' <> "["%char :: z') -> K s' p' c' = None) ->
  forallb not_open y = true -> y <> [] -> no_trailing_dash y = true ->
  forallb is_dash dd = true ->
  m icase dashes (y ++ dd ++ "["%char :: z) p c K = None.
Proof.
  intros HK Hy Hne Hd Hdd.
  destruct (m icase dashes (y ++ dd ++ "["%char :: z) p c K) as [res|] eqn:E; [|reflexivity].
  apply m_sound in E. destruct E as (x & s' & c' & Es & Lx & E).
  destruct s' as [|b s'].
  { rewrite HK in E; [discriminate|]. intros z'. discriminate. }
  destruct (ascii_eqb b "[") eqn:Eb.
  2:{ rewrite HK in E; [discriminate|]. intros z' Ez. injection Ez as -> _.
      rewrite ascii_eqb_refl in Eb. discriminate. }
  apply ascii_eqb_eq in Eb. subst b.
  apply lang_dashes in Lx.
  assert (Hyd : forallb not_open (y ++ dd) = true).
  { rewrite forallb_app, Hy, (dashes_not_open dd Hdd). reflexivity. }
  rewrite app_assoc in Es.
  destruct (first_open_unique (y ++ dd) x z s' Hyd (dashes_not_open x Lx) Es) as [<- _].
  rewrite forallb_app in Lx. apply andb_true_iff in Lx. destruct Lx as [Ly _].
  unfold no_trailing_dash in Hd. rewrite (last_dash y Hne Ly) in Hd. discriminate.
Qed.

Lemma commits_guard_tail icase g3 g4 cl no body d2 n2 rest c :
  d2 <= 2 ->
  forallb not_open body = true ->
  no_leading_break body = true ->
  no_trailing_dash body = true ->
  no_leading_break rest = true ->
  commits icase (guard_tail g3 g4 ("["%char :: cl))
    (breaks no ++ body ++ dashes_of d2 ++ ("["%char :: cl) ++ breaks n2) rest c
    (setcap g4 (breaks n2) (setcap g3 body c)).
Proof.
  intros Hd2 Hb Hl Hd Hr p k res Hk. unfold guard_tail. cbn [m].
  rewrite <- !app_assoc.
  apply (commits_linebreaks icase no).
  { apply no_leading_break_app; [exact Hl|].
    destruct d2 as [|d2]; reflexivity. }
  apply m_lazy_any.
  - intros x1 a x2 ->.
    apply (dashes_fail_before icase _ (a :: x2) (dashes_of d2) (cl ++ breaks n2 ++ rest)).
    + intros s' p' c' Hs. apply lit_open_none, Hs.
    + rewrite forallb_app in Hb. apply andb_true_iff in Hb. tauto.
    + discriminate.
    + unfold no_trailing_dash in *. rewrite last_app_cons in Hd. exact Hd.
    + apply forallb_dashes_of.
  - rewrite take_span.
    apply (commits_dashes_take icase d2 (("["%char :: cl) ++ breaks n2 ++ rest)); [exact Hd2|reflexivity|].
    apply (commits_lit icase ("["%char :: cl)); [discriminate|].
    apply (commits_linebreaks icase n2 rest); [exact Hr|].
    rewrite take_span. at_pos Hk.
Qed.

(** * A dialect or fragment guard *)

Lemma word_not_space a : is_word a = true -> is_space a = false.
Proof. all_chars a. Qed.

Lemma word_not_open a : is_word a = true -> not_open a = true.
Proof. all_chars a. Qed.

Lemma space_not_open a : is_space a = true -> not_open a = true.
Proof. all_chars a. Qed.

Lemma space_not_word a : is_space a = true -> is_word a = false.
Proof. all_chars a. Qed.

Lemma spaces_stop f n y :
  f " "%char = false -> stops f y = true -> stops f (spaces n ++ y) = true.
Proof. intros Hf Hy. destruct n as [|n]; [exact Hy|]. cbn. rewrite Hf. reflexivity. Qed.

Lemma forallb_spaces n : forallb is_space (spaces n) = true.
Proof. induction n as [|n IH]; [reflexivity|]. exact IH. Qed.

Lemma key_stop (f : ascii -> bool) key y :
  key <> [] -> forallb is_word key = true -> (forall a, is_word a = true -> f a = false) ->
  stops f (key ++ y) = true.
Proof.
  intros Hne Hk Hf. destruct key as [|a key]; [contradiction|].
  cbn [forallb] in Hk. apply andb_true_iff in Hk. destruct Hk as [Ha _].
  cbn. rewrite (Hf a Ha). reflexivity.
Qed.

Lemma dashes_fit_bounds l : dashes_fit l = true -> l_dashes l <= 2 /\ l_dashes_close l <= 2.
Proof.
  unfold dashes_fit. intros H. apply andb_true_iff in H. destruct H as [H1 H2].
  apply Nat.leb_le in H1, H2. auto.
Qed.

Lemma commits_guardRx d key body l rest :
  dashes_fit l = true ->
  key <> [] -> forallb is_word key = true ->
  forallb not_open body = true ->
  no_leading_break body = true ->
  no_trailing_dash body = true ->
  no_leading_break rest = true ->
  commits false (guardRx d) (guard_span d key body l) rest []
    [(4, breaks (l_breaks_after l)); (3, body); (2, key); (1, breaks (l_breaks l))].
Proof.
  intros Hfit Hne Hk Hb Hl Hd Hr. destruct (dashes_fit_bounds l Hfit) as [Hd1 Hd2].
  unfold guardRx, guard_span.
  set (c1 := [(1, breaks (l_breaks l))]).
  apply commits_seq with (c1 := c1).
  { apply commits_group, commits_linebreaks.
    destruct (l_dashes l); reflexivity. }
  apply commits_seq with (c1 := c1).
  { apply commits_dashes_take; [exact Hd1|reflexivity]. }
  apply commits_seq with (c1 := c1).
  { apply commits_lit. discriminate. }
  apply commits_seq_nil with (c1 := c1).
  { apply commits_neglook. intros p c0. apply lit_open_none.
    rewrite <- !app_assoc.
    apply stops_not_open, spaces_stop; [reflexivity|].
    apply key_stop; [exact Hne|exact Hk|].
    intros a Ha. apply word_not_open in Ha. unfold not_open in Ha.
    apply negb_true_iff, Ha. }
  apply commits_seq with (c1 := c1).
  { apply commits_star_class; [apply forallb_spaces|]. rewrite <- !app_assoc.
    apply key_stop; [exact Hne|exact Hk|]. intros a Ha. apply word_not_space, Ha. }
  apply commits_seq with (c1 := (2, key) :: c1).
  { apply commits_group, commits_plus_class; [exact Hne|exact Hk|].
    rewrite <- !app_assoc. apply spaces_stop; reflexivity. }
  apply commits_seq with (c1 := (2, key) :: c1).
  { apply commits_star_class; [apply forallb_spaces|reflexivity]. }
  apply commits_seq with (c1 := (2, key) :: c1).
  { apply (commits_lit false (txt "]]")). discriminate. }
  exact (commits_guard_tail false 3 4 ("["%char :: d :: txt "]]") (l_breaks_inside l) body
           (l_dashes_close l) (l_breaks_after l) rest ((2, key) :: c1) Hd2 Hb Hl Hd Hr).
Qed.

(** * One guard in a text *)

Lemma exec_of_commits icase r x y c' :
  commits icase r x y [] c' -> exec icase r (x ++ y) = Some (y, length x, c').
Proof. intros H. unfold exec. apply H. reflexivity. Qed.

(** A pass over a text in which the pattern matches once. *)
Lemma replace_pure_one icase r f pre span post c :
  span <> [] ->
  exec icase r (span ++ post) = Some (post, length span, c) ->
  (forall x1 a x2, pre = x1 ++ a :: x2 -> exec icase r (a :: x2 ++ span ++ post) = None) ->
  (forall x y, post = x ++ y -> exec icase r y = None) ->
  replace_pure icase r f (pre ++ span ++ post) = pre ++ f span c ++ post.
Proof.
  intros Hne E Hpre Hpost. unfold replace_pure, replace.
  rewrite replace_from_app_none by exact Hpre. cbn [fst].
  destruct span as [|a x]; [contradiction|]. cbn [app length] in *.
  rewrite (replace_from_match icase r _ a x post c tt E). cbn [fst snd].
  pose proof (replace_from_none icase r (fun mt c0 (_ : unit) => (f mt c0, tt)) tt post Hpost) as Hp.
  unfold replace in Hp. rewrite Hp. reflexivity.
Qed.

Lemma last_in_forallb (f : ascii -> bool) (s : text) d :
  s <> [] -> forallb f s = true -> f (List.last s d) = true.
Proof.
  induction s as [|a s IH]; [contradiction|]. intros _ H.
  cbn [forallb] in H. apply andb_true_iff in H. destruct H as [Ha Hs].
  destruct s as [|b s]; [exact Ha|]. apply IH; [discriminate|exact Hs].
Qed.

(** A guard pattern does not match in front of the line breaks and dashes
    of a guard: it would have to take the text before them as line breaks and
    dashes. *)
Lemma guard_not_before icase r3 r4 y n k z :
  y <> [] -> forallb not_open y = true -> ends_text y = true ->
  exec icase (RSeq (RGroup 1 linebreaks) (RSeq dashes (RSeq (RSeq (chr "[") r3) r4)))
       (y ++ breaks n ++ dashes_of k ++ "["%char :: z) = None.
Proof.
  intros Hne Hy He.
  destruct (exec icase _ _) as [[[rest k0] c]|] eqn:E; [|reflexivity]. exfalso.
  apply exec_sound in E. destruct E as (x & Es & L & _).
  inversion L as [| |? ? l x1 Hl H1| | | | | |]; subst; clear L.
  inversion H1 as [| |? ? ds x2 Hds H2| | | | | |]; subst; clear H1.
  inversion H2 as [| |? ? x3 x4 H3 _| | | | | |]; subst; clear H2.
  inversion H3 as [| |? ? o x5 Ho _| | | | | |]; subst; clear H3.
  apply lang_open in Ho; [|reflexivity]. subst o.
  inversion Hl as [| | | | | | |? ? ? Hl'|]; subst; clear Hl.
  apply lang_linebreaks in Hl'. apply lang_dashes in Hds.
  assert (Hw : forallb (fun a => is_linebreak a || is_dash a) (l ++ ds) = true).
  { rewrite forallb_app. apply andb_true_iff. split.
    - eapply forallb_weaken; [|exact Hl']. intros a ->. reflexivity.
    - eapply forallb_weaken; [|exact Hds]. intros a ->. apply orb_true_r. }
  assert (Hno : forallb not_open (l ++ ds) = true).
  { eapply forallb_weaken; [|exact Hw]. intros a Ha. unfold not_open.
    apply negb_true_iff, ascii_eqb_neq. intros ->. discriminate Ha. }
  assert (Hyn : forallb not_open (y ++ breaks n ++ dashes_of k) = true).
  { rewrite !forallb_app, Hy. cbn [andb].
    rewrite (dashes_not_open _ (forallb_dashes_of k)), andb_true_r.
    clear. induction n; [reflexivity|exact IHn]. }
  assert (Eq : (y ++ breaks n ++ dashes_of k) ++ "["%char :: z =
               (l ++ ds) ++ "["%char :: ((x5 ++ x4) ++ rest)).
  { rewrite <- !app_assoc in *. cbn [app] in *. exact Es. }
  destruct (first_open_unique _ _ _ _ Hyn Hno Eq) as [Ew _].
  rewrite <- Ew, forallb_app in Hw. apply andb_true_iff in Hw. destruct Hw as [Hw _].
  pose proof (last_in_forallb _ y " "%char Hne Hw) as Hlast. cbv beta in Hlast.
  unfold ends_text in He. apply andb_true_iff in He. destruct He as [H1 H2].
  apply negb_true_iff in H1, H2. rewrite H1, H2 in Hlast. discriminate.
Qed.

Lemma ends_text_suffix x1 a x2 : ends_text (x1 ++ a :: x2) = ends_text (a :: x2).
Proof. unfold ends_text. rewrite last_app_cons. reflexivity. Qed.

Lemma exec_guardRx_open d s : has_open d s = false -> exec false (guardRx d) s = None.
Proof.
  intros H. destruct (exec false (guardRx d) s) as [[[rest n] c]|] eqn:E; [|reflexivity].
  apply exec_sound in E. destruct E as (x & -> & L & _).
  rewrite (lang_guard_open false d _ _ _ _ (fun a => eq_refl) L) in H. discriminate.
Qed.

Lemma guard_span_nonempty d key body l : guard_span d key body l <> [].
Proof.
  unfold guard_span. destruct (l_breaks l); [|discriminate].
  destruct (l_dashes l); discriminate.
Qed.

(** The pass of a dialect or fragment guard over a text that holds one. *)
Lemma guard_pass d f pre key body l post :
  dashes_fit l = true ->
  forallb not_open pre = true -> ends_text pre = true ->
  key <> [] -> forallb is_word key = true ->
  forallb not_open body = true -> no_leading_break body = true ->
  no_trailing_dash body = true ->
  no_leading_break post = true -> has_open d post = false ->
  replace_pure false (guardRx d) f (pre ++ guard_span d key body l ++ post) =
  pre ++ f (guard_span d key body l)
           [(4, breaks (l_breaks_after l)); (3, body); (2, key); (1, breaks (l_breaks l))]
      ++ post.
Proof.
  intros Hfit Hpre He Hne Hk Hb Hl Hd Hr Hpost.
  apply replace_pure_one.
  - apply guard_span_nonempty.
  - apply exec_of_commits, commits_guardRx; assumption.
  - intros x1 a x2 ->. unfold guard_span. rewrite <- !app_assoc.
    change (a :: x2 ++ breaks (l_breaks l) ++ dashes_of (l_dashes l) ++ open_marker d ++ ?t)
      with ((a :: x2) ++ breaks (l_breaks l) ++ dashes_of (l_dashes l) ++
            "["%char :: ("["%char :: d :: t)).
    apply guard_not_before.
    + discriminate.
    + rewrite forallb_app in Hpre. apply andb_true_iff in Hpre. tauto.
    + rewrite ends_text_suffix in He. exact He.
  - intros x y ->. apply exec_guardRx_open. eapply has_open_suffix, Hpost.
Qed.

(** * Markers of another kind *)

Lemma has_open_marker d' d y :
  ascii_eqb d "[" = false -> ascii_eqb d d' = false ->
  has_open d' ("["%char :: "["%char :: d :: y) = has_open d' y.
Proof.
  intros H1 H2. cbn [has_open]. rewrite H1, H2.
  change (ascii_eqb "[" "[") with true. cbn [andb orb].
  destruct y as [|b y]; [reflexivity|]. destruct y as [|e y]; reflexivity.
Qed.

Lemma forallb_breaks f n : f LF = true -> forallb f (breaks n) = true.
Proof. intros H. induction n as [|n IH]; [reflexivity|]. cbn. rewrite H. exact IH. Qed.

Lemma forallb_spaces_by f n : f " "%char = true -> forallb f (spaces n) = true.
Proof. intros H. induction n as [|n IH]; [reflexivity|]. cbn. rewrite H. exact IH. Qed.

Lemma forallb_dashes_by f n : f "-"%char = true -> forallb f (dashes_of n) = true.
Proof. intros H. induction n as [|n IH]; [reflexivity|]. cbn. rewrite H. exact IH. Qed.

(** A guard of marker [d] holds no opening of a marker [d']. *)
Lemma has_open_guard_span d' d key body l post :
  ascii_eqb d "[" = false -> ascii_eqb d d' = false ->
  forallb is_word key = true -> forallb not_open body = true ->
  has_open d' (guard_span d key body l ++ post) = has_open d' post.
Proof.
  intros H1 H2 Hk Hb. unfold guard_span. rewrite <- !app_assoc.
  rewrite has_open_skip by (apply forallb_breaks; reflexivity).
  rewrite has_open_skip by (apply forallb_dashes_by; reflexivity).
  unfold open_marker. cbn [app]. rewrite has_open_marker by assumption.
  rewrite has_open_skip by (apply forallb_spaces_by; reflexivity).
  rewrite has_open_skip by (eapply forallb_weaken; [apply word_not_open|exact Hk]).
  rewrite has_open_skip by (apply forallb_spaces_by; reflexivity).
  rewrite (has_open_skip d' (txt "]]")) by reflexivity.
  rewrite has_open_skip by (apply forallb_breaks; reflexivity).
  rewrite has_open_skip by exact Hb.
  rewrite has_open_skip by (apply forallb_dashes_by; reflexivity).
  unfold close_marker. cbn [app]. rewrite has_open_marker by assumption.
  change ("]"%char :: "]"%char :: ?t) with (txt "]]" ++ t).
  rewrite (has_open_skip d' (txt "]]")) by reflexivity.
  rewrite has_open_skip by (apply forallb_breaks; reflexivity).
  reflexivity.
Qed.

Lemma cmatch_v a : cmatch true (CChar "v") a = true -> a = "v"%char \/ a = "V"%char.
Proof. destruct a as [[] [] [] [] [] [] [] []]; intros H; try discriminate H; auto. Qed.

(** The version pattern needs the start of its marker, in either case. *)
Lemma exec_sqlVerRx_open s :
  has_open "v" s = false -> has_open "V" s = false -> exec true sqlVerRx s = None.
Proof.
  intros Hv HV. destruct (exec true sqlVerRx s) as [[[rest n] c]|] eqn:E; [|reflexivity].
  exfalso. apply exec_sound in E. destruct E as (x & -> & L & _).
  inversion L as [| |? ? x1 y1 _ H1| | | | | |]; subst; clear L.
  inversion H1 as [| |? ? x2 y2 _ H2| | | | | |]; subst; clear H1.
  inversion H2 as [| |? ? x3 y3 H3 _| | | | | |]; subst; clear H2.
  apply lang_lit_chars in H3.
  inversion H3 as [|a1 ? t1 ? A1 T1]; subst; clear H3.
  inversion T1 as [|a2 ? t2 ? A2 T2]; subst; clear T1.
  inversion T2 as [|a3 ? t3 ? A3 T3]; subst; clear T2.
  rewrite cmatch_open in A1, A2. apply ascii_eqb_eq in A1, A2. subst a1 a2.
  assert (Ho : has_open a3 ((x1 ++ x2 ++ ("["%char :: "["%char :: a3 :: t3) ++ y3) ++ rest) = true).
  { rewrite <- !app_assoc. apply has_open_app, has_open_app.
    cbn [app has_open]. rewrite !ascii_eqb_refl. reflexivity. }
  apply cmatch_v in A3. destruct A3 as [-> | ->]; congruence.
Qed.

Lemma version_pass_fixed env s :
  has_open "v" s = false -> has_open "V" s = false ->
  replace_pure true sqlVerRx (sqlVerRpl env) s = s.
Proof.
  intros Hv HV. apply replace_pure_none. intros x y ->.
  apply exec_sqlVerRx_open; eapply has_open_suffix; eassumption.
Qed.

(** * Colons *)

Lemma word_not_colon a : is_word a = true -> not_colon a = true.
Proof. all_chars a. Qed.


(** * The callbacks on the captures of a guard *)


Lemma sqlFragRpl_caps keys mt lb1 key body lb2 :
  sqlFragRpl keys mt [(4, lb2); (3, body); (2, key); (1, lb1)] =
  if nonempty key && key_in key keys && nonempty body
  then lb1 ++ body else collapse lb1 lb2.
Proof. reflexivity. Qed.

Lemma nonempty_true (t : text) : t <> [] -> nonempty t = true.
Proof. destruct t; [contradiction|reflexivity]. Qed.

(** * [frag] on a text with one guard *)


Lemma fragment_pass_plain keys s :
  forallb not_open s = true -> replace_pure false sqlFragRx (sqlFragRpl keys) s = s.
Proof. intros H. apply fragment_pass_fixed, has_open_plain, H. Qed.

Lemma dialect_pass_plain env s :
  forallb not_open s = true -> replace_pure false sqlDiaRx (sqlDiaRpl env) s = s.
Proof. intros H. apply dialect_pass_fixed, has_open_plain, H. Qed.

Lemma collapse_not_open lb1 lb2 : forallb not_open (collapse lb1 lb2) = true.
Proof. unfold collapse. destruct (nonempty lb1 || nonempty lb2); reflexivity. Qed.

(** What a guard leaves behind has no bracket. *)
Lemma resolved_not_open (kept : bool) n1 body lb2 :
  forallb not_open body = true ->
  forallb not_open (if kept then breaks n1 ++ body else collapse (breaks n1) lb2) = true.
Proof.
  intros Hb. destruct kept; [|apply collapse_not_open].
  rewrite forallb_app, Hb, (forallb_breaks not_open) by reflexivity. reflexivity.
Qed.


(** The three guard passes on a text with one fragment guard. *)
Lemma guard_passes_fragment_span env keys pre key body l post :
  dashes_fit l = true ->
  plain pre = true -> ends_text pre = true ->
  nonempty key = true -> forallb is_word key = true ->
  forallb not_open body = true -> no_leading_break body = true -> no_trailing_dash body = true ->
  plain post = true -> no_leading_break post = true ->
  replace_pure false sqlFragRx (sqlFragRpl keys)
    (replace_pure true sqlVerRx (sqlVerRpl env)
       (replace_pure false sqlDiaRx (sqlDiaRpl env)
          (pre ++ guard_span "?" key body l ++ post))) =
  pre ++ (if key_in key keys && nonempty body
          then breaks (l_breaks l) ++ body else collapse (breaks (l_breaks l)) (breaks (l_breaks_after l))) ++ post.
Proof.
  intros Hfit Hpre He Hne Hk Hb Hl Hd Hpost Hr.
  assert (Ho : forall d', ascii_eqb "?" d' = false ->
               has_open d' (pre ++ guard_span "?" key body l ++ post) = false).
  { intros d' Hd'. rewrite has_open_skip by (apply plain_not_open, Hpre).
    rewrite has_open_guard_span; [|reflexivity|exact Hd'|exact Hk|exact Hb].
    apply has_open_plain, plain_not_open, Hpost. }
  rewrite dialect_pass_fixed by (apply Ho; reflexivity).
  rewrite version_pass_fixed by (apply Ho; reflexivity).
  change sqlFragRx with (guardRx "?").
  rewrite guard_pass; try assumption.
  2:{ apply plain_not_open, Hpre. }
  2:{ destruct key; [discriminate|discriminate]. }
  2:{ apply has_open_plain, plain_not_open, Hpost. }
  rewrite sqlFragRpl_caps, Hne. reflexivity.
Qed.

Lemma nonempty_around_span pre d key body l post :
  nonempty (pre ++ guard_span d key body l ++ post) = true.
Proof.
  destruct pre; [|reflexivity]. cbn [app].
  pose proof (guard_span_nonempty d key body l).
  destruct (guard_span d key body l); [contradiction|reflexivity].
Qed.


(** * A token of a collection inside a fragment guard *)

(** The array pass on a text with one token that names a collection. *)
Lemma array_pass_one rplmts x key y vals :
  nonempty key = true -> forallb is_letter key = true ->
  rplmts !! str key = Some (JArr vals) ->
  forallb not_colon x = true -> forallb not_colon y = true -> no_leading_letter y = true ->
  replace true sqlArrayRx sqlArrayRpl (x ++ ":"%char :: key ++ y) rplmts =
  (x ++ bind_tokens key (length vals) ++ y,
   snd (sqlArrayRpl_loop [":"%char] key vals 0 [] rplmts)).
Proof.
  intros Hne Hk Hb Hx Hy Hend. unfold replace.
  rewrite (array_pass_prefix x _ rplmts Hx).
  assert (Ex : exec true sqlArrayRx (":"%char :: key ++ y) =
               Some (y, S (length key), [(2, key); (1, [":"%char])])).
  { rewrite exec_sqlArrayRx, (token_at_key key y Hne Hk Hend). reflexivity. }
  rewrite (replace_from_match true sqlArrayRx sqlArrayRpl _ _ _ _ rplmts Ex).
  rewrite (sqlArrayRpl_array key vals _ rplmts Hne Hb). cbn [fst snd].
  pose proof (array_pass_no_colon y (snd (sqlArrayRpl_loop [":"%char] key vals 0 [] rplmts)) Hy) as Hp.
  unfold replace in Hp. rewrite Hp. reflexivity.
Qed.

Lemma no_leading_letter_app x y :
  no_leading_letter x = true -> no_leading_letter y = true -> no_leading_letter (x ++ y) = true.
Proof. destruct x; auto. Qed.

Lemma no_leading_break_colon x y :
  no_leading_break x = true -> no_leading_break (x ++ ":"%char :: y) = true.
Proof. destruct x; auto. Qed.

Lemma letter_not_dash a : is_letter a = true -> is_dash a = false.
Proof. all_chars a. Qed.

Lemma digit_not_dash a : is_digit a = true -> is_dash a = false.
Proof. all_chars a. Qed.

Lemma bind_tokens_no_dash key n :
  forallb is_letter key = true ->
  forallb (fun a => negb (is_dash a)) (bind_tokens key n) = true.
Proof.
  intros H.
  assert (Hk : forallb (fun a => negb (is_dash a)) key = true).
  { eapply forallb_weaken; [|exact H]. intros a Ha. rewrite (letter_not_dash a Ha). reflexivity. }
  assert (Hname : forall i, forallb (fun a => negb (is_dash a)) (":"%char :: bind_name key i) = true).
  { intros i. unfold bind_name. cbn [forallb]. rewrite forallb_app, Hk. cbn [andb].
    eapply forallb_weaken; [|apply index_suffix_digits].
    intros a Ha. rewrite (digit_not_dash a Ha). reflexivity. }
  unfold bind_tokens. destruct n as [|n]; [cbn [forallb]; rewrite Hk; reflexivity|].
  generalize (seq 0 (S n)). intros l. induction l as [|i l IH]; [reflexivity|].
  cbn [map sep_by]. destruct (map _ l) eqn:E; [apply Hname|].
  rewrite !forallb_app, Hname, IH. reflexivity.
Qed.

Lemma bind_tokens_nonempty key n : bind_tokens key n <> [].
Proof.
  unfold bind_tokens. destruct n as [|n]; [discriminate|].
  cbn [seq map sep_by]. destruct (map _ _); discriminate.
Qed.

Lemma no_trailing_dash_tokens x key n y :
  forallb is_letter key = true -> no_trailing_dash y = true ->
  no_trailing_dash (x ++ bind_tokens key n ++ y) = true.
Proof.
  intros Hk Hy. unfold no_trailing_dash in *.
  destruct y as [|b y].
  - rewrite app_nil_r.
    pose proof (bind_tokens_nonempty key n) as Hne.
    destruct (bind_tokens key n) as [|a t] eqn:E; [contradiction|].
    rewrite last_app_cons, <- E.
    apply (last_in_forallb (fun a => negb (is_dash a))); [rewrite E; discriminate|].
    apply bind_tokens_no_dash, Hk.
  - rewrite app_assoc, last_app_cons. exact Hy.
Qed.

Lemma span_with_token pre d key b1 mid b2 l post :
  pre ++ guard_span d key (b1 ++ mid ++ b2) l ++ post =
  (pre ++ breaks (l_breaks l) ++ dashes_of (l_dashes l) ++ open_marker d ++
   spaces (l_blanks l) ++ key ++ spaces (l_blanks_after l) ++ txt "]]" ++
   breaks (l_breaks_inside l) ++ b1) ++ mid ++
  (b2 ++ dashes_of (l_dashes_close l) ++ close_marker d ++ breaks (l_breaks_after l) ++ post).
Proof. unfold guard_span. rewrite <- !app_assoc. reflexivity. Qed.

Lemma frag_fragment_token env keys rplmts pre key b1 bkey b2 vals l post :
  dashes_fit l = true ->
  plain pre = true -> ends_text pre = true ->
  nonempty key = true -> forallb is_word key = true ->
  nonempty bkey = true -> forallb is_letter bkey = true ->
  rplmts !! str bkey = Some (JArr vals) ->
  plain b1 = true -> no_leading_break b1 = true ->
  plain b2 = true -> no_leading_letter b2 = true -> no_trailing_dash b2 = true ->
  plain post = true -> no_leading_break post = true ->
  frag env (pre ++ guard_span "?" key (b1 ++ (":"%char :: bkey) ++ b2) l ++ post)
       keys rplmts =
  (pre ++ (if key_in key keys
           then breaks (l_breaks l) ++ b1 ++ bind_tokens bkey (length vals) ++ b2
           else collapse (breaks (l_breaks l)) (breaks (l_breaks_after l))) ++ post,
   snd (sqlArrayRpl_loop [":"%char] bkey vals 0 [] rplmts)).
Proof.
  intros Hfit Hpre He Hne Hk Hbne Hbk Hb Hb1 Hl Hb2 Hend Hd Hpost Hr. unfold frag.
  rewrite nonempty_around_span.
  rewrite span_with_token.
  change ((":"%char :: bkey) ++ ?y) with (":"%char :: bkey ++ y).
  rewrite (array_pass_one rplmts _ bkey _ vals Hbne Hbk Hb).
  - rewrite <- span_with_token.
    rewrite guard_passes_fragment_span; try assumption.
    + assert (Hn : nonempty (b1 ++ bind_tokens bkey (length vals) ++ b2) = true).
      { destruct b1; [|reflexivity]. cbn [app].
        pose proof (bind_tokens_nonempty bkey (length vals)).
        destruct (bind_tokens bkey (length vals)); [contradiction|reflexivity]. }
      rewrite Hn, andb_true_r. reflexivity.
    + rewrite !forallb_app, (plain_not_open _ Hb1), (plain_not_open _ Hb2).
      rewrite (bind_tokens_not_open _ _ Hbk). reflexivity.
    + destruct b1 as [|a b1]; [|exact Hl]. cbn [app].
      pose proof (bind_tokens_not_open bkey (length vals) Hbk) as Hno.
      pose proof (bind_tokens_no_dash bkey (length vals) Hbk) as Hnd.
      unfold bind_tokens in *. destruct (length vals); [reflexivity|].
      cbn [seq map sep_by] in *. destruct (map _ _); reflexivity.
    + apply no_trailing_dash_tokens; assumption.
  - rewrite !forallb_app, (plain_not_colon _ Hpre), (plain_not_colon _ Hb1).
    rewrite !(forallb_breaks not_colon) by reflexivity.
    rewrite !(forallb_spaces_by not_colon) by reflexivity.
    rewrite !(forallb_dashes_by not_colon) by reflexivity.
    rewrite (forallb_weaken _ _ _ word_not_colon Hk). reflexivity.
  - rewrite !forallb_app, (plain_not_colon _ Hpost), (plain_not_colon _ Hb2).
    rewrite !(forallb_breaks not_colon) by reflexivity.
    rewrite !(forallb_dashes_by not_colon) by reflexivity. reflexivity.
  - apply no_leading_letter_app; [exact Hend|].
    destruct (l_dashes_close l); reflexivity.
Qed.

(** * The comparator of a version guard *)

Lemma cmatch_eq a : cmatch true (CChar "=") a = ascii_eqb a "=".
Proof. all_chars a. Qed.
Lemma cmatch_gt a : cmatch true (CChar ">") a = ascii_eqb a ">".
Proof. all_chars a. Qed.

Lemma is_comparator_cases op :
  is_comparator op = true ->
  op = txt "=" \/ op = txt "<" \/ op = txt ">" \/ op = txt "<=" \/ op = txt ">=" \/ op = txt "<>".
Proof.
  unfold is_comparator, comparators. intros H. apply bool_decide_eq_true in H.
  repeat (apply elem_of_cons in H; destruct H as [H|H]; [auto 10|]).
  apply elem_of_nil in H. contradiction.
Qed.

(** The comparator in front of a text that starts with none of its
    characters: the alternatives are tried in their order, and [<>] is
    reached when the rest of the pattern fails behind [<]. *)
Lemma m_comparator op y p c K res :
  is_comparator op = true ->
  stops (fun a => ascii_eqb a "=" || ascii_eqb a ">") y = true ->
  (forall p' c', K (">"%char :: y) p' c' = None) ->
  K y (p + length op) c = Some res ->
  m true comparator (op ++ y) p c K = Some res.
Proof.
  intros Hop Hy Hgt HK.
  assert (Hopt : forall b p0, (b = "="%char \/ b = ">"%char) ->
            m true (opt (RChar (CChar b))) y p0 c K = K y p0 c).
  { intros b p0 Hb. rewrite m_opt_class. destruct y as [|h y']; [reflexivity|].
    cbn [stops] in Hy. apply negb_true_iff, orb_false_iff in Hy. destruct Hy as [H1 H2].
    destruct Hb as [-> | ->]; [rewrite cmatch_eq, H1|rewrite cmatch_gt, H2]; reflexivity. }
  apply is_comparator_cases in Hop.
  unfold comparator, chr, lit. cbn [txt list_ascii_of_string lit_chars].
  destruct Hop as [->|[->|[->|[->|[->| ->]]]]]; cbn [app length txt list_ascii_of_string] in *.
  - cbn [m]. change (cmatch true (CChar "=") "=") with true. cbn iota.
    replace (S p) with (p + 1) by lia. rewrite HK. reflexivity.
  - cbn [m]. change (cmatch true (CChar "=") "<") with false.
    change (cmatch true (CChar "<") "<") with true. cbn iota. cbn [orelse].
    fold (opt (RChar (CChar "="))). rewrite Hopt by auto.
    replace (S p) with (p + 1) by lia. rewrite HK. reflexivity.
  - cbn [m]. change (cmatch true (CChar "=") ">") with false.
    change (cmatch true (CChar "<") ">") with false.
    change (cmatch true (CChar ">") ">") with true. cbn iota. cbn [orelse].
    fold (opt (RChar (CChar "="))). rewrite Hopt by auto.
    replace (S p) with (p + 1) by lia. rewrite HK. reflexivity.
  - cbn [m]. change (cmatch true (CChar "=") "<") with false.
    change (cmatch true (CChar "<") "<") with true. cbn iota. cbn [orelse].
    fold (opt (RChar (CChar "="))). rewrite m_opt_class.
    change (cmatch true (CChar "=") "=") with true. cbn iota.
    replace (S (S p)) with (p + 2) by lia. rewrite HK. reflexivity.
  - cbn [m]. change (cmatch true (CChar "=") ">") with false.
    change (cmatch true (CChar "<") ">") with false.
    change (cmatch true (CChar ">") ">") with true. cbn iota. cbn [orelse].
    fold (opt (RChar (CChar "="))). rewrite m_opt_class.
    change (cmatch true (CChar "=") "=") with true. cbn iota.
    replace (S (S p)) with (p + 2) by lia. rewrite HK. reflexivity.
  - cbn [m]. change (cmatch true (CChar "=") "<") with false.
    change (cmatch true (CChar "<") "<") with true.
    change (cmatch true (CChar ">") "<") with false.
    change (cmatch true (CChar ">") ">") with true. cbn iota. cbn [orelse].
    fold (opt (RChar (CChar "="))). rewrite m_opt_class.
    change (cmatch true (CChar "=") ">") with false. cbn iota.
    rewrite Hgt. cbn [orelse]. unfold chr. cbn [m].
    change (cmatch true (CChar "<") "<") with true.
    change (cmatch true (CChar ">") ">") with true. cbn iota.
    replace (S (S p)) with (p + 2) by lia. exact HK.
Qed.

(** * The literal of a version guard *)

Lemma digit_not_space a : is_digit a = true -> is_space a = false.
Proof. all_chars a. Qed.

Lemma digit_not_sign a :
  is_digit a = true -> cmatch true (CUnion (CChar "+") (CChar "-")) a = false.
Proof. all_chars a. Qed.

Lemma digit_not_cmp a : is_digit a = true -> ascii_eqb a "=" || ascii_eqb a ">" = false.
Proof. all_chars a. Qed.

Lemma digits_stop (f : ascii -> bool) ip y :
  nonempty ip = true -> forallb is_digit ip = true ->
  (forall a, is_digit a = true -> f a = false) ->
  stops f (ip ++ y) = true.
Proof.
  intros Hne Hd Hf. destruct ip as [|a ip]; [discriminate|].
  cbn [forallb] in Hd. apply andb_true_iff in Hd. destruct Hd as [Ha _].
  cbn. rewrite (Hf a Ha). reflexivity.
Qed.

Lemma is_sign_cases sign :
  is_sign sign = true -> sign = [] \/ sign = txt "+" \/ sign = txt "-".
Proof.
  unfold is_sign. intros H. apply bool_decide_eq_true in H.
  repeat (apply elem_of_cons in H; destruct H as [H|H]; [auto|]).
  apply elem_of_nil in H. contradiction.
Qed.

Lemma commits_sign sign ip y c :
  is_sign sign = true -> nonempty ip = true -> forallb is_digit ip = true ->
  commits true (opt (RChar (CUnion (CChar "+") (CChar "-")))) sign (ip ++ y) c c.
Proof.
  intros Hs Hne Hd. apply is_sign_cases in Hs. destruct Hs as [->|[->| ->]].
  - apply commits_opt_skip. apply digits_stop; [exact Hne|exact Hd|apply digit_not_sign].
  - apply commits_opt_take. reflexivity.
  - apply commits_opt_take. reflexivity.
Qed.

(** The digits of an integer literal are the third group. *)
Lemma commits_literal ip s3 y c :
  nonempty ip = true -> forallb is_digit ip = true ->
  commits true (RGroup 3 (plus (RChar CDigit) >> opt (chr ".") >> star (RChar CDigit)))
    ip (spaces s3 ++ "]"%char :: y) c (setcap 3 ip c).
Proof.
  intros Hne Hd. apply commits_group.
  assert (Hst : forall f, f " "%char = false -> f "]"%char = false ->
                stops f (spaces s3 ++ "]"%char :: y) = true).
  { intros f H1 H2. apply spaces_stop; [exact H1|]. cbn. rewrite H2. reflexivity. }
  rewrite <- (app_nil_r ip) at 1.
  apply commits_seq with (c1 := c).
  { apply commits_plus_class; [destruct ip; [discriminate|discriminate]|exact Hd|].
    cbn [app]. apply Hst; reflexivity. }
  apply commits_seq_nil with (c1 := c).
  { unfold chr. apply commits_opt_skip. cbn [app]. apply Hst; reflexivity. }
  apply commits_star_class; [reflexivity|]. apply Hst; reflexivity.
Qed.

Lemma commits_sqlVerRest sign ip body s2 s3 no d2 n2 rest c :
  d2 <= 2 ->
  is_sign sign = true -> nonempty ip = true -> forallb is_digit ip = true ->
  forallb not_open body = true -> no_leading_break body = true ->
  no_trailing_dash body = true -> no_leading_break rest = true ->
  commits true sqlVerRest
    (spaces s2 ++ sign ++ ip ++ spaces s3 ++ txt "]]" ++ breaks no ++ body ++
     dashes_of d2 ++ txt "[[version]]" ++ breaks n2) rest c
    (setcap 5 (breaks n2) (setcap 4 body (setcap 3 ip c))).
Proof.
  intros Hd2 Hs Hne Hd Hb Hl Hdash Hr. unfold sqlVerRest.
  apply commits_seq with (c1 := c).
  { apply commits_star_class; [apply forallb_spaces|]. rewrite <- !app_assoc.
    apply is_sign_cases in Hs. destruct Hs as [->|[->| ->]]; [|reflexivity|reflexivity].
    cbn [app]. apply digits_stop; [exact Hne|exact Hd|apply digit_not_space]. }
  apply commits_seq with (c1 := c).
  { rewrite <- !app_assoc. apply commits_sign; assumption. }
  apply commits_seq with (c1 := setcap 3 ip c).
  { rewrite <- !app_assoc. apply commits_literal; assumption. }
  apply commits_seq with (c1 := setcap 3 ip c).
  { apply commits_star_class; [apply forallb_spaces|reflexivity]. }
  apply commits_seq with (c1 := setcap 3 ip c).
  { apply (commits_lit true (txt "]]")). discriminate. }
  exact (commits_guard_tail true 4 5 (txt "[version]]") no body d2 n2 rest
           (setcap 3 ip c) Hd2 Hb Hl Hdash Hr).
Qed.

Lemma sqlVerRest_gt y p c k : m true sqlVerRest (">"%char :: y) p c k = None.
Proof.
  unfold sqlVerRest. cbn [m]. unfold star. rewrite m_star_class.
  change (cmatch true CSpace ">") with false. cbn iota.
  rewrite m_opt_class.
  change (cmatch true (CUnion (CChar "+") (CChar "-")) ">") with false. cbn iota.
  rewrite m_plus_class. reflexivity.
Qed.

Lemma commits_comparator_rest op x rest c c' :
  is_comparator op = true ->
  stops (fun a => ascii_eqb a "=" || ascii_eqb a ">") (x ++ rest) = true ->
  commits true sqlVerRest x rest (setcap 2 op c) c' ->
  commits true (RSeq (RGroup 2 comparator) sqlVerRest) (op ++ x) rest c c'.
Proof.
  intros Hop Hst HR p k res Hk. cbn [m]. rewrite <- app_assoc.
  apply m_comparator; [exact Hop|exact Hst|intros; apply sqlVerRest_gt|].
  rewrite take_span. apply HR. at_pos Hk.
Qed.

Lemma comparator_stop (f : ascii -> bool) op y :
  is_comparator op = true ->
  f "="%char = false -> f "<"%char = false -> f ">"%char = false ->
  stops f (op ++ y) = true.
Proof.
  intros Hop H1 H2 H3. apply is_comparator_cases in Hop.
  destruct Hop as [->|[->|[->|[->|[->| ->]]]]]; cbn; rewrite ?H1, ?H2, ?H3; reflexivity.
Qed.

(** One attempt of the version pattern on a guard with an integer literal. *)
Lemma commits_sqlVerRx op sign ip body n1 d1 s1 s2 s3 no d2 n2 rest :
  d1 <= 2 -> d2 <= 2 ->
  is_comparator op = true -> is_sign sign = true ->
  nonempty ip = true -> forallb is_digit ip = true ->
  forallb not_open body = true -> no_leading_break body = true ->
  no_trailing_dash body = true -> no_leading_break rest = true ->
  commits true sqlVerRx (version_span op sign ip body n1 d1 s1 s2 s3 no d2 n2) rest []
    [(5, breaks n2); (4, body); (3, ip); (2, op); (1, breaks n1)].
Proof.
  intros Hd1 Hd2 Hop Hs Hne Hd Hb Hl Hdash Hr. unfold sqlVerRx, version_span.
  apply commits_seq with (c1 := [(1, breaks n1)]).
  { apply commits_group, commits_linebreaks. destruct d1; reflexivity. }
  apply commits_seq with (c1 := [(1, breaks n1)]).
  { apply commits_dashes_take; [exact Hd1|reflexivity]. }
  apply commits_seq with (c1 := [(1, breaks n1)]).
  { apply (commits_lit true (txt "[[version")). discriminate. }
  apply commits_seq_nil with (c1 := [(1, breaks n1)]).
  { apply commits_neglook. intros p c0.
    apply (lit_open_none true (txt "[version")).
    rewrite <- !app_assoc.
    apply stops_not_open, spaces_stop; [reflexivity|].
    apply comparator_stop; [exact Hop|reflexivity..]. }
  apply commits_seq with (c1 := [(1, breaks n1)]).
  { apply commits_star_class; [apply forallb_spaces|]. rewrite <- !app_assoc.
    apply comparator_stop; [exact Hop|reflexivity..]. }
  apply commits_comparator_rest; [exact Hop| |].
  - rewrite <- !app_assoc. apply spaces_stop; [reflexivity|].
    apply is_sign_cases in Hs. destruct Hs as [->|[->| ->]]; [|reflexivity|reflexivity].
    cbn [app]. apply digits_stop; [exact Hne|exact Hd|apply digit_not_cmp].
  - apply commits_sqlVerRest; assumption.
Qed.

(** * The number of an integer literal *)

Lemma digits_value_acc d : forall acc,
  fold_left (fun (a : Z) (ch : ascii) => (10 * a + Z.of_nat (code ch - 48))%Z)
            (txt (NilEmpty.string_of_uint d)) (Z.of_nat acc) =
  Z.of_nat (Nat.of_uint_acc d acc).
Proof.
  induction d; intros acc;
    cbn [NilEmpty.string_of_uint txt list_ascii_of_string fold_left Nat.of_uint_acc];
    [reflexivity|..];
    rewrite <- IHd; f_equal; rewrite Nat.tail_mul_spec;
    cbn [code nat_of_ascii]; vm_compute (Z.of_nat (_ - 48)); lia.
Qed.

Lemma digits_value_index n : digits_value (index_text n) = Z.of_nat n.
Proof.
  unfold digits_value, index_text. rewrite string_of_to_uint.
  pose proof (digits_value_acc (Nat.to_uint n) 0) as H.
  change (Z.of_nat 0) with 0%Z in H. rewrite H.
  change (Nat.of_uint_acc (Nat.to_uint n) 0) with (Nat.of_uint (Nat.to_uint n)).
  rewrite Unsigned.of_to. reflexivity.
Qed.

Lemma index_text_digits n : forallb is_digit (index_text n) = true.
Proof. unfold index_text. rewrite string_of_to_uint. apply string_of_uint_digits. Qed.

Lemma span_digits_all t : forallb is_digit t = true -> span_digits t = (t, []).
Proof.
  induction t as [|a t IH]; [reflexivity|]. cbn [forallb span_digits]. intros H.
  apply andb_true_iff in H. destruct H as [-> H]. rewrite (IH H). reflexivity.
Qed.

(** [parseFloat] on the decimal text of [n] is [n]. *)
Lemma parseFloat_index n : parseFloat (index_text n) = Some (inject_Z (Z.of_nat n)).
Proof.
  unfold parseFloat. rewrite (span_digits_all _ (index_text_digits n)).
  rewrite app_nil_r, digits_value_index.
  pose proof (index_text_nonempty n) as H. destruct (index_text n); [contradiction|].
  reflexivity.
Qed.

(** * [frag] on a text with one version guard *)

Lemma version_span_nonempty op sign ip body n1 d1 s1 s2 s3 no d2 n2 :
  version_span op sign ip body n1 d1 s1 s2 s3 no d2 n2 <> [].
Proof. unfold version_span. destruct n1; [destruct d1|]; discriminate. Qed.

Lemma comparator_chars (f : ascii -> bool) op :
  is_comparator op = true ->
  f "="%char = true -> f "<"%char = true -> f ">"%char = true -> forallb f op = true.
Proof.
  intros Hop H1 H2 H3. apply is_comparator_cases in Hop.
  destruct Hop as [->|[->|[->|[->|[->| ->]]]]]; cbn; rewrite ?H1, ?H2, ?H3; reflexivity.
Qed.

Lemma sign_chars (f : ascii -> bool) sign :
  is_sign sign = true -> f "+"%char = true -> f "-"%char = true -> forallb f sign = true.
Proof.
  intros Hs H1 H2. apply is_sign_cases in Hs.
  destruct Hs as [->|[->| ->]]; cbn; rewrite ?H1, ?H2; reflexivity.
Qed.

Lemma digit_not_colon a : is_digit a = true -> not_colon a = true.
Proof. all_chars a. Qed.

Lemma has_open_version_span d' op sign ip body n1 d1 s1 s2 s3 no d2 n2 post :
  ascii_eqb "v" d' = false ->
  is_comparator op = true -> is_sign sign = true -> forallb is_digit ip = true ->
  forallb not_open body = true ->
  has_open d' (version_span op sign ip body n1 d1 s1 s2 s3 no d2 n2 ++ post) =
  has_open d' post.
Proof.
  intros Hd' Hop Hs Hip Hb. unfold version_span. rewrite <- !app_assoc.
  rewrite has_open_skip by (apply forallb_breaks; reflexivity).
  rewrite has_open_skip by (apply forallb_dashes_by; reflexivity).
  change (txt "[[version" ++ ?t) with ("["%char :: "["%char :: "v"%char :: txt "ersion" ++ t).
  rewrite has_open_marker by (reflexivity || exact Hd').
  rewrite (has_open_skip d' (txt "ersion")) by reflexivity.
  rewrite has_open_skip by (apply forallb_spaces_by; reflexivity).
  rewrite has_open_skip by (apply comparator_chars; [exact Hop|reflexivity..]).
  rewrite has_open_skip by (apply forallb_spaces_by; reflexivity).
  rewrite has_open_skip by (apply sign_chars; [exact Hs|reflexivity..]).
  rewrite has_open_skip by (eapply forallb_weaken; [apply digit_not_open|exact Hip]).
  rewrite has_open_skip by (apply forallb_spaces_by; reflexivity).
  rewrite (has_open_skip d' (txt "]]")) by reflexivity.
  rewrite has_open_skip by (apply forallb_breaks; reflexivity).
  rewrite has_open_skip by exact Hb.
  rewrite has_open_skip by (apply forallb_dashes_by; reflexivity).
  change (txt "[[version]]" ++ ?t) with ("["%char :: "["%char :: "v"%char :: txt "ersion]]" ++ t).
  rewrite has_open_marker by (reflexivity || exact Hd').
  rewrite (has_open_skip d' (txt "ersion]]")) by reflexivity.
  rewrite has_open_skip by (apply forallb_breaks; reflexivity).
  reflexivity.
Qed.

Lemma not_colon_version_span op sign ip body n1 d1 s1 s2 s3 no d2 n2 :
  is_comparator op = true -> is_sign sign = true -> forallb is_digit ip = true ->
  forallb not_colon body = true ->
  forallb not_colon (version_span op sign ip body n1 d1 s1 s2 s3 no d2 n2) = true.
Proof.
  intros Hop Hs Hip Hb. unfold version_span. rewrite !forallb_app.
  rewrite !(forallb_breaks not_colon) by reflexivity.
  rewrite !(forallb_dashes_by not_colon) by reflexivity.
  rewrite !(forallb_spaces_by not_colon) by reflexivity.
  rewrite (comparator_chars not_colon op Hop) by reflexivity.
  rewrite (sign_chars not_colon sign Hs) by reflexivity.
  rewrite (forallb_weaken _ _ _ digit_not_colon Hip), Hb. reflexivity.
Qed.

Lemma sqlVerRpl_caps env mt lb1 op ip body lb2 :
  sqlVerRpl env mt [(5, lb2); (4, body); (3, ip); (2, op); (1, lb1)] =
  if nonempty op && nonempty ip &&
     match parseFloat ip, COMPARE op with
     | Some v, Some cmp => cmp (env_version env) v
     | _, _ => false
     end && nonempty body
  then lb1 ++ body else collapse lb1 lb2.
Proof. reflexivity. Qed.

Lemma comparator_nonempty op : is_comparator op = true -> nonempty op = true.
Proof.
  intros Hop. apply is_comparator_cases in Hop.
  destruct Hop as [->|[->|[->|[->|[->| ->]]]]]; reflexivity.
Qed.

(** The version pass over a text that holds one guard with an integer
    literal. *)
Lemma version_pass_span env pre op sign n body n1 d1 s1 s2 s3 no d2 n2 post cmp :
  d1 <= 2 -> d2 <= 2 ->
  forallb not_open pre = true -> ends_text pre = true ->
  COMPARE op = Some cmp -> is_comparator op = true -> is_sign sign = true ->
  forallb not_open body = true -> no_leading_break body = true ->
  no_trailing_dash body = true ->
  forallb not_open post = true -> no_leading_break post = true ->
  replace_pure true sqlVerRx (sqlVerRpl env)
    (pre ++ version_span op sign (index_text n) body n1 d1 s1 s2 s3 no d2 n2 ++ post) =
  pre ++ (if cmp (env_version env) (inject_Z (Z.of_nat n)) && nonempty body
          then breaks n1 ++ body else collapse (breaks n1) (breaks n2)) ++ post.
Proof.
  intros Hd1 Hd2 Hpre He Hc Hop Hs Hb Hl Hd Hpost Hr.
  assert (Hne : nonempty (index_text n) = true).
  { pose proof (index_text_nonempty n). destruct (index_text n); [contradiction|reflexivity]. }
  rewrite replace_pure_one with
    (c := [(5, breaks n2); (4, body); (3, index_text n); (2, op); (1, breaks n1)]).
  - rewrite sqlVerRpl_caps, parseFloat_index, Hc, Hne, (comparator_nonempty op Hop).
    reflexivity.
  - apply version_span_nonempty.
  - apply exec_of_commits, commits_sqlVerRx; try assumption. apply index_text_digits.
  - intros x1 a x2 ->. unfold version_span. rewrite <- !app_assoc.
    change (a :: x2 ++ breaks n1 ++ dashes_of d1 ++ txt "[[version" ++ ?t) with
      ((a :: x2) ++ breaks n1 ++ dashes_of d1 ++ "["%char :: (txt "[version" ++ t)).
    apply (guard_not_before true _ _ (a :: x2) n1 d1).
    + discriminate.
    + rewrite forallb_app in Hpre. apply andb_true_iff in Hpre. tauto.
    + rewrite ends_text_suffix in He. exact He.
  - intros x y ->. apply exec_sqlVerRx_open; eapply has_open_suffix, has_open_plain, Hpost.
Qed.

Lemma frag_version_span env keys rplmts pre op sign n body n1 d1 s1 s2 s3 no d2 n2 post cmp :
  d1 <= 2 -> d2 <= 2 ->
  plain pre = true -> ends_text pre = true ->
  COMPARE op = Some cmp -> is_comparator op = true -> is_sign sign = true ->
  plain body = true -> no_leading_break body = true -> no_trailing_dash body = true ->
  plain post = true -> no_leading_break post = true ->
  frag env (pre ++ version_span op sign (index_text n) body n1 d1 s1 s2 s3 no d2 n2 ++ post)
       keys rplmts =
  (pre ++ (if cmp (env_version env) (inject_Z (Z.of_nat n)) && nonempty body
           then breaks n1 ++ body else collapse (breaks n1) (breaks n2)) ++ post,
   rplmts).
Proof.
  intros Hd1 Hd2 Hpre He Hc Hop Hs Hb Hl Hd Hpost Hr. unfold frag.
  assert (Hn : nonempty (pre ++ version_span op sign (index_text n) body n1 d1 s1 s2 s3 no
                           d2 n2 ++ post) = true).
  { destruct pre; [|reflexivity]. cbn [app].
    pose proof (version_span_nonempty op sign (index_text n) body n1 d1 s1 s2 s3 no d2 n2).
    destruct (version_span _ _ _ _ _ _ _ _ _ _ _ _); [contradiction|reflexivity]. }
  rewrite Hn. rewrite array_pass_no_colon.
  2:{ rewrite !forallb_app, (plain_not_colon _ Hpre), (plain_not_colon _ Hpost).
      rewrite not_colon_version_span; try assumption; [reflexivity|apply index_text_digits|].
      apply plain_not_colon, Hb. }
  rewrite dialect_pass_fixed.
  2:{ rewrite has_open_skip by (apply plain_not_open, Hpre).
      rewrite has_open_version_span; try assumption; try reflexivity.
      - apply has_open_plain, plain_not_open, Hpost.
      - apply index_text_digits.
      - apply plain_not_open, Hb. }
  rewrite (version_pass_span env pre op sign n body n1 d1 s1 s2 s3 no d2 n2 post cmp);
    try assumption; try (apply plain_not_open; assumption).
  rewrite fragment_pass_plain; [reflexivity|].
  rewrite !forallb_app, (plain_not_open _ Hpre), (plain_not_open _ Hpost).
  rewrite resolved_not_open by (apply plain_not_open, Hb). reflexivity.
Qed.

(** * What a call does to the state of its connection *)

Lemma writes_app l rq :
  writes (l ++ [rq]) = writes l + (if is_READ (rq_type rq) then 0 else 1).
Proof.
  unfold writes. rewrite List.filter_app, length_app. cbn [List.filter].
  destruct (is_READ (rq_type rq)); reflexivity.
Qed.

Lemma DBS_exec_effect dbs fpth sql opts frags st :
  exists rq,
    cs_submitted (snd (DBS_exec dbs fpth sql opts frags st)) = cs_submitted st ++ [rq] /\
    rq_type rq = eo_type opts /\
    rq_sql rq = fst (frag (dbs_env dbs) sql frags (eo_binds opts)) /\
    rq_frags rq = frags /\
    rq_pending rq = cs_pending (snd (DBS_exec dbs fpth sql opts frags st)) /\
    cs_pending (snd (DBS_exec dbs fpth sql opts frags st)) =
      cs_pending st + (if is_READ (eo_type opts) then 0 else 1) /\
    cs_cache (snd (DBS_exec dbs fpth sql opts frags st)) = cs_cache st /\
    cs_disk (snd (DBS_exec dbs fpth sql opts frags st)) = cs_disk st.
Proof.
  unfold DBS_exec. destruct (frag (dbs_env dbs) sql frags (eo_binds opts)) as [sqlf rplmts].
  destruct (dbx_exec _ _); [|destruct (eo_returnErrors opts)];
    (eexists; repeat split; reflexivity).
Qed.

Lemma DBS_exec_counts dbs fpth sql opts frags st :
  pending_counts_writes st ->
  pending_counts_writes (snd (DBS_exec dbs fpth sql opts frags st)).
Proof.
  unfold pending_counts_writes. intros H.
  destruct (DBS_exec_effect dbs fpth sql opts frags st) as (rq & Es & Et & _ & _ & _ & Ep & _).
  rewrite Ep, Es, writes_app, Et, H. reflexivity.
Qed.

(** The ways a call of a statement function ends: it is rejected before
    anything happened, or it went through [DBS.exec] on some text, from the
    state [st] or from [st] with the text just read put into the cache. *)
Lemma execSqlPublic_cases sqls h opts frags st :
  (exists e, execSqlPublic sqls h opts frags st = (Rejected e, st)) \/
  (exists sql type bnds st0,
     execSqlPublic sqls h opts frags st =
       genExecSqlFromFileFunction sqls (h_fpth h) type bnds frags sql st0 /\
     cs_pending st0 = cs_pending st /\ cs_submitted st0 = cs_submitted st /\
     cs_disk st0 = cs_disk st).
Proof.
  unfold execSqlPublic.
  destruct (negb (truthy_string (h_crud h)) && _).
  { left. unfold free_identifier. cbn [assoc node_globals]. eauto. }
  destruct (has_invalid_date _); [left; eauto|].
  destruct opts as [o|]; [|left; eauto].
  unfold stmt_method. destruct (h_source h) as [sql|id].
  - right. eexists _, _, _, st. auto.
  - destruct (cs_cache st !! id) as [[|a item]|].
    + destruct (readSqlFile _ _ _) as [sql|e]; [|left; eauto].
      right. eexists _, _, _, _. split; [reflexivity|]. auto.
    + right. eexists _, _, _, st. auto.
    + destruct (readSqlFile _ _ _) as [sql|e]; [|left; eauto].
      right. eexists _, _, _, _. split; [reflexivity|]. auto.
Qed.

(** [toISOString] throws on an invalid date among the binds of a call, and
    the call is rejected before anything is read or handed to the driver. *)
Lemma execSqlPublic_invalid_date sqls h o frags st :
  truthy_string (h_crud h) || truthy_string (o_type o) = true ->
  has_invalid_date (o_binds o) = true ->
  execSqlPublic sqls h (Some o) frags st = (Rejected (RangeError "Invalid time value"), st).
Proof.
  intros Ht Hd. unfold execSqlPublic. rewrite Hd.
  destruct (truthy_string (h_crud h)), (truthy_string (o_type o)); try discriminate Ht;
    reflexivity.
Qed.



(** * Properties of an object *)

Lemma leaves_unfold n :
  leaves n = match n with
             | Container ps => leaves_props ps
             | Leaf _ ps => S (leaves_props ps)
             end.
Proof.
  assert (H : forall ps,
             (fix go (ps : list (string * ns_node)) : nat :=
                match ps with
                | [] => 0
                | (_, c) :: ps' => leaves c + go ps'
                end) ps = leaves_props ps).
  { induction ps as [|[k c] ps IH]; [reflexivity|]. cbn [leaves_props]. rewrite <- IH. reflexivity. }
  destruct n; cbn [leaves]; rewrite H; reflexivity.
Qed.

Lemma assoc_set_leaves k v ps :
  leaves_props (assoc_set k v ps) + match assoc k ps with Some c => leaves c | None => 0 end =
  leaves_props ps + leaves v.
Proof.
  induction ps as [|[k' c] ps IH]; cbn [assoc_set assoc leaves_props]; [lia|].
  destruct (bool_decide (k' = k)); cbn [leaves_props]; lia.
Qed.

Lemma set_prop_leaves so k v :
  leaves (set_prop so k v) + leaves_at so k = leaves so + leaves v.
Proof.
  unfold set_prop, leaves_at, get_prop.
  pose proof (assoc_set_leaves k v (props_of so)) as H.
  destruct so as [ps|h ps]; cbn [with_props props_of] in *.
  - rewrite (leaves_unfold (Container _)), (leaves_unfold (Container ps)). exact H.
  - rewrite (leaves_unfold (Leaf _ _)), (leaves_unfold (Leaf h ps)). lia.
Qed.

Lemma assoc_assoc_set {A} k k' (v : A) ps :
  assoc k' (assoc_set k v ps) = if bool_decide (k = k') then Some v else assoc k' ps.
Proof.
  induction ps as [|[k0 v0] ps IH]; cbn [assoc_set assoc].
  - destruct (bool_decide (k = k')); reflexivity.
  - destruct (bool_decide (k0 = k)) eqn:E0; cbn [assoc].
    + apply bool_decide_eq_true in E0. subst k0.
      destruct (bool_decide (k = k')); reflexivity.
    + rewrite IH. apply bool_decide_eq_false in E0.
      destruct (bool_decide (k0 = k')) eqn:E1; [|reflexivity].
      apply bool_decide_eq_true in E1. subst k0.
      rewrite bool_decide_eq_false_2 by congruence. reflexivity.
Qed.

Lemma props_of_with_props so ps : props_of (with_props so ps) = ps.
Proof. destruct so; reflexivity. Qed.

Lemma get_set_prop so k k' v :
  get_prop (set_prop so k v) k' = if bool_decide (k = k') then Some v else get_prop so k'.
Proof. unfold get_prop, set_prop. rewrite props_of_with_props. apply assoc_assoc_set. Qed.

Lemma assoc_set_same {A} k (v : A) ps : assoc k ps = Some v -> assoc_set k v ps = ps.
Proof.
  induction ps as [|[k0 v0] ps IH]; cbn [assoc assoc_set]; [discriminate|].
  destruct (bool_decide (k0 = k)) eqn:E.
  - apply bool_decide_eq_true in E. subst k0. intros H. injection H as ->. reflexivity.
  - intros H. rewrite (IH H). reflexivity.
Qed.

Lemma with_props_same so : with_props so (props_of so) = so.
Proof. destruct so; reflexivity. Qed.

Lemma set_prop_same so k v : get_prop so k = Some v -> set_prop so k v = so.
Proof.
  unfold get_prop, set_prop. intros H. rewrite (assoc_set_same k v _ H).
  apply with_props_same.
Qed.

(** * The walk *)

Lemma SQLS_prepared_counts_one sqls name fpth ext file data :
  counts_one (SQLS_prepared sqls name fpth ext file data).
Proof.
  intros n. unfold SQLS_prepared, bind, lift, ret, throw, count_stmt.
  destruct (conn_logging (sq_conn sqls) && negb (truthy_string (crud_of file))).
  - unfold free_identifier. cbn [assoc node_globals]. reflexivity.
  - destruct (sq_cached sqls); [reflexivity|]. destruct data; reflexivity.
Qed.

Lemma place_equation ns so leaf :
  place ns so leaf =
  match ns with
  | [] => ret so
  | [k] =>
      match get_prop so k with
      | Some _ => ret so
      | None => bind leaf (fun h => ret (set_prop so k (Leaf h [])))
      end
  | k :: ns' =>
      bind (place ns' (default (Container []) (get_prop so k)) leaf)
           (fun child' => ret (set_prop so k child'))
  end.
Proof. destruct ns as [|k [|k' ns']]; reflexivity. Qed.

Lemma leaves_at_default so k : leaves (default (Container []) (get_prop so k)) = leaves_at so k.
Proof. unfold leaves_at. destruct (get_prop so k); reflexivity. Qed.

(** Placing a file adds as many statement functions to the namespace as it
    counts. *)
Lemma place_leaves leaf (Hleaf : counts_one leaf) ns : forall so n so' n',
  place ns so leaf n = (Resolved so', n') -> leaves so' + n = leaves so + n'.
Proof.
  induction ns as [|k ns IH]; intros so n so' n' H.
  - injection H as <- <-. reflexivity.
  - rewrite place_equation in H. destruct ns as [|k' ns'].
    + destruct (get_prop so k) as [c|] eqn:E.
      * injection H as <- <-. reflexivity.
      * unfold bind, ret in H. specialize (Hleaf n).
        destruct (leaf n) as [[h|e] n1]; [|discriminate].
        injection H as <- <-. subst n1.
        pose proof (set_prop_leaves so k (Leaf h [])) as L.
        unfold leaves_at in L. rewrite E in L.
        rewrite (leaves_unfold (Leaf h [])) in L. cbn [leaves_props] in L. lia.
    + unfold bind, ret in H.
      destruct (place (k' :: ns') _ leaf n) as [[child'|e] n1] eqn:Ep; [|discriminate].
      injection H as <- <-.
      apply IH in Ep. rewrite leaves_at_default in Ep.
      pose proof (set_prop_leaves so k child') as L. lia.
Qed.

(** When the walk fails, nothing it has counted is lost. *)
Lemma place_count leaf (Hleaf : counts_one leaf) ns : forall so n r n',
  place ns so leaf n = (r, n') -> n <= n'.
Proof.
  induction ns as [|k ns IH]; intros so n r n' H.
  - injection H as <- <-. reflexivity.
  - rewrite place_equation in H. destruct ns as [|k' ns'].
    + destruct (get_prop so k) as [c|].
      * injection H as <- <-. reflexivity.
      * unfold bind, ret in H. specialize (Hleaf n).
        destruct (leaf n) as [[h|e] n1]; injection H as <- <-; lia.
    + unfold bind, ret in H.
      destruct (place (k' :: ns') _ leaf n) as [[child'|e] n1] eqn:Ep;
        injection H as <- <-; eapply IH; eassumption.
Qed.

(** Where the names lead somewhere already, placing a file changes nothing
    and does not run the step that prepares a statement. *)
Lemma place_skip leaf ns : forall so n,
  ns <> [] -> has_path ns so = true -> place ns so leaf n = (Resolved so, n).
Proof.
  induction ns as [|k ns IH]; intros so n Hne H; [contradiction|].
  rewrite place_equation. cbn [has_path] in H.
  destruct (get_prop so k) as [c|] eqn:E; [|discriminate].
  destruct ns as [|k' ns']; [reflexivity|].
  unfold bind, ret. cbn [default]. rewrite IH by (discriminate || exact H).
  cbn iota beta. unfold id. rewrite (set_prop_same so k c E). reflexivity.
Qed.

(** After a file was placed, its names lead somewhere. *)
Lemma place_has_path leaf ns : forall so n so' n',
  place ns so leaf n = (Resolved so', n') -> has_path ns so' = true.
Proof.
  induction ns as [|k ns IH]; intros so n so' n' H; [reflexivity|].
  rewrite place_equation in H. cbn [has_path]. destruct ns as [|k' ns'].
  - destruct (get_prop so k) as [c|] eqn:E.
    + injection H as <- <-. rewrite E. reflexivity.
    + unfold bind, ret in H. destruct (leaf n) as [[h|e] n1]; [|discriminate].
      injection H as <- <-. rewrite get_set_prop, bool_decide_eq_true_2 by reflexivity.
      reflexivity.
  - unfold bind, ret in H.
    destruct (place (k' :: ns') _ leaf n) as [[child'|e] n1] eqn:Ep; [|discriminate].
    injection H as <- <-. rewrite get_set_prop, bool_decide_eq_true_2 by reflexivity.
    eapply IH, Ep.
Qed.

(** Placing a file keeps the names of the files placed before it. *)
Lemma place_keeps_path leaf ns0 : forall ns so n so' n',
  has_path ns0 so = true ->
  place ns so leaf n = (Resolved so', n') -> has_path ns0 so' = true.
Proof.
  induction ns0 as [|k0 ns0 IH]; intros ns so n so' n' H0 H; [reflexivity|].
  cbn [has_path] in *. destruct (get_prop so k0) as [c0|] eqn:E0; [|discriminate].
  destruct ns as [|k ns]; [injection H as <- <-; rewrite E0; exact H0|].
  rewrite place_equation in H. destruct ns as [|k' ns'].
  - destruct (get_prop so k) as [c|] eqn:E.
    + injection H as <- <-. rewrite E0. exact H0.
    + unfold bind, ret in H. destruct (leaf n) as [[h|e] n1]; [|discriminate].
      injection H as <- <-. rewrite get_set_prop.
      destruct (bool_decide (k = k0)) eqn:Ek; [|rewrite E0; exact H0].
      apply bool_decide_eq_true in Ek. subst k0. congruence.
  - unfold bind, ret in H.
    destruct (place (k' :: ns') _ leaf n) as [[child'|e] n1] eqn:Ep; [|discriminate].
    injection H as <- <-. rewrite get_set_prop.
    destruct (bool_decide (k = k0)) eqn:Ek; [|rewrite E0; exact H0].
    apply bool_decide_eq_true in Ek. subst k0. rewrite E0 in Ep. cbn [default] in Ep.
    unfold id in Ep. eapply IH; eassumption.
Qed.

(** * The walk over the files of a directory *)

Lemma prepare_file sqls name data cont pnm pdir :
  prepare_entry sqls (File name data) cont pnm pdir =
  place (segments name) cont
    (SQLS_prepared sqls (handle_name sqls pnm name) (pdir +:+ "/" +:+ name)
       (extension name) name data).
Proof.
  unfold prepare_entry, segments, extension, handle_name, segments.
  destruct (pop_ext (split_dot (sanitize_file (txt name)))) as [ns ext]. reflexivity.
Qed.

Lemma split_dot_nonempty t : split_dot t <> [].
Proof.
  induction t as [|a t IH]; [discriminate|]. cbn [split_dot].
  destruct (ascii_eqb a "."); [discriminate|]. destruct (split_dot t); discriminate.
Qed.

Lemma segments_nonempty name : segments name <> [].
Proof.
  unfold segments. pose proof (split_dot_nonempty (sanitize_file (txt name))) as H.
  destruct (split_dot _) as [|x [|y l]]; [contradiction|discriminate|].
  cbn [pop_ext fst]. change (removelast (x :: y :: l)) with (x :: removelast (y :: l)).
  discriminate.
Qed.

Lemma prepare_flat_leaves sqls es : forall cont pnm pdir n db n',
  flat es = true ->
  prepare sqls es cont pnm pdir n = (Resolved db, n') -> leaves db + n = leaves cont + n'.
Proof.
  induction es as [|e es IH]; intros cont pnm pdir n db n' Hf H.
  - injection H as <- <-. reflexivity.
  - cbn [flat forallb] in Hf. apply andb_true_iff in Hf. destruct Hf as [He Hf].
    destruct e as [name data|name sub]; [|discriminate].
    cbn [prepare] in H. unfold bind in H. rewrite prepare_file in H.
    destruct (place _ cont _ n) as [[c|e] n1] eqn:Ep; [|discriminate].
    apply (place_leaves _ (SQLS_prepared_counts_one _ _ _ _ _ _)) in Ep.
    apply IH in H; [|exact Hf]. lia.
Qed.

(** The names of all files of a flat directory lead somewhere after the
    walk, and so do the names that did before. *)
Lemma prepare_flat_paths sqls es : forall cont pnm pdir n db n',
  flat es = true ->
  prepare sqls es cont pnm pdir n = (Resolved db, n') ->
  (forall ns0, has_path ns0 cont = true -> has_path ns0 db = true) /\
  Forall (fun e => match e with
                   | File name _ => has_path (segments name) db = true
                   | Dir _ _ => True
                   end) es.
Proof.
  induction es as [|e es IH]; intros cont pnm pdir n db n' Hf H.
  - injection H as <- <-. split; [auto|constructor].
  - cbn [flat forallb] in Hf. apply andb_true_iff in Hf. destruct Hf as [He Hf].
    destruct e as [name data|name sub]; [|discriminate].
    cbn [prepare] in H. unfold bind in H. rewrite prepare_file in H.
    destruct (place _ cont _ n) as [[c|e] n1] eqn:Ep; [|discriminate].
    destruct (IH _ _ _ _ _ _ Hf H) as [Hkeep Hall]. split.
    + intros ns0 H0. apply Hkeep. eapply place_keeps_path; eassumption.
    + constructor; [|exact Hall]. apply Hkeep. eapply place_has_path, Ep.
Qed.

(** A walk over files whose names all lead somewhere prepares nothing. *)
Lemma prepare_flat_again sqls es : forall cont pnm pdir n,
  flat es = true ->
  Forall (fun e => match e with
                   | File name _ => has_path (segments name) cont = true
                   | Dir _ _ => True
                   end) es ->
  prepare sqls es cont pnm pdir n = (Resolved cont, n).
Proof.
  induction es as [|e es IH]; intros cont pnm pdir n Hf Hall; [reflexivity|].
  cbn [flat forallb] in Hf. apply andb_true_iff in Hf. destruct Hf as [He Hf].
  destruct e as [name data|name sub]; [|discriminate].
  inversion Hall as [|? ? Hp Hrest]; subst.
  cbn [prepare]. unfold bind. rewrite prepare_file.
  rewrite place_skip by (apply segments_nonempty || exact Hp).
  apply IH; assumption.
Qed.

(** * A file in a new place *)

Lemma get_path_nest_under ns h : get_path ns (nest_under ns h) = Some (Leaf h []).
Proof.
  induction ns as [|k ns IH]; [reflexivity|].
  cbn [get_path nest_under]. unfold get_prop. cbn [props_of assoc].
  rewrite bool_decide_eq_true_2 by reflexivity. exact IH.
Qed.

Lemma place_fresh leaf ns : forall n,
  ns <> [] ->
  place ns (Container []) leaf n =
  match leaf n with
  | (Resolved h, n1) => (Resolved (Container [(hd "" ns, nest_under (tl ns) h)]), n1)
  | (Rejected e, n1) => (Rejected e, n1)
  end.
Proof.
  induction ns as [|k ns IH]; intros n Hne; [contradiction|].
  rewrite place_equation. destruct ns as [|k' ns'].
  - cbn [get_prop props_of assoc hd tl nest_under]. unfold bind, ret.
    destruct (leaf n) as [[h|e] n1]; reflexivity.
  - unfold get_prop at 1. cbn [props_of assoc default].
    unfold bind, ret. rewrite IH by discriminate.
    destruct (leaf n) as [[h|e] n1]; reflexivity.
Qed.

(** Where the first name is not set yet, placing a file runs the step that
    prepares the statement and puts the function at the end of new objects. *)
Lemma place_new leaf k ns so n :
  get_prop so k = None ->
  place (k :: ns) so leaf n =
  match leaf n with
  | (Resolved h, n1) => (Resolved (set_prop so k (nest_under ns h)), n1)
  | (Rejected e, n1) => (Rejected e, n1)
  end.
Proof.
  intros E. rewrite place_equation. rewrite E. destruct ns as [|k' ns'].
  - unfold bind, ret. destruct (leaf n) as [[h|e] n1]; reflexivity.
  - cbn [default]. unfold bind, ret. rewrite place_fresh by discriminate.
    destruct (leaf n) as [[h|e] n1]; reflexivity.
Qed.

Lemma get_path_place_new so k ns h :
  get_path (k :: ns) (set_prop so k (nest_under ns h)) = Some (Leaf h []).
Proof.
  cbn [get_path]. rewrite get_set_prop, bool_decide_eq_true_2 by reflexivity.
  apply get_path_nest_under.
Qed.

(** * File names made of segments *)

Lemma word_not_dot a : is_word a = true -> ascii_eqb a "." = false.
Proof. all_chars a. Qed.

Lemma sanitize_word_char a :
  is_word a = true -> (if is_alnum a || ascii_eqb a "." then a else "_"%char) = a.
Proof. all_chars a. Qed.

Lemma sanitize_file_word t : forallb is_word t = true -> sanitize_file t = t.
Proof.
  induction t as [|a t IH]; [reflexivity|]. cbn [forallb]. intros H.
  apply andb_true_iff in H. destruct H as [Ha Ht].
  unfold sanitize_file in *. cbn [map]. rewrite (sanitize_word_char a Ha), (IH Ht). reflexivity.
Qed.

Lemma sanitize_file_app x y : sanitize_file (x ++ y) = sanitize_file x ++ sanitize_file y.
Proof. apply map_app. Qed.

Lemma sanitize_file_dotted segs :
  Forall (fun x => forallb is_word x = true) segs -> sanitize_file (dotted segs) = dotted segs.
Proof.
  unfold dotted. induction 1 as [|x l Hx Hl IH]; [reflexivity|].
  cbn [sep_by]. destruct l as [|y l]; [apply sanitize_file_word, Hx|].
  rewrite !sanitize_file_app, (sanitize_file_word x Hx), IH. reflexivity.
Qed.

Lemma split_dot_word x : forallb is_word x = true -> split_dot x = [x].
Proof.
  induction x as [|a x IH]; [reflexivity|]. cbn [forallb]. intros H.
  apply andb_true_iff in H. destruct H as [Ha Hx].
  cbn [split_dot]. rewrite (word_not_dot a Ha), (IH Hx). reflexivity.
Qed.

Lemma split_dot_app x rest :
  forallb is_word x = true -> split_dot (x ++ "."%char :: rest) = x :: split_dot rest.
Proof.
  induction x as [|a x IH]; [reflexivity|]. cbn [forallb]. intros H.
  apply andb_true_iff in H. destruct H as [Ha Hx].
  cbn [app split_dot]. rewrite (word_not_dot a Ha), (IH Hx). reflexivity.
Qed.

Lemma split_dot_dotted segs :
  segs <> [] -> Forall (fun x => forallb is_word x = true) segs ->
  split_dot (dotted segs) = segs.
Proof.
  unfold dotted. intros Hne H. induction H as [|x l Hx Hl IH]; [contradiction|].
  cbn [sep_by]. destruct l as [|y l]; [apply split_dot_word, Hx|].
  change (x ++ txt "." ++ sep_by (txt ".") (y :: l)) with
    (x ++ "."%char :: sep_by (txt ".") (y :: l)).
  rewrite (split_dot_app x _ Hx), IH by discriminate. reflexivity.
Qed.

Lemma pop_ext_snoc (segs : list text) ext :
  segs <> [] -> pop_ext (segs ++ [ext]) = (segs, ext).
Proof.
  intros Hne. destruct segs as [|x segs]; [contradiction|].
  destruct segs as [|y segs]; [reflexivity|].
  pose proof (removelast_last (x :: y :: segs) ext) as H1.
  pose proof (last_last (x :: y :: segs) ext []) as H2.
  unfold pop_ext. cbn [app] in *. rewrite H1, H2. reflexivity.
Qed.

Lemma segments_dotted segs ext :
  segs <> [] -> Forall (fun x => forallb is_word x = true) segs -> forallb is_word ext = true ->
  segments (str (dotted (segs ++ [ext]))) = map str segs /\
  extension (str (dotted (segs ++ [ext]))) = str ext.
Proof.
  intros Hne Hs He. unfold segments, extension. rewrite txt_str.
  assert (Hall : Forall (fun x => forallb is_word x = true) (segs ++ [ext])).
  { apply Forall_app. split; [exact Hs|]. constructor; [exact He|constructor]. }
  rewrite sanitize_file_dotted by exact Hall.
  rewrite split_dot_dotted by (exact Hall || destruct segs; discriminate).
  rewrite pop_ext_snoc by exact Hne. split; reflexivity.
Qed.

(** * The constructor of [Manager] *)

Lemma new_SQLS_name node mainPath cache dbx logging id c s :
  new_SQLS node mainPath cache dbx logging id c = Resolved s ->
  connectionName s = conf_name c /\ truthy_string (cc_name c) = true /\
  env_dialect (dbs_env (sq_dbs (sqls_env s))) = toLowerCase (txt (cc_dialect c)) /\
  env_version (dbs_env (sq_dbs (sqls_env s))) = default 0%Q (cc_version c) /\
  sqls_db s = Container [] /\ sqls_numOfPreparedStmts s = None.
Proof.
  unfold new_SQLS. destruct (cc_name c) as [[|a nm]|] eqn:E; try discriminate.
  intros H. injection H as <-. unfold conf_name. rewrite E. repeat split; reflexivity.
Qed.

Lemma construct_facts node conf cache logging mainPath privatePath i c b s b' :
  construct node conf cache logging mainPath privatePath i c b = Resolved (s, b') ->
  connectionName s = conf_name c /\
  name_taken b (conf_name c) = false /\
  b_names b' = conf_name c :: b_names b /\
  valid_conn conf (b_dialects b) c = true /\
  (forall k, is_Some (b_dialects b' !! k) <-> is_Some (b_dialects b !! k)) /\
  env_dialect (dbs_env (sq_dbs (sqls_env s))) = toLowerCase (txt (cc_dialect c)) /\
  env_version (dbs_env (sq_dbs (sqls_env s))) = default 0%Q (cc_version c).
Proof.
  unfold construct, valid_conn.
  destruct (cc_id c) as [[|a id']|] eqn:Eid; try discriminate.
  cbn [shown default]. unfold id.
  destruct (univ_def (conf_univ_db conf) (String a id')) as [def|] eqn:Eu; [|discriminate].
  destruct (b_dialects b !! str (toLowerCase (txt (cc_dialect c)))) as [d|] eqn:Ed;
    [|discriminate].
  destruct (match d with DClass cls => _ | DModule path => _ end) as [cls|e]; [|discriminate].
  destruct (cls _) as [dbx|e]; [|discriminate].
  fold (conf_name c).
  destruct (name_taken b (conf_name c)) eqn:Et; [discriminate|].
  destruct (new_SQLS node mainPath cache dbx logging (String a id') c) as [sq|e] eqn:Es;
    [|discriminate].
  intros H. injection H as <- <-.
  destruct (new_SQLS_name _ _ _ _ _ _ _ _ Es) as (Hn & Ht & Hd & Hv & _).
  cbn [b_names b_dialects truthy_string andb]. rewrite Ht.
  rewrite !bool_decide_eq_true_2 by eauto.
  repeat split; try assumption; try reflexivity.
  - intros [v Hv']. destruct (decide (str (toLowerCase (txt (cc_dialect c))) = k)) as [<-|Hne].
    + eauto.
    + rewrite lookup_insert_ne in Hv' by exact Hne. eauto.
  - intros [v Hv']. destruct (decide (str (toLowerCase (txt (cc_dialect c))) = k)) as [<-|Hne].
    + rewrite lookup_insert_eq. eauto.
    + rewrite lookup_insert_ne by exact Hne. eauto.
Qed.

Lemma valid_conn_dom conf d1 d2 c :
  (forall k, is_Some (d1 !! k) <-> is_Some (d2 !! k)) ->
  valid_conn conf d1 c = valid_conn conf d2 c.
Proof.
  intros H. unfold valid_conn. f_equal. apply bool_decide_ext, H.
Qed.

Lemma forallb_same {A} (f g : A -> bool) (l : list A) :
  (forall a, f a = g a) -> forallb f l = forallb g l.
Proof. intros H. induction l as [|a l IH]; [reflexivity|]. cbn [forallb]. rewrite H, IH. reflexivity. Qed.

Lemma construct_all_facts node conf cache logging mainPath privatePath cs :
  forall i b sqls,
    construct_all node conf cache logging mainPath privatePath i cs b = Resolved sqls ->
    map connectionName sqls = map conf_name cs /\
    NoDup (map connectionName sqls) /\
    Forall (fun n => name_taken b n = false) (map connectionName sqls) /\
    forallb (valid_conn conf (b_dialects b)) cs = true /\
    Forall2 (fun c s =>
               env_dialect (dbs_env (sq_dbs (sqls_env s))) = toLowerCase (txt (cc_dialect c)) /\
               env_version (dbs_env (sq_dbs (sqls_env s))) = default 0%Q (cc_version c))
            cs sqls.
Proof.
  induction cs as [|c cs IH]; intros i b sqls H; cbn [construct_all] in H.
  - injection H as <-. repeat split; constructor.
  - destruct (construct node conf cache logging mainPath privatePath i c b)
      as [[s b']|e] eqn:Ec; [|discriminate].
    destruct (construct_all _ _ _ _ _ _ (S i) cs b') as [rest|e] eqn:Er; [|discriminate].
    injection H as <-.
    destruct (construct_facts _ _ _ _ _ _ _ _ _ _ _ Ec) as (Hn & Ht & Hb & Hv & Hdom & Hd & Hver).
    destruct (IH _ _ _ Er) as (Hnames & Hnd & Hfree & Hvalid & Henv).
    cbn [map forallb]. rewrite Hn, Hnames, Hv.
    rewrite (forallb_same _ (valid_conn conf (b_dialects b)) cs) in Hvalid
      by (intros c'; apply valid_conn_dom, Hdom).
    assert (Hfree' : Forall (fun n => name_taken b n = false /\ n <> conf_name c)
                            (map connectionName rest)).
    { eapply Forall_impl; [exact Hfree|]. intros n Hn'. cbv beta in Hn'.
      unfold name_taken in *. rewrite Hb in Hn'.
      apply orb_false_iff in Hn'. destruct Hn' as [H1 H2].
      apply bool_decide_eq_false in H1. rewrite H2, orb_false_r. split.
      - apply bool_decide_eq_false. intros Hin. apply H1. right. exact Hin.
      - intros ->. apply H1. left. }
    rewrite <- Hnames. repeat split.
    + constructor; [|exact Hnd]. rewrite Forall_forall in Hfree'.
      intros Hin. destruct (Hfree' _ Hin) as [_ Hne]. congruence.
    + constructor; [exact Ht|]. eapply Forall_impl; [exact Hfree'|].
      intros n [Hn1 _]. exact Hn1.
    + exact Hvalid.
    + constructor; [split; assumption|exact Henv].
Qed.

(** * Lifecycle calls *)

Lemma queue_all_plain series connNames sqls : forall i ax,
  queue_all (plain_opts series) connNames i sqls ax =
  Resolved (ax ++ tasks_for series connNames i sqls).
Proof.
  induction sqls as [|s rest IH]; intros i ax; cbn [queue_all tasks_for].
  - rewrite app_nil_r. reflexivity.
  - unfold selected. destruct (nonempty_list connNames); cbn [negb andb orb].
    + destruct (bool_decide (connectionName s ∈ connNames)); cbn [negb].
      * unfold queue. cbn [plain_opts oo_connections oo_executeInSeries].
        rewrite IH, <- app_assoc. unfold lane_of. reflexivity.
      * rewrite IH. reflexivity.
    + unfold queue. cbn [plain_opts oo_connections oo_executeInSeries].
      rewrite IH, <- app_assoc. unfold lane_of. reflexivity.
Qed.

Lemma tasks_for_names series connNames sqls : forall i,
  map t_name (tasks_for series connNames i sqls) =
  map connectionName (List.filter (selected connNames) sqls).
Proof.
  induction sqls as [|s rest IH]; intros i; cbn [tasks_for List.filter]; [reflexivity|].
  rewrite map_app, IH. destruct (selected connNames s); reflexivity.
Qed.

Lemma tasks_for_lanes series connNames sqls : forall i,
  Forall (fun t => t_lane t = lane_of series) (tasks_for series connNames i sqls).
Proof.
  induction sqls as [|s rest IH]; intros i; cbn [tasks_for]; [constructor|].
  apply Forall_app. split; [|apply IH].
  destruct (selected connNames s); constructor; [reflexivity|constructor].
Qed.

Lemma operation_count mgr fn opts connNames :
  mgr_sqlsCount (snd (operation mgr fn opts connNames)) = mgr_sqlsCount mgr.
Proof.
  unfold operation. destruct (queue_all _ _ _ _ _) as [ax|e]; [|reflexivity].
  destruct (ax_run fn ax (mgr_sqls mgr) ∅) as [r sqls]. reflexivity.
Qed.

(** * [frag] as its passes *)



(** * The array pass, token by token *)







(** * The keys of the tokens of a text *)



(** * A token in front of a colon *)





(** * What the array pass writes *)




(** * Brackets after the array pass *)





(** * The first token [:ids] of a text *)





(** * The pieces of the head of the version pattern *)











(** * A well-formed head *)
















(** * Where the version pattern matches *)






(** * A version guard whose head is not well formed *)









(** * A version guard among tokens *)



(** * The claims *)

(** C1, as stated, fails: with two connections of one and three statement
    files [Manager.init] returns the number 2, the count of connections, and
    stores 2, although the connections hold 1 and 3 prepared statements. *)
Lemma C1_init_counts_connections :
  fst (Manager_init manager) = Resolved 2%nat /\
  leaf_counts (snd (Manager_init manager)) = [1; 3]%nat /\
  mgr_sqlsCount (snd (Manager_init manager)) = Some 2%nat /\
  mgr_sqlsCount (snd (Manager_init manager)) <> Some (list_sum [1; 3]%nat).
Proof. vm_compute. repeat split; discriminate. Qed.

(** C1, amended: after [Manager.init] has completed successfully the stored
    count is the number of configured connections (their names being
    unique), and a second call of [init] fails as soon as that count is not
    zero. *)
Theorem C1_init_stores_connection_count mgr n mgr' :
  NoDup (map connectionName (mgr_sqls mgr)) ->
  Manager_init mgr = (Resolved n, mgr') ->
  0 < n ->
  n = length (mgr_sqls mgr) /\
  mgr_sqlsCount mgr' = Some n /\
  Manager_init mgr' =
  (Rejected (Error (str (index_text n) +:+ " database(s) already initialized")), mgr').
Proof.
  intros Hnd H Hn. split; [eapply Manager_init_size; eassumption|].
  pose proof (Manager_init_stores _ _ _ H) as Hs. split; [exact Hs|].
  destruct n as [|n]; [lia|]. eapply Manager_init_twice, Hs.
Qed.

Lemma C1_init_stores_connection_count_witness :
  (NoDup (map connectionName (mgr_sqls manager)) /\
   Manager_init manager = (Resolved 2%nat, snd (Manager_init manager)) /\
   0 < 2) /\
  2%nat = length (mgr_sqls manager) /\
  mgr_sqlsCount (snd (Manager_init manager)) = Some 2%nat /\
  Manager_init (snd (Manager_init manager)) =
  (Rejected (Error "2 database(s) already initialized"), snd (Manager_init manager)).
Proof.
  assert (Hnd : NoDup (map connectionName (mgr_sqls manager))).
  { apply (bool_decide_unpack _). reflexivity. }
  assert (Hi : Manager_init manager = (Resolved 2%nat, snd (Manager_init manager))).
  { reflexivity. }
  assert (Hn : 0 < 2) by lia.
  split; [exact (conj Hnd (conj Hi Hn))|].
  exact (C1_init_stores_connection_count manager 2 _ Hnd Hi Hn).
Defined.

(** C2: a call with [returnErrors] set, on a driver that throws, is rejected
    with the driver's error; [DBS.exec], given the same flag in its options,
    hands the error back as a value.  The options that
    [genExecSqlFromFileFunction] builds hold [type] and [binds] only. *)
Theorem C2_returnErrors_not_forwarded :
  fst (execSqlPublic (sqls_env_of "connA" failing_driver None) read_users
         (Some (call None None true)) None fresh) = Rejected (Thrown "ORA-00942") /\
  fst (DBS_exec {| dbs_dbx := failing_driver; dbs_env := oracle2 |}
         "/app/connA/read.users.sql" (txt "SELECT * FROM users WHERE since > :since")
         {| eo_type := Some "READ"; eo_binds := ∅; eo_returnErrors := true |}
         None fresh) = Resolved (ErrorValue (Thrown "ORA-00942")).
Proof. split; reflexivity. Qed.

(** C3: a commit whose options hold an override for [connA] is rejected with
    a [ReferenceError] while its first task is queued, and no task runs; the
    manager is unchanged.  With the default of the batch alone the same commit
    completes with a result for each connection. *)
Theorem C3_override_raises :
  Manager_commit manager (Some override_connA) [] =
  (Rejected (ReferenceError "name is not defined"), manager) /\
  fst (Manager_commit manager (Some all_in_series) []) =
  Resolved {["connA" := JUndefined; "connB" := JUndefined]}.
Proof. split; reflexivity. Qed.

(** C4: a call without [type] of the function prepared from [users.sql] is
    rejected at once and submits nothing, but with a [ReferenceError] for
    [OPERATION_TYPES] and not with the message that names the categories; with
    [type] set to READ the call goes to the driver. *)
Theorem C4_missing_type_error :
  execSqlPublic (sqls_env_of "connA" quiet_driver None) users
    (Some (call None None false)) None fresh =
  (Rejected (ReferenceError "OPERATION_TYPES is not defined"), fresh) /\
  fst (execSqlPublic (sqls_env_of "connA" quiet_driver None) users
         (Some (call (Some "READ") None false)) None fresh) = Resolved (Value (JArr [])) /\
  length (cs_submitted (snd (execSqlPublic (sqls_env_of "connA" quiet_driver None) users
         (Some (call (Some "READ") None false)) None fresh))) = 1%nat.
Proof. repeat split; reflexivity. Qed.


(** Malformed literals that hold a digit are treated alike: the guard
    stays in the text as it is. *)
Lemma malformed_literals_kept :
  fst (frag oracle2 (txt "a [[version >= 2x]]X[[version]] b") None ∅) =
    txt "a [[version >= 2x]]X[[version]] b" /\
  fst (frag oracle2 (txt "a [[version >= 1.2.3]]X[[version]] b") None ∅) =
    txt "a [[version >= 1.2.3]]X[[version]] b" /\
  fst (frag oracle2 (txt "a [[version >= .5]]X[[version]] b") None ∅) =
    txt "a [[version >= .5]]X[[version]] b".
Proof. repeat split; vm_compute; reflexivity. Qed.



(** C6, as stated, fails: when the first value of an array bind is an array
    itself, a second pass expands the token again and changes the text. *)
Lemma C6_second_pass_changes :
  fst (frag oracle2 (txt ":ids") None nested_binds) = txt ":ids, :ids1" /\
  fst (frag oracle2 (fst (frag oracle2 (txt ":ids") None nested_binds)) None
         (snd (frag oracle2 (txt ":ids") None nested_binds))) = txt ":ids, :ids1, :ids1" /\
  frag oracle2 (fst (frag oracle2 (txt ":ids") None nested_binds)) None
    (snd (frag oracle2 (txt ":ids") None nested_binds)) <>
  frag oracle2 (txt ":ids") None nested_binds.
Proof.
  split; [vm_compute; reflexivity|]. split; [vm_compute; reflexivity|].
  intros H. apply (f_equal fst) in H. vm_compute in H. discriminate.
Qed.

(** A second pass also changes the text where the first one has uncovered a
    marker: one guard inside another of the same kind. *)
Lemma second_pass_uncovered_guard :
  fst (frag oracle2 (txt "[[? a]][[? b]]x[[?]]y[[?]]") (Some ["a"]) ∅) = txt "[[? b]]xy[[?]]" /\
  fst (frag oracle2 (txt "[[? b]]xy[[?]]") (Some ["a"]) ∅) = [].
Proof. split; vm_compute; reflexivity. Qed.

(** C6, amended: when the text a pass has produced holds no guard marker
    and none of its tokens names a bind that still holds an array, a second
    pass with the same dialect, version and keys gives the same text and the
    same bind set. *)
Theorem C6_frag_idempotent env sql keys rplmts :
  has_marker (fst (frag env sql keys rplmts)) = false ->
  array_free (fst (frag env sql keys rplmts)) (snd (frag env sql keys rplmts)) = true ->
  frag env (fst (frag env sql keys rplmts)) keys (snd (frag env sql keys rplmts)) =
  frag env sql keys rplmts.
Proof.
  intros Hm Ha. rewrite (frag_fixed env _ keys _ Hm Ha).
  destruct (frag env sql keys rplmts); reflexivity.
Qed.

Lemma C6_frag_idempotent_witness :
  (has_marker (fst (frag oracle2 select_in None ids_binds)) = false /\
   array_free (fst (frag oracle2 select_in None ids_binds))
     (snd (frag oracle2 select_in None ids_binds)) = true) /\
  frag oracle2 (fst (frag oracle2 select_in None ids_binds)) None
    (snd (frag oracle2 select_in None ids_binds)) =
  frag oracle2 select_in None ids_binds.
Proof.
  split; [split; vm_compute; reflexivity|].
  apply C6_frag_idempotent; vm_compute; reflexivity.
Defined.





(** A date among the binds of the call reaches the driver as its ISO
    text. *)
Lemma call_date_normalized :
  (fun rq => rq_binds rq !! "since") <$>
    cs_submitted (snd (execSqlPublic (sqls_env_of "connA" quiet_driver None)
      read_users (Some (call None (Some {["since" := since]}) false)) None fresh)) =
  [Some (JStr "2020-01-01T00:00:00.000Z")].
Proof. vm_compute. reflexivity. Qed.

(** An invalid date among the binds of the call: [toISOString] throws, the
    call is rejected and nothing is handed to the driver. *)
Lemma invalid_date_rejected :
  execSqlPublic (sqls_env_of "connA" quiet_driver None) read_users
    (Some (call None (Some {["since" := JDate None]}) false)) None fresh =
  (Rejected (RangeError "Invalid time value"), fresh).
Proof. vm_compute. reflexivity. Qed.



(** C9, as stated, fails: a text with no guard marker is changed, and so is
    the bind set, when a token names an array bind. *)
Lemma C9_plain_text_changed :
  has_marker (txt "id IN (:ids)") = false /\
  fst (frag oracle2 (txt "id IN (:ids)") None ids_binds) = txt "id IN (:ids, :ids1, :ids2)" /\
  snd (frag oracle2 (txt "id IN (:ids)") None ids_binds) !! "ids1" = Some (JNum 20) /\
  ids_binds !! "ids1" = None.
Proof. repeat split; vm_compute; reflexivity. Qed.

(** C9, amended: [frag] gives back, character for character, a text that
    holds no guard marker and no token naming an array bind, and leaves the
    bind set as it was. *)
Theorem C9_frag_identity env sql keys rplmts :
  has_marker sql = false ->
  array_free sql rplmts = true ->
  frag env sql keys rplmts = (sql, rplmts).
Proof. apply frag_fixed. Qed.

Lemma C9_frag_identity_witness :
  (has_marker select_plain = false /\ array_free select_plain scalar_binds = true) /\
  frag oracle2 select_plain (Some ["k"]) scalar_binds = (select_plain, scalar_binds).
Proof.
  split; [split; vm_compute; reflexivity|].
  apply C9_frag_identity; vm_compute; reflexivity.
Defined.

(** C10: a statement function called without options is rejected and
    nothing reaches the driver, whether the file has a CRUD prefix (reading
    [opts.type] raises a [TypeError]) or not. *)
Theorem C10_options_required sqls h frags st :
  execSqlPublic sqls h None frags st =
  (Rejected (if truthy_string (h_crud h)
             then TypeError "Cannot read properties of undefined (reading 'type')"
             else ReferenceError "OPERATION_TYPES is not defined"), st).
Proof.
  unfold execSqlPublic. destruct (truthy_string (h_crud h)); reflexivity.
Qed.

Import Sample.
Import Setup.

(** * Further properties of [DBS.frag] *)

(** X1 (DBS.frag, sqlArrayRpl).  A token [:key] whose key is made of
    letters and names a collection of [n] values is replaced by the [n] tokens
    [:key, :key1, ..., :key(n-1)], separated by a comma and a blank; for an
    empty collection the token stays as it is.  The text around the token is
    plain, and what follows it does not start with a letter (it may start
    with a digit, which is never part of the key). *)
Theorem array_token_expansion env keys rplmts pre key post vals :
  nonempty key = true -> forallb is_letter key = true ->
  rplmts !! str key = Some (JArr vals) ->
  plain pre = true -> plain post = true -> no_leading_letter post = true ->
  fst (frag env (pre ++ ":"%char :: key ++ post) keys rplmts) =
  pre ++ bind_tokens key (length vals) ++ post.
Proof.
  intros Hne Hk Hb Hpre Hpost Hend.
  rewrite (frag_array env keys rplmts pre key post vals); auto.
Qed.

Lemma array_token_expansion_witness :
  fst (frag oracle2 (txt "id IN (" ++ ":"%char :: txt "ids" ++ txt "7)") None
         {["ids" := JArr [JStr "a"; JStr "b"]]}) =
  txt "id IN (:ids, :ids17)".
Proof.
  rewrite (array_token_expansion oracle2 None {["ids" := JArr [JStr "a"; JStr "b"]]}
             (txt "id IN (") (txt "ids") (txt "7)") [JStr "a"; JStr "b"]) by reflexivity.
  reflexivity.
Defined.

(** X2 (DBS.frag, sqlArrayRpl).  After the expansion of a token [:key]
    that names a collection, the bind set holds the value of index [i] under
    [key] followed by [i] ([key] itself for index 0, so the first value takes
    the place of the collection), and every other bind is as it was. *)
Theorem array_token_binds env keys rplmts pre key post vals :
  nonempty key = true -> forallb is_letter key = true ->
  rplmts !! str key = Some (JArr vals) ->
  plain pre = true -> plain post = true -> no_leading_letter post = true ->
  (forall i v, vals !! i = Some v ->
     snd (frag env (pre ++ ":"%char :: key ++ post) keys rplmts) !! str (bind_name key i)
       = Some v) /\
  (forall k, (forall i, i < length vals -> k <> str (bind_name key i)) ->
     snd (frag env (pre ++ ":"%char :: key ++ post) keys rplmts) !! k = rplmts !! k).
Proof.
  intros Hne Hk Hb Hpre Hpost Hend.
  rewrite (frag_array env keys rplmts pre key post vals); auto. cbn [snd]. split.
  - intros i v Hv. apply (sqlArrayRpl_loop_lookup _ key vals 0 [] rplmts i v Hv).
  - intros k Hk'. apply sqlArrayRpl_loop_other. exact Hk'.
Qed.

Lemma array_token_binds_witness :
  (forall i v, [JStr "a"; JStr "b"] !! i = Some v ->
     snd (frag oracle2 (txt "id IN (" ++ ":"%char :: txt "ids" ++ txt ")") None
            {["ids" := JArr [JStr "a"; JStr "b"]]}) !! str (bind_name (txt "ids") i)
       = Some v) /\
  (forall k, (forall i, i < 2 -> k <> str (bind_name (txt "ids") i)) ->
     snd (frag oracle2 (txt "id IN (" ++ ":"%char :: txt "ids" ++ txt ")") None
            {["ids" := JArr [JStr "a"; JStr "b"]]}) !! k =
     ({["ids" := JArr [JStr "a"; JStr "b"]]} : binds) !! k).
Proof.
  apply (array_token_binds oracle2 None {["ids" := JArr [JStr "a"; JStr "b"]]}
           (txt "id IN (") (txt "ids") (txt ")") [JStr "a"; JStr "b"]); reflexivity.
Defined.

(** X3 (DBS.frag, the array pattern).  The key of a token is made of
    letters only, so a collection bound under a name with any other character
    (a digit, an underscore) is never expanded: when every collection of the
    bind set has such a name, the resolved text is the one an empty bind set
    gives and the bind set is returned as it was. *)
Theorem array_needs_letter_name env sql keys rplmts :
  (forall k vals, rplmts !! k = Some (JArr vals) -> forallb is_letter (txt k) = false) ->
  frag env sql keys rplmts = (fst (frag env sql keys ∅), rplmts).
Proof.
  intros H. unfold frag. destruct (nonempty sql); [|reflexivity].
  rewrite (array_pass_fixed sql rplmts) by (apply array_free_letters, H).
  rewrite (array_pass_fixed sql ∅).
  - reflexivity.
  - apply array_free_letters. intros k vals Hk. rewrite lookup_empty in Hk. discriminate.
Qed.

Lemma array_needs_letter_name_witness :
  frag oracle2 (txt "id IN (:user_ids)") None {["user_ids" := JArr [JNum 1; JNum 2]]} =
  (fst (frag oracle2 (txt "id IN (:user_ids)") None ∅),
   {["user_ids" := JArr [JNum 1; JNum 2]]}).
Proof.
  apply array_needs_letter_name. intros k vals Hk.
  destruct (decide (k = "user_ids")) as [->|Hne]; [reflexivity|].
  rewrite lookup_singleton_ne in Hk by congruence. discriminate.
Defined.





(** X6 (DBS.frag, sqlVerRpl, COMPARE).  A version guard with any of the six
    comparators and the decimal text of a whole number [n] up to 2^53 (a
    number that [parseFloat] gives back exactly) as its literal is replaced by
    its body when [COMPARE] of the comparator holds between the version of the
    connection and [n], and is dropped otherwise.  A sign in front of the
    literal is matched outside the group of the literal and has no effect:
    [>= -2] is resolved as [>= 2]. *)
Theorem version_guard_resolution env keys rplmts pre op cmp sign n body s1 s2 s3 post :
  safe_integer n = true ->
  plain pre = true -> ends_text pre = true ->
  COMPARE op = Some cmp -> is_comparator op = true -> is_sign sign = true ->
  plain body = true -> no_leading_break body = true -> no_trailing_dash body = true ->
  plain post = true -> no_leading_break post = true ->
  frag env (pre ++ version_span op sign (index_text n) body 0 0 s1 s2 s3 0 0 0 ++ post)
       keys rplmts =
  (pre ++ (if cmp (env_version env) (inject_Z (Z.of_nat n)) then body else []) ++ post,
   rplmts).
Proof.
  intros _ Hpre He Hc Hop Hs Hb Hl Hd Hpost Hr.
  rewrite (frag_version_span env keys rplmts pre op sign n body 0 0 s1 s2 s3 0 0 0 post cmp)
    by (assumption || apply Nat.le_0_l).
  cbn [breaks repeat app collapse nonempty orb].
  destruct (cmp _ _); [|reflexivity]. destruct body; reflexivity.
Qed.

Lemma version_guard_resolution_witness :
  frag (env_of "oracle" 1) (txt "SELECT a" ++
          version_span (txt ">=") (txt "-") (index_text 2) (txt ", b") 0 0 1 1 0 0 0 0 ++
          txt " FROM t") None ∅ =
  (txt "SELECT a FROM t", ∅).
Proof.
  rewrite (version_guard_resolution (env_of "oracle" 1) None ∅ (txt "SELECT a") (txt ">=")
             (fun x y => Qle_bool y x) (txt "-") 2 (txt ", b") 1 1 0 (txt " FROM t"))
    by reflexivity.
  reflexivity.
Defined.

(** X7 (DBS.frag, the order of the passes).  The array pass runs over the
    whole text before any guard is resolved: a token that names a collection
    and stands inside a fragment guard is expanded, and the values are added
    to the bind set, also when the fragment is dropped afterwards. *)
Theorem dropped_fragment_expands_binds env keys rplmts pre key b1 bkey b2 vals l post :
  dashes_fit l = true ->
  plain pre = true -> ends_text pre = true ->
  nonempty key = true -> forallb is_word key = true ->
  key_in key keys = false ->
  nonempty bkey = true -> forallb is_letter bkey = true ->
  rplmts !! str bkey = Some (JArr vals) ->
  plain b1 = true -> no_leading_break b1 = true ->
  plain b2 = true -> no_leading_letter b2 = true -> no_trailing_dash b2 = true ->
  plain post = true -> no_leading_break post = true ->
  fst (frag env (pre ++ guard_span "?" key (b1 ++ (":"%char :: bkey) ++ b2) l ++ post)
         keys rplmts) =
    pre ++ collapse (breaks (l_breaks l)) (breaks (l_breaks_after l)) ++ post /\
  forall i v, vals !! i = Some v ->
    snd (frag env (pre ++ guard_span "?" key (b1 ++ (":"%char :: bkey) ++ b2) l ++ post)
           keys rplmts) !! str (bind_name bkey i) = Some v.
Proof.
  intros Hfit Hpre He Hne Hk Hin Hbne Hbk Hb Hb1 Hl Hb2 Hend Hd Hpost Hr.
  rewrite (frag_fragment_token env keys rplmts pre key b1 bkey b2 vals l post)
    by assumption.
  rewrite Hin. cbn [fst snd]. split; [reflexivity|].
  intros i v Hv. apply (sqlArrayRpl_loop_lookup _ bkey vals 0 [] rplmts i v Hv).
Qed.

Lemma dropped_fragment_expands_binds_witness :
  fst (frag oracle2 (txt "SELECT a FROM t" ++
         guard_span "?" (txt "byIds") (txt " WHERE id IN (" ++ (":"%char :: txt "ids") ++ txt ")")
           inline ++ []) None {["ids" := JArr [JNum 4; JNum 5]]}) =
    txt "SELECT a FROM t" ++ collapse (breaks (l_breaks inline)) (breaks (l_breaks_after inline))
      ++ [] /\
  forall i v, [JNum 4; JNum 5] !! i = Some v ->
    snd (frag oracle2 (txt "SELECT a FROM t" ++
           guard_span "?" (txt "byIds") (txt " WHERE id IN (" ++ (":"%char :: txt "ids") ++ txt ")")
             inline ++ []) None {["ids" := JArr [JNum 4; JNum 5]]})
      !! str (bind_name (txt "ids") i) = Some v.
Proof.
  apply (dropped_fragment_expands_binds oracle2 None {["ids" := JArr [JNum 4; JNum 5]]}
           (txt "SELECT a FROM t") (txt "byIds") (txt " WHERE id IN (") (txt "ids") (txt ")")
           [JNum 4; JNum 5] inline []); reflexivity.
Defined.

(** * Further properties of the statement functions *)

(** X8 (execSqlPublic, DBS.exec, generateDbsOpts).  The counter
    [tx.pending] that the driver is given counts the requests handed to it
    that were not of type [READ], the failed ones included: a call of the
    statement function of a text file keeps the counter equal to the number
    of such requests, and never lowers it. *)
Theorem pending_counts_writes_kept sqls h opts frags st :
  is_json h = false ->
  pending_counts_writes st ->
  pending_counts_writes (snd (execSqlPublic sqls h opts frags st)) /\
  cs_pending st <= cs_pending (snd (execSqlPublic sqls h opts frags st)).
Proof.
  intros _ H.
  destruct (execSqlPublic_cases sqls h opts frags st)
    as [[e ->]|(sql & type & bnds & st0 & -> & Ep & Es & _)].
  - split; [exact H|reflexivity].
  - unfold genExecSqlFromFileFunction.
    assert (H0 : pending_counts_writes st0).
    { unfold pending_counts_writes in *. rewrite Ep, Es. exact H. }
    split; [apply DBS_exec_counts, H0|].
    destruct (DBS_exec_effect (sq_dbs sqls) (h_fpth h) sql
                {| eo_type := type; eo_binds := bnds; eo_returnErrors := false |} frags st0)
      as (rq & _ & _ & _ & _ & _ & E & _).
    rewrite E, Ep. lia.
Qed.

Lemma pending_counts_writes_kept_witness :
  pending_counts_writes
    (snd (execSqlPublic (sqls_env_of "connA" failing_driver None) read_users
            (Some (call (Some "UPDATE") None false)) None fresh)) /\
  cs_pending fresh <=
  cs_pending (snd (execSqlPublic (sqls_env_of "connA" failing_driver None) read_users
                     (Some (call (Some "UPDATE") None false)) None fresh)).
Proof.
  apply (pending_counts_writes_kept (sqls_env_of "connA" failing_driver None) read_users
           (Some (call (Some "UPDATE") None false)) None fresh); reflexivity.
Defined.







(** * Further properties of [SQLS.init] *)

(** X12 (SQLS.init, prepare, SQLS.prepared).  After the walk over a
    directory without sub-directories, started on a namespace that holds no
    statement function, the number of prepared statements that is stored and
    handed to the driver's [init] is the number of statement functions in the
    namespace.  No segment of a file name is the name of a property that
    objects inherit (the walk would take the inherited property for a part of
    the namespace). *)
Theorem walk_counts_functions s files v :
  sqls_files s = Some files -> flat files = true -> own_names files = true ->
  leaves (sqls_db s) = 0 ->
  fst (SQLS_init s) = Resolved v ->
  sqls_numOfPreparedStmts (snd (SQLS_init s)) =
    Some (leaves (sqls_db (snd (SQLS_init s)))) /\
  dbx_init (dbs_dbx (sq_dbs (sqls_env s))) (leaves (sqls_db (snd (SQLS_init s)))) =
    Resolved v.
Proof.
  intros Hf Hflat _ H0 Hr. unfold SQLS_init in *. rewrite Hf in *.
  destruct (prepare (sqls_env s) files (sqls_db s) "" (sqls_basePath s) 0)
    as [[db|e] n] eqn:Ep; [|discriminate].
  apply prepare_flat_leaves in Ep; [|exact Hflat].
  cbn [fst snd SQLS_update sqls_numOfPreparedStmts sqls_db] in *.
  assert (n = leaves db) by lia. subst n. auto.
Qed.

Lemma walk_counts_functions_witness :
  sqls_numOfPreparedStmts
    (snd (SQLS_init (connection "connB" [statement "read.a.sql"; statement "read.a.txt";
                                         statement "update.a.sql"]))) =
    Some (leaves (sqls_db (snd (SQLS_init
            (connection "connB" [statement "read.a.sql"; statement "read.a.txt";
                                 statement "update.a.sql"]))))) /\
  dbx_init (dbs_dbx (sq_dbs (sqls_env (connection "connB" [statement "read.a.sql";
              statement "read.a.txt"; statement "update.a.sql"]))))
    (leaves (sqls_db (snd (SQLS_init
       (connection "connB" [statement "read.a.sql"; statement "read.a.txt";
                            statement "update.a.sql"]))))) =
    Resolved (JNum 2).
Proof.
  apply (walk_counts_functions
           (connection "connB" [statement "read.a.sql"; statement "read.a.txt";
                                statement "update.a.sql"])
           [statement "read.a.sql"; statement "read.a.txt"; statement "update.a.sql"]
           (JNum 2)); reflexivity.
Defined.

(** X13 (prepare, the loop over the name segments).  Of two files of a
    directory whose names have the same segments once sanitized (they differ
    in the extension only, or in characters that become an underscore), the
    one that is listed later gets no statement function: nothing is prepared
    or counted for it, it is not even read, and the namespace stays as the
    first file left it.  No segment is the name of a property that objects
    inherit. *)
Theorem same_segments_first_wins sqls f1 d1 f2 d2 cont pnm pdir n c1 n1 :
  forallb own_name (segments f1) = true ->
  segments f2 = segments f1 ->
  prepare_entry sqls (File f1 d1) cont pnm pdir n = (Resolved c1, n1) ->
  prepare_entry sqls (File f2 d2) c1 pnm pdir n1 = (Resolved c1, n1).
Proof.
  intros _ Hs H. rewrite prepare_file in *. rewrite Hs.
  apply place_skip; [apply segments_nonempty|]. eapply place_has_path, H.
Qed.

Lemma same_segments_first_wins_witness :
  prepare_entry (sqls_env_of "connA" quiet_driver None) (File "read.users.txt" None)
    (Container [("read", Container [("users", Leaf read_users [])])]) "" "/app/connA" 1 =
  (Resolved (Container [("read", Container [("users", Leaf read_users [])])]), 1).
Proof.
  apply (same_segments_first_wins (sqls_env_of "connA" quiet_driver None)
           "read.users.sql" (Some (txt "SELECT * FROM users WHERE since > :since"))
           "read.users.txt" None (Container []) "" "/app/connA" 0); reflexivity.
Defined.

(** X14 (prepare, SQLS.prepared).  A file whose name is made of the
    segments [s1.s2. ... .sk] and an extension, all of word characters, and
    whose first segment is not a property of the namespace yet, becomes the
    statement function at [s1.s2. ... .sk]: its name is the dialect, the
    connection name, the names of the directories above it and the segments,
    joined by underscores, its extension is the last part of the file name,
    and its type is the first segment in upper case when that is a CRUD
    type.  One statement is counted.  No segment is the name of a property
    that objects inherit. *)
Theorem file_name_to_path sqls segs ext data cont pnm pdir n db n' :
  nonempty_list (map str segs) = true ->
  forallb (forallb is_word) segs = true -> forallb is_word ext = true ->
  forallb own_name (map str segs) = true ->
  get_prop cont (hd "" (map str segs)) = None ->
  prepare_entry sqls (File (str (dotted (segs ++ [ext]))) data) cont pnm pdir n =
    (Resolved db, n') ->
  exists src,
    get_path (map str segs) db =
      Some (Leaf {| h_name := conn_dialect (sq_conn sqls) +:+ "_" +:+
                              conn_name (sq_conn sqls) +:+ "_" +:+ prefix_name pnm +:+
                              join "_" (map str segs);
                    h_fpth := pdir +:+ "/" +:+ str (dotted (segs ++ [ext]));
                    h_ext := str ext;
                    h_crud := crud_of (str (dotted (segs ++ [ext])));
                    h_source := src |} []) /\
    n' = S n.
Proof.
  intros Hne Hs He _ Hfresh H.
  assert (Hsegs : segs <> []) by (destruct segs; [discriminate|discriminate]).
  assert (Hall : Forall (fun x => forallb is_word x = true) segs).
  { apply Forall_forall. intros x Hx. rewrite forallb_forall in Hs. apply Hs.
    apply list_elem_of_In. exact Hx. }
  destruct (segments_dotted segs ext Hsegs Hall He) as [E1 E2].
  rewrite prepare_file in H. unfold handle_name in H. rewrite E1, E2 in H.
  destruct (map str segs) as [|k ks] eqn:Em; [discriminate|].
  cbn [hd] in Hfresh. rewrite (place_new _ k ks cont n Hfresh) in H.
  pose proof (SQLS_prepared_counts_one sqls
                (conn_dialect (sq_conn sqls) +:+ "_" +:+ conn_name (sq_conn sqls) +:+ "_" +:+
                 prefix_name pnm +:+ join "_" (k :: ks))
                (pdir +:+ "/" +:+ str (dotted (segs ++ [ext]))) (str ext)
                (str (dotted (segs ++ [ext]))) data n) as Hc.
  unfold SQLS_prepared, bind, lift, ret, throw, count_stmt in H, Hc.
  destruct (conn_logging (sq_conn sqls) &&
            negb (truthy_string (crud_of (str (dotted (segs ++ [ext])))))).
  { unfold free_identifier in H. cbn [assoc node_globals] in H. discriminate. }
  destruct (sq_cached sqls).
  - injection H as <- <-. eexists. split; [apply get_path_place_new|reflexivity].
  - destruct data as [d|]; [|discriminate].
    injection H as <- <-. eexists. split; [apply get_path_place_new|reflexivity].
Qed.

Lemma file_name_to_path_witness :
  exists src,
    get_path (map str [txt "read"; txt "user"; txt "details"])
      (Container [("read", Container [("user", Container [("details",
         Leaf {| h_name := "oracle_connA_read_user_details";
                 h_fpth := "/app/connA/read.user.details.sql";
                 h_ext := "sql"; h_crud := Some "READ";
                 h_source := StaticSql (txt "SELECT 1 FROM dual") |} [])])])]) =
      Some (Leaf {| h_name := conn_dialect (sq_conn (sqls_env_of "connA" quiet_driver None))
                              +:+ "_" +:+
                              conn_name (sq_conn (sqls_env_of "connA" quiet_driver None))
                              +:+ "_" +:+ prefix_name "" +:+
                              join "_" (map str [txt "read"; txt "user"; txt "details"]);
                    h_fpth := "/app/connA" +:+ "/" +:+
                              str (dotted ([txt "read"; txt "user"; txt "details"] ++ [txt "sql"]));
                    h_ext := str (txt "sql");
                    h_crud := crud_of (str (dotted ([txt "read"; txt "user"; txt "details"]
                                                    ++ [txt "sql"])));
                    h_source := src |} []) /\
    1 = S 0.
Proof.
  apply (file_name_to_path (sqls_env_of "connA" quiet_driver None)
           [txt "read"; txt "user"; txt "details"] (txt "sql")
           (Some (txt "SELECT 1 FROM dual")) (Container []) "" "/app/connA" 0);
    reflexivity.
Defined.

(** X15 (SQLS.init, SQLS.prepared).  With logging on for a connection, a
    first file of its directory whose name has no CRUD prefix makes [init]
    fail: the log line for such a file reads [OPERATION_TYPES], which no scope
    binds, so the walk is rejected with a [ReferenceError] whatever the file
    holds and whatever other files there are.  The namespace is empty at the
    start and no segment of the name is the name of a property that objects
    inherit. *)
Theorem logging_rejects_unprefixed s name data rest :
  conn_logging (sq_conn (sqls_env s)) = true ->
  sqls_files s = Some (File name data :: rest) ->
  crud_of name = None ->
  sqls_db s = Container [] ->
  forallb own_name (segments name) = true ->
  fst (SQLS_init s) = Rejected (ReferenceError "OPERATION_TYPES is not defined").
Proof.
  intros Hlog Hf Hc Hdb _. unfold SQLS_init. rewrite Hf, Hdb.
  cbn [prepare]. unfold bind. rewrite prepare_file.
  rewrite place_fresh by apply segments_nonempty.
  unfold SQLS_prepared, bind, lift. rewrite Hlog, Hc. cbn [truthy_string negb andb].
  unfold free_identifier. cbn [assoc node_globals]. reflexivity.
Qed.

Lemma logging_rejects_unprefixed_witness :
  fst (SQLS_init (logged_connection [statement "users.sql"; statement "read.a.sql"])) =
  Rejected (ReferenceError "OPERATION_TYPES is not defined").
Proof.
  apply (logging_rejects_unprefixed
           (logged_connection [statement "users.sql"; statement "read.a.sql"])
           "users.sql" (Some (txt "SELECT 1 FROM dual")) [statement "read.a.sql"]);
    reflexivity.
Defined.

(** X16 (SQLS.init).  A second [init] of a connection whose directory has
    no sub-directories and lists the same files finds every name of the first
    walk set: it prepares nothing, leaves the namespace as it is, stores 0 as
    the number of prepared statements and hands 0 to the driver's [init].  No
    segment of a file name is the name of a property that objects inherit. *)
Theorem second_init_prepares_nothing s files v :
  sqls_files s = Some files -> flat files = true -> own_names files = true ->
  fst (SQLS_init s) = Resolved v ->
  fst (SQLS_init (snd (SQLS_init s))) = dbx_init (dbs_dbx (sq_dbs (sqls_env s))) 0 /\
  sqls_numOfPreparedStmts (snd (SQLS_init (snd (SQLS_init s)))) = Some 0 /\
  sqls_db (snd (SQLS_init (snd (SQLS_init s)))) = sqls_db (snd (SQLS_init s)).
Proof.
  intros Hf Hflat _ Hr.
  assert (Es : exists db n,
             prepare (sqls_env s) files (sqls_db s) "" (sqls_basePath s) 0 = (Resolved db, n) /\
             snd (SQLS_init s) = SQLS_update s n db).
  { unfold SQLS_init in *. rewrite Hf in *.
    destruct (prepare (sqls_env s) files (sqls_db s) "" (sqls_basePath s) 0)
      as [[db|e] n]; [|discriminate]. eauto. }
  destruct Es as (db & n & Ep & ->). unfold SQLS_init.
  cbn [SQLS_update sqls_files sqls_env sqls_db sqls_basePath]. rewrite Hf.
  destruct (prepare_flat_paths _ _ _ _ _ _ _ _ Hflat Ep) as [_ Hall].
  rewrite (prepare_flat_again (sqls_env s) files db "" (sqls_basePath s) 0 Hflat Hall).
  cbn [fst snd SQLS_update sqls_numOfPreparedStmts sqls_db]. auto.
Qed.

Lemma second_init_prepares_nothing_witness :
  fst (SQLS_init (snd (SQLS_init (connection "connB" [statement "read.a.sql";
                                                       statement "update.a.sql"])))) =
    dbx_init (dbs_dbx (sq_dbs (sqls_env (connection "connB" [statement "read.a.sql";
                                                             statement "update.a.sql"])))) 0 /\
  sqls_numOfPreparedStmts
    (snd (SQLS_init (snd (SQLS_init (connection "connB" [statement "read.a.sql";
                                                          statement "update.a.sql"]))))) =
    Some 0 /\
  sqls_db (snd (SQLS_init (snd (SQLS_init (connection "connB" [statement "read.a.sql";
                                                                statement "update.a.sql"]))))) =
  sqls_db (snd (SQLS_init (connection "connB" [statement "read.a.sql";
                                                statement "update.a.sql"]))).
Proof.
  apply (second_init_prepares_nothing
           (connection "connB" [statement "read.a.sql"; statement "update.a.sql"])
           [statement "read.a.sql"; statement "update.a.sql"] (JNum 2)); reflexivity.
Defined.

(** * Further properties of [Manager] *)

(** X17 (operation, queue).  Without [opts.connections], a lifecycle call
    queues one task for each connection that takes part, in the order of the
    configuration: all connections when no name is listed, the connections
    whose names are listed otherwise.  Each task is queued under the name of
    its connection, on the lane of series when [opts.executeInSeries] is set
    and on the concurrent lane otherwise; a listed name that no connection has
    is passed over. *)
Theorem queue_selects_listed series connNames sqls :
  exists q,
    queue_all (plain_opts series) connNames 0 sqls [] = Resolved q /\
    map t_name q = map connectionName (List.filter (selected connNames) sqls) /\
    Forall (fun t => t_lane t = lane_of series) q.
Proof.
  exists (tasks_for series connNames 0 sqls). rewrite queue_all_plain. cbn [app].
  split; [reflexivity|]. split; [apply tasks_for_names|apply tasks_for_lanes].
Qed.

(** X18 (Manager.init, Manager.close, operation).  No lifecycle call
    resets the stored count: once [init] has stored a count that is not 0,
    [commit], [rollback] and [close] keep it, whatever their tasks do, and
    [init] on a closed manager is rejected as already initialized. *)
Theorem closed_manager_stays_initialized mgr n :
  mgr_sqlsCount mgr = Some (S n) ->
  (forall fn opts connNames,
     mgr_sqlsCount (snd (operation mgr fn opts connNames)) = Some (S n)) /\
  fst (Manager_init (snd (Manager_close mgr))) =
    Rejected (Error (str (index_text (S n)) +:+ " database(s) already initialized")).
Proof.
  intros H. split.
  - intros fn opts connNames. rewrite operation_count. exact H.
  - unfold Manager_close. rewrite (Manager_init_twice _ n); [reflexivity|].
    rewrite operation_count. exact H.
Qed.

Lemma closed_manager_stays_initialized_witness :
  (forall fn opts connNames,
     mgr_sqlsCount (snd (operation (snd (Manager_init manager)) fn opts connNames)) =
       Some (S 1)) /\
  fst (Manager_init (snd (Manager_close (snd (Manager_init manager))))) =
    Rejected (Error (str (index_text (S 1)) +:+ " database(s) already initialized")).
Proof.
  apply (closed_manager_stays_initialized (snd (Manager_init manager)) 1). reflexivity.
Defined.

(** X19 (the constructor of Manager, the constructor of SQLS).  A manager
    that was constructed has one connection for each entry of the
    configuration, in its order and under its name, and the names are
    distinct, not empty, and none is the name of a property that objects
    inherit (such a name is refused as a duplicate). *)
Theorem constructed_names_distinct node conf cache logging mgr :
  Manager_new node (Some conf) cache logging = Resolved mgr ->
  map connectionName (mgr_sqls mgr) = map conf_name (conf_connections conf) /\
  NoDup (map connectionName (mgr_sqls mgr)) /\
  Forall (fun name => (name ∉ Object_prototype) /\ truthy_string (Some name) = true)
         (map connectionName (mgr_sqls mgr)).
Proof.
  unfold Manager_new. destruct (conf_dialects conf) as [dialects|]; [|discriminate].
  destruct (construct_all _ _ _ _ _ _ 0 _ _) as [sqls|e] eqn:E; [|discriminate].
  intros H. injection H as <-. cbn [mgr_sqls].
  destruct (construct_all_facts _ _ _ _ _ _ _ _ _ _ E) as (Hn & Hnd & Hfree & Hv & _).
  split; [exact Hn|]. split; [exact Hnd|].
  rewrite Hn. apply Forall_forall. intros name Hin.
  rewrite Forall_forall in Hfree. rewrite <- Hn in Hin. pose proof (Hfree _ Hin) as Hf.
  cbv beta in Hf. unfold name_taken in Hf. apply orb_false_iff in Hf.
  destruct Hf as [_ Hf]. apply bool_decide_eq_false in Hf. split; [exact Hf|].
  rewrite Hn in Hin. apply list_elem_of_In, in_map_iff in Hin.
  destruct Hin as (c & <- & Hc). rewrite forallb_forall in Hv. specialize (Hv c Hc).
  unfold valid_conn in Hv. apply andb_true_iff in Hv. destruct Hv as [Hv _].
  apply andb_true_iff in Hv. destruct Hv as [Hv _].
  apply andb_true_iff in Hv. destruct Hv as [_ Hv].
  unfold conf_name, shown. destruct (cc_name c) as [[|a nm]|]; try discriminate. reflexivity.
Qed.

Lemma constructed_names_distinct_witness :
  map connectionName (mgr_sqls built) = map conf_name (conf_connections conf) /\
  NoDup (map connectionName (mgr_sqls built)) /\
  Forall (fun name => (name ∉ Object_prototype) /\ truthy_string (Some name) = true)
         (map connectionName (mgr_sqls built)).
Proof. apply (constructed_names_distinct node conf None false built). reflexivity. Defined.

(** X20 (the constructor of Manager, the constructor of DBS).  A manager is
    constructed only from a configuration that holds the dialects and whose
    every connection has an id that is a property of [conf.univ.db] (its own
    or an inherited one), a name, and a dialect whose name in lower case is an
    own property of [conf.db.dialects]; each connection then resolves its
    guards with that lower-case name as its dialect and with the configured
    version, 0 when none is configured. *)
Theorem constructed_from_valid_conf node conf cache logging mgr :
  Manager_new node (Some conf) cache logging = Resolved mgr ->
  exists dialects,
    conf_dialects conf = Some dialects /\
    forallb (valid_conn conf dialects) (conf_connections conf) = true /\
    Forall2 (fun c s =>
               env_dialect (dbs_env (sq_dbs (sqls_env s))) = toLowerCase (txt (cc_dialect c)) /\
               env_version (dbs_env (sq_dbs (sqls_env s))) = default 0%Q (cc_version c))
            (conf_connections conf) (mgr_sqls mgr).
Proof.
  unfold Manager_new. destruct (conf_dialects conf) as [dialects|]; [|discriminate].
  destruct (construct_all _ _ _ _ _ _ 0 _ _) as [sqls|e] eqn:E; [|discriminate].
  intros H. injection H as <-. cbn [mgr_sqls].
  destruct (construct_all_facts _ _ _ _ _ _ _ _ _ _ E) as (_ & _ & _ & Hv & He).
  exists dialects. auto.
Qed.

Lemma constructed_from_valid_conf_witness :
  exists dialects,
    conf_dialects conf = Some dialects /\
    forallb (valid_conn conf dialects) (conf_connections conf) = true /\
    Forall2 (fun c s =>
               env_dialect (dbs_env (sq_dbs (sqls_env s))) = toLowerCase (txt (cc_dialect c)) /\
               env_version (dbs_env (sq_dbs (sqls_env s))) = default 0%Q (cc_version c))
            (conf_connections conf) (mgr_sqls built).
Proof. apply (constructed_from_valid_conf node conf None false built). reflexivity. Defined.
